(** * openFDA shortage tracker: snapshot/diff engine

    Shallow embedding of [srcs/openfda_shortage_tracker.py].

    Universe of Python values covered by the embedding: [None], [bool],
    [int] (unbounded), [str] over the code points 0..255 (one [ascii] per
    code point, so the byte order of [String.compare] is the code point
    order Python sorts by), [list] and [dict] with [str] keys.  These are
    the values [json.loads] builds, apart from [float] and from strings
    with code points above 255; a JSON text that needs one of those is
    reported as [Unmodelled] by the parser below, never as an error.
    The limits of the interpreter (recursion depth, length of integer
    literals) and the failures of the file system are not part of the
    embedding; the network is what it answers ([reply]).

    A [dict] is an association list in insertion order whose keys are
    pairwise distinct ([wf]); equality on dicts is Python's [==], which
    ignores insertion order.  A snapshot (the top-level [dict] that maps
    a record key to a normalized record) is only ever used as a map
    ([set(...)], [sorted], subscripting, [json.dumps(..., sort_keys=True)])
    and is a [gmap]. *)

From Stdlib Require Import ZArith Ascii String List Bool Lia.
From Stdlib Require Import Decimal DecimalFacts DecimalPos DecimalN.
From stdpp Require Import base option list gmap sets strings sorting.

Local Open Scope Z_scope.
Set Warnings "-register-all".

(* ================================================================== *)
(** ** Python values *)

Inductive pyval : Type :=
| PNone
| PBool (b : bool)
| PInt (n : Z)
| PStr (s : string)
| PList (items : list pyval)
| PDict (items : list (string * pyval)).

(** A raw record, and any other [dict]: association list, insertion order. *)
Abbreviation dict := (list (string * pyval)).

#[global] Instance pyval_inhabited : Inhabited pyval := populate PNone.

(** [d.get(k)] as an option; [dict_get_default] is [d.get(k, dflt)]. *)
Fixpoint dict_get (k : string) (d : dict) : option pyval :=
  match d with
  | [] => None
  | (k', v) :: d' => if String.eqb k' k then Some v else dict_get k d'
  end.

Definition dict_get_default (k : string) (dflt : pyval) (d : dict) : pyval :=
  match dict_get k d with Some v => v | None => dflt end.

(** [d[k] = v]: overwrite in place, or append at the end. *)
Fixpoint dict_set (k : string) (v : pyval) (d : dict) : dict :=
  match d with
  | [] => [(k, v)]
  | (k', v') :: d' =>
      if String.eqb k' k then (k', v) :: d' else (k', v') :: dict_set k v d'
  end.

Definition is_dict (v : pyval) : bool :=
  match v with PDict _ => true | _ => false end.

Definition is_list (v : pyval) : bool :=
  match v with PList _ => true | _ => false end.

Fixpoint all2 {A B} (f : A -> B -> bool) (l : list A) (l' : list B) : bool :=
  match l, l' with
  | [], [] => true
  | x :: l, y :: l' => f x y && all2 f l l'
  | _, _ => false
  end.

(** Python's [==] on these values: [bool] is a subclass of [int], so
    [True == 1] and [False == 0]; lists compare element-wise; dicts
    compare as maps, whatever the insertion order. *)
Fixpoint py_eq (a b : pyval) {struct a} : bool :=
  match a, b with
  | PNone, PNone => true
  | PBool x, PBool y => Bool.eqb x y
  | PBool x, PInt n => Z.eqb (Z.b2z x) n
  | PInt n, PBool y => Z.eqb n (Z.b2z y)
  | PInt m, PInt n => Z.eqb m n
  | PStr s, PStr t => String.eqb s t
  | PList l, PList l' => all2 py_eq l l'
  | PDict d, PDict d' =>
      Nat.eqb (length d) (length d') &&
      forallb
        (fun p =>
           match dict_get (fst p) d' with
           | Some v' => py_eq (snd p) v'
           | None => false
           end) d
  | _, _ => false
  end.

(** The representation invariant of a Python value: every [dict] inside
    it has pairwise distinct keys. *)
Fixpoint distinct (ks : list string) : bool :=
  match ks with
  | [] => true
  | k :: ks' => negb (existsb (String.eqb k) ks') && distinct ks'
  end.

Fixpoint wf (v : pyval) : bool :=
  match v with
  | PList l => forallb wf l
  | PDict d =>
      distinct (map fst d) && forallb (fun p => wf (snd p)) d
  | _ => true
  end.

(* ================================================================== *)
(** ** Text: [str(x)], [repr(x)] and the JSON encoder *)

(** Texts under construction are lists of characters; they become a
    [string] where the program has a [str]. *)
Abbreviation text := (list ascii).

Definition chars (s : string) : text := list_ascii_of_string s.

Definition quote_char : ascii := "034"%char.
Definition apostrophe : ascii := "039"%char.
Definition backslash : ascii := "092"%char.
Definition newline : ascii := "010"%char.

Fixpoint join (sep : text) (parts : list text) : text :=
  match parts with
  | [] => []
  | p :: ps =>
      match ps with
      | [] => p
      | _ :: _ => p ++ sep ++ join sep ps
      end
  end.

(** Decimal digits of a non-negative number, most significant first. *)
Fixpoint uint_chars (d : Decimal.uint) : text :=
  match d with
  | Nil => []
  | D0 d => "0"%char :: uint_chars d
  | D1 d => "1"%char :: uint_chars d
  | D2 d => "2"%char :: uint_chars d
  | D3 d => "3"%char :: uint_chars d
  | D4 d => "4"%char :: uint_chars d
  | D5 d => "5"%char :: uint_chars d
  | D6 d => "6"%char :: uint_chars d
  | D7 d => "7"%char :: uint_chars d
  | D8 d => "8"%char :: uint_chars d
  | D9 d => "9"%char :: uint_chars d
  end.

(** [int.__repr__]: used by [str], [repr] and [json.dumps] alike. *)
Definition int_repr (n : Z) : text :=
  match n with
  | Z0 => ["0"%char]
  | Zpos p => uint_chars (Pos.to_uint p)
  | Zneg p => "-"%char :: uint_chars (Pos.to_uint p)
  end.

Definition hex_digit (n : N) : ascii :=
  match n with
  | 0 => "0" | 1 => "1" | 2 => "2" | 3 => "3" | 4 => "4" | 5 => "5"
  | 6 => "6" | 7 => "7" | 8 => "8" | 9 => "9" | 10 => "a" | 11 => "b"
  | 12 => "c" | 13 => "d" | 14 => "e" | _ => "f"
  end%N%char.

(** The two lower-case hexadecimal digits of a code point below 256. *)
Definition hex2 (c : ascii) : text :=
  let n := N_of_ascii c in
  [hex_digit (n / 16)%N; hex_digit (n mod 16)%N].

(** [str.isprintable] on one code point below 256: the controls
    (0..31, 127..159), the no-break space (160) and the soft hyphen (173)
    are not printable. *)
Definition isprintable (c : ascii) : bool :=
  let n := N_of_ascii c in
  ((32 <=? n) && (n <=? 126) || (161 <=? n) && negb (n =? 173))%N.

Definition repr_char (quote c : ascii) : text :=
  if Ascii.eqb c quote || Ascii.eqb c backslash then [backslash; c]
  else if Ascii.eqb c "009" then [backslash; "t"%char]
  else if Ascii.eqb c "010" then [backslash; "n"%char]
  else if Ascii.eqb c "013" then [backslash; "r"%char]
  else if isprintable c then [c]
  else backslash :: "x"%char :: hex2 c.

(** [repr] of a [str]: single quotes, unless the string has a single
    quote and no double quote. *)
Definition str_repr (s : string) : text :=
  let cs := chars s in
  let quote :=
    if existsb (Ascii.eqb apostrophe) cs && negb (existsb (Ascii.eqb quote_char) cs)
    then quote_char else apostrophe in
  quote :: flat_map (repr_char quote) cs ++ [quote].

Fixpoint py_repr (v : pyval) : text :=
  match v with
  | PNone => chars "None"
  | PBool true => chars "True"
  | PBool false => chars "False"
  | PInt n => int_repr n
  | PStr s => str_repr s
  | PList l => "["%char :: join (chars ", ") (map py_repr l) ++ ["]"%char]
  | PDict d =>
      "{"%char ::
      join (chars ", ")
        (map (fun p => str_repr (fst p) ++ chars ": " ++ py_repr (snd p)) d)
      ++ ["}"%char]
  end.

(** [str(x)]: a [str] is itself, anything else is its [repr]. *)
Definition py_str (v : pyval) : string :=
  match v with
  | PStr s => s
  | _ => string_of_list_ascii (py_repr v)
  end.

(** [json.encoder.py_encode_basestring_ascii]: everything outside
    [' '..'~'], the double quote and the backslash are escaped. *)
Definition escape_char (c : ascii) : text :=
  if Ascii.eqb c quote_char then [backslash; quote_char]
  else if Ascii.eqb c backslash then [backslash; backslash]
  else if Ascii.eqb c "008" then [backslash; "b"%char]
  else if Ascii.eqb c "012" then [backslash; "f"%char]
  else if Ascii.eqb c "010" then [backslash; "n"%char]
  else if Ascii.eqb c "013" then [backslash; "r"%char]
  else if Ascii.eqb c "009" then [backslash; "t"%char]
  else if ((32 <=? N_of_ascii c) && (N_of_ascii c <=? 126))%N then [c]
  else backslash :: "u"%char :: "0"%char :: "0"%char :: hex2 c.

Definition encode_basestring_ascii (s : string) : text :=
  quote_char :: flat_map escape_char (chars s) ++ [quote_char].

(** [sorted(...)] on items keyed by a string: Python's sort is stable,
    and so is the merge sort. *)
Definition key_le {A} (a b : string * A) : Prop := String.le (fst a) (fst b).

#[global] Instance key_le_dec {A} : RelDecision (@key_le A).
Proof. intros a b. unfold key_le. apply _. Defined.

Definition sort_items {A} (l : list (string * A)) : list (string * A) :=
  merge_sort key_le l.

(** ['\n' + indent * level] *)
Definition newline_indent (indent level : nat) : text :=
  newline :: repeat " "%char (indent * level).

(** The brackets, separators and line breaks [_iterencode_list] and
    [_iterencode_dict] put around the encoded items at nesting [level]:
    the item separator is [", "] without [indent] and [","] with it. *)
Definition enclose (indent : option nat) (level : nat)
    (opening closing : ascii) (parts : list text) : text :=
  match parts with
  | [] => [opening; closing]
  | _ :: _ =>
      match indent with
      | None => opening :: join (chars ", ") parts ++ [closing]
      | Some n =>
          opening :: newline_indent n (S level)
          ++ join (","%char :: newline_indent n (S level)) parts
          ++ newline_indent n level ++ [closing]
      end
  end.

Definition encode_member (m : string * text) : text :=
  encode_basestring_ascii (fst m) ++ chars ": " ++ snd m.

(** [json.dumps(v, indent=indent, sort_keys=True)] for a value nested
    [level] brackets deep. *)
Fixpoint json_encode (indent : option nat) (level : nat) (v : pyval) : text :=
  match v with
  | PNone => chars "null"
  | PBool true => chars "true"
  | PBool false => chars "false"
  | PInt n => int_repr n
  | PStr s => encode_basestring_ascii s
  | PList l =>
      enclose indent level "[" "]" (map (json_encode indent (S level)) l)
  | PDict d =>
      enclose indent level "{" "}"
        (map encode_member
           (sort_items
              (map (fun p => (fst p, json_encode indent (S level) (snd p))) d)))
  end.

Definition json_dumps (indent : option nat) (v : pyval) : string :=
  string_of_list_ascii (json_encode indent 0 v).

(* ================================================================== *)
(** ** Outcomes: a value, an exception, or a text outside the universe *)

Inductive exn : Type :=
| RuntimeError (msg : string)
| JSONDecodeError
| AttributeError.

Inductive outcome (A : Type) : Type :=
| Return (a : A)
| Raise (e : exn)
| Unmodelled.

Arguments Return {A} a.
Arguments Raise {A} e.
Arguments Unmodelled {A}.

Definition bind {A B} (m : outcome A) (f : A -> outcome B) : outcome B :=
  match m with
  | Return a => f a
  | Raise e => Raise e
  | Unmodelled => Unmodelled
  end.

Notation "'let*' p ':=' m 'in' k" := (bind m (fun p => k))
  (at level 10, p pattern, m at level 100, k at level 200).

(* ================================================================== *)
(** ** The JSON decoder ([json.loads] with its defaults) *)

Definition is_ws (c : ascii) : bool :=
  Ascii.eqb c " " || Ascii.eqb c "009" || Ascii.eqb c "010" || Ascii.eqb c "013".

Fixpoint skip_ws (s : text) : text :=
  match s with
  | c :: r => if is_ws c then skip_ws r else s
  | [] => []
  end.

Definition is_digit (c : ascii) : bool :=
  ((48 <=? N_of_ascii c) && (N_of_ascii c <=? 57))%N.

Definition hex_value (c : ascii) : option N :=
  let n := N_of_ascii c in
  if ((48 <=? n) && (n <=? 57))%N then Some (n - 48)%N
  else if ((97 <=? n) && (n <=? 102))%N then Some (n - 87)%N
  else if ((65 <=? n) && (n <=? 70))%N then Some (n - 55)%N
  else None.

(** [_decode_uXXXX] *)
Definition hex4 (a b c d : ascii) : option N :=
  match hex_value a, hex_value b, hex_value c, hex_value d with
  | Some x, Some y, Some z, Some w => Some (((x * 16 + y) * 16 + z) * 16 + w)%N
  | _, _, _, _ => None
  end.

(** The [BACKSLASH] table of [json.decoder]. *)
Definition unescape (e : ascii) : option ascii :=
  if Ascii.eqb e quote_char then Some quote_char
  else if Ascii.eqb e backslash then Some backslash
  else if Ascii.eqb e "/" then Some "/"%char
  else if Ascii.eqb e "b" then Some "008"%char
  else if Ascii.eqb e "f" then Some "012"%char
  else if Ascii.eqb e "n" then Some "010"%char
  else if Ascii.eqb e "r" then Some "013"%char
  else if Ascii.eqb e "t" then Some "009"%char
  else None.

Definition push (c : ascii) (m : outcome (string * text)) : outcome (string * text) :=
  let* (str, r) := m in Return (String c str, r).

(** [scanstring], entered after the opening quote, in strict mode: a raw
    control character is an error.  An escape for a code point above 255
    (this includes the surrogate pairs) leaves the universe. *)
Fixpoint scanstring (s : text) : outcome (string * text) :=
  match s with
  | [] => Raise JSONDecodeError
  | c :: r =>
      if Ascii.eqb c quote_char then Return (EmptyString, r)
      else if Ascii.eqb c backslash then
        match r with
        | [] => Raise JSONDecodeError
        | e :: r1 =>
            if Ascii.eqb e "u" then
              match r1 with
              | h1 :: h2 :: h3 :: h4 :: r2 =>
                  match hex4 h1 h2 h3 h4 with
                  | Some n =>
                      if (n <? 256)%N then push (ascii_of_N n) (scanstring r2)
                      else Unmodelled
                  | None => Raise JSONDecodeError
                  end
              | _ => Raise JSONDecodeError
              end
            else
              match unescape e with
              | Some ch => push ch (scanstring r1)
              | None => Raise JSONDecodeError
              end
        end
      else if (N_of_ascii c <? 32)%N then Raise JSONDecodeError
      else push c (scanstring r)
  end.

Fixpoint take_digits (s : text) : text * text :=
  match s with
  | c :: r =>
      if is_digit c then let '(ds, r') := take_digits r in (c :: ds, r')
      else ([], s)
  | [] => ([], [])
  end.

Definition digit_cons (c : ascii) (d : Decimal.uint) : Decimal.uint :=
  match (N_of_ascii c - 48)%N with
  | 0 => D0 d | 1 => D1 d | 2 => D2 d | 3 => D3 d | 4 => D4 d
  | 5 => D5 d | 6 => D6 d | 7 => D7 d | 8 => D8 d | _ => D9 d
  end%N.

Definition digits_value (ds : text) : Z :=
  Z.of_N (N.of_uint (foldr digit_cons Nil ds)).

(** Does the text go on with the fraction (a dot and a digit) or the
    exponent (e or E, an optional sign, a digit) of [NUMBER_RE] *)
Definition float_tail (s : text) : bool :=
  match s with
  | c :: d :: r =>
      if Ascii.eqb c "." then is_digit d
      else if Ascii.eqb c "e" || Ascii.eqb c "E" then
        is_digit d ||
        ((Ascii.eqb d "+" || Ascii.eqb d "-") &&
         match r with d' :: _ => is_digit d' | [] => false end)
      else false
  | _ => false
  end.

Fixpoint starts_with (p s : text) : bool :=
  match p, s with
  | [], _ => true
  | a :: p', b :: s' => Ascii.eqb a b && starts_with p' s'
  | _ :: _, [] => false
  end.

(** [match_number] and what the scanner does with the match: the integer
    part is an optional minus sign, then either a single 0 or a non-zero
    digit followed by any digits; with a fraction or an exponent the
    result is a [float]. *)
Definition scan_number (s : text) : outcome (pyval * text) :=
  let '(neg, s1) :=
    match s with
    | c :: r => if Ascii.eqb c "-" then (true, r) else (false, s)
    | [] => (false, s)
    end in
  let finish (ds rest : text) : outcome (pyval * text) :=
    if float_tail rest then Unmodelled
    else Return (PInt (if neg then - digits_value ds else digits_value ds), rest) in
  match s1 with
  | d :: r =>
      if Ascii.eqb d "0" then finish [d] r
      else if is_digit d then
        let '(ds, r') := take_digits r in finish (d :: ds) r'
      else if starts_with (chars "NaN") s || starts_with (chars "Infinity") s
              || starts_with (chars "-Infinity") s then Unmodelled
      else Raise JSONDecodeError
  | [] => Raise JSONDecodeError
  end.

(** [dict(pairs)]: the last value of a repeated key wins. *)
Definition dict_of_pairs (pairs : dict) : dict :=
  fold_left (fun d p => dict_set (fst p) (snd p) d) pairs [].

(** The scanner.  [fuel] bounds the number of nested calls; running out
    of it is reported as [Unmodelled], and [json_loads] gives enough. *)
Fixpoint scan_once (fuel : nat) (s : text) {struct fuel} : outcome (pyval * text) :=
  match fuel with
  | O => Unmodelled
  | S fuel =>
      match s with
      | [] => Raise JSONDecodeError
      | c :: r =>
          if Ascii.eqb c quote_char then
            let* (str, r') := scanstring r in Return (PStr str, r')
          else if Ascii.eqb c "{" then
            (* JSONObject *)
            match skip_ws r with
            | c' :: r' =>
                if Ascii.eqb c' "}" then Return (PDict [], r')
                else if Ascii.eqb c' quote_char then
                  let* (pairs, r'') := parse_members fuel r' in
                  Return (PDict (dict_of_pairs pairs), r'')
                else Raise JSONDecodeError
            | [] => Raise JSONDecodeError
            end
          else if Ascii.eqb c "[" then
            (* JSONArray *)
            match skip_ws r with
            | c' :: r' =>
                if Ascii.eqb c' "]" then Return (PList [], r')
                else
                  let* (values, r'') := parse_elements fuel (c' :: r') in
                  Return (PList values, r'')
            | [] => Raise JSONDecodeError
            end
          else if starts_with (chars "null") s then Return (PNone, drop 4 s)
          else if starts_with (chars "true") s then Return (PBool true, drop 4 s)
          else if starts_with (chars "false") s then Return (PBool false, drop 5 s)
          else scan_number s
      end
  end

with parse_elements (fuel : nat) (s : text) {struct fuel}
    : outcome (list pyval * text) :=
  match fuel with
  | O => Unmodelled
  | S fuel =>
      let* (value, r) := scan_once fuel s in
      match skip_ws r with
      | c :: r' =>
          if Ascii.eqb c "]" then Return ([value], r')
          else if Ascii.eqb c "," then
            let* (values, r'') := parse_elements fuel (skip_ws r') in
            Return (value :: values, r'')
          else Raise JSONDecodeError
      | [] => Raise JSONDecodeError
      end
  end

with parse_members (fuel : nat) (s : text) {struct fuel}
    : outcome (dict * text) :=
  match fuel with
  | O => Unmodelled
  | S fuel =>
      let* (key, r) := scanstring s in
      match skip_ws r with
      | c :: r1 =>
          if Ascii.eqb c ":" then
            let* (value, r2) := scan_once fuel (skip_ws r1) in
            match skip_ws r2 with
            | c' :: r3 =>
                if Ascii.eqb c' "}" then Return ([(key, value)], r3)
                else if Ascii.eqb c' "," then
                  match skip_ws r3 with
                  | c'' :: r4 =>
                      if Ascii.eqb c'' quote_char then
                        let* (pairs, r5) := parse_members fuel r4 in
                        Return ((key, value) :: pairs, r5)
                      else Raise JSONDecodeError
                  | [] => Raise JSONDecodeError
                  end
                else Raise JSONDecodeError
            | [] => Raise JSONDecodeError
            end
          else Raise JSONDecodeError
      | [] => Raise JSONDecodeError
      end
  end.

(** [json.loads(s)]: leading white space, one value, trailing white
    space, end of text. *)
Definition json_loads (s : string) : outcome pyval :=
  let t := chars s in
  let* (v, r) := scan_once (2 * length t + 2) (skip_ws t) in
  match skip_ws r with
  | [] => Return v
  | _ :: _ => Raise JSONDecodeError
  end.

(* ================================================================== *)
(** ** Record normalizer *)

(** [_pick_first]: [record.get(key)] is [None] for an absent key, and
    the membership test against [None] and the empty string compares
    with [==]. *)
Fixpoint _pick_first (record : dict) (keys : list string) : pyval :=
  match keys with
  | [] => PNone
  | key :: keys' =>
      let value := dict_get_default key PNone record in
      if negb (py_eq value PNone || py_eq value (PStr EmptyString))
      then value
      else _pick_first record keys'
  end.

Definition key_fields : list string :=
  ["id"; "shortage_id"; "shortage_number"; "set_id"; "application_number";
   "product_ndc"].

Definition _record_key (record : dict) : string :=
  let candidate := _pick_first record key_fields in
  match candidate with
  | PNone => json_dumps None (PDict record)
  | _ => py_str candidate
  end.

Definition normalize_record (record : dict) : pyval :=
  PDict
    [("key", PStr (_record_key record));
     ("drug_name",
      _pick_first record
        ["drug_name"; "proprietary_name"; "generic_name"; "product_description"]);
     ("status",
      _pick_first record
        ["status"; "shortage_status"; "current_status"; "availability_status"]);
     ("reason",
      _pick_first record ["reason"; "reason_for_shortage"; "shortage_reason"]);
     ("last_updated",
      _pick_first record ["last_updated"; "revision_date"; "updated_at"; "created"]);
     ("raw", PDict record)].

(* ================================================================== *)
(** ** Snapshot builder *)

Abbreviation snapshot := (gmap string pyval).

(** [item["key"]], for the records [normalize_record] builds and for the
    entries of [changed]. *)
Definition normalized_key (normalized : pyval) : string :=
  match normalized with
  | PDict d =>
      match dict_get "key" d with
      | Some (PStr k) => k
      | _ => EmptyString
      end
  | _ => EmptyString
  end.

Definition build_snapshot (records : list dict) : snapshot :=
  fold_left
    (fun (snap : snapshot) record =>
       let normalized := normalize_record record in
       <[normalized_key normalized := normalized]> snap)
    records ∅.

(* ================================================================== *)
(** ** Differ *)

Record SnapshotDiff : Type := {
  added : list pyval;
  removed : list pyval;
  changed : list pyval
}.

(** [sorted(keys)] for a set of strings. *)
Definition sorted (keys : gset string) : list string :=
  merge_sort String.le (elements keys).

Definition changed_entry (key : string) (old_value new_value : pyval) : pyval :=
  PDict [("key", PStr key); ("before", old_value); ("after", new_value)].

Definition diff_snapshots (old_snapshot new_snapshot : snapshot) : SnapshotDiff :=
  let old_keys := dom old_snapshot in
  let new_keys := dom new_snapshot in
  {| added := (fun key => new_snapshot !!! key) <$> sorted (new_keys ∖ old_keys);
     removed := (fun key => old_snapshot !!! key) <$> sorted (old_keys ∖ new_keys);
     changed :=
       flat_map
         (fun key =>
            let old_value := old_snapshot !!! key in
            let new_value := new_snapshot !!! key in
            if negb (py_eq old_value new_value)
            then [changed_entry key old_value new_value]
            else [])
         (sorted (old_keys ∩ new_keys)) |}.

(* ================================================================== *)
(** ** Fetch client *)

(** What [urlopen(url).read().decode("utf-8")] comes to: an HTTP error
    status, a connection failure, or the text of the body. *)
Inductive reply : Type :=
| HTTPError (code : Z) (reason : string)
| URLError (reason : string)
| Body (body : string).

Fixpoint keep_dicts (results : list pyval) : list dict :=
  match results with
  | [] => []
  | PDict d :: rest => d :: keep_dicts rest
  | _ :: rest => keep_dicts rest
  end.

(** The part of [fetch_shortage_records] after [json.loads]:
    [payload.get] exists on a [dict] only. *)
Definition results_of_payload (payload : pyval) : outcome (list dict) :=
  match payload with
  | PDict d =>
      let results := dict_get_default "results" (PList []) d in
      match results with
      | PList items => Return (keep_dicts items)
      | _ => Raise (RuntimeError "Unexpected API response: 'results' is not a list")
      end
  | _ => Raise AttributeError
  end.

Definition fetch_shortage_records (r : reply) : outcome (list dict) :=
  match r with
  | HTTPError code reason =>
      Raise (RuntimeError
               ("openFDA HTTP error " +:+ string_of_list_ascii (int_repr code)
                +:+ ": " +:+ reason))
  | URLError reason => Raise (RuntimeError ("openFDA network error: " +:+ reason))
  | Body body =>
      let* payload := json_loads body in
      results_of_payload payload
  end.

(* ================================================================== *)
(** ** Snapshot store *)

(** The files: path to content.  Directories hold no content, so
    [path.parent.mkdir] leaves the map as it is. *)
Abbreviation files := (gmap string string).

(** An action reads and writes the files and ends in an outcome.  The
    files that come with [Unmodelled] are those of the point where the
    embedding stops; the run itself goes on, and nothing is stated about
    its files. *)
Definition action (A : Type) : Type := files -> outcome A * files.

Definition pure {A} (a : A) : action A := fun fs => (Return a, fs).

Definition lift {A} (o : outcome A) : action A := fun fs => (o, fs).

Definition and_then {A B} (m : action A) (k : A -> action B) : action B :=
  fun fs =>
    match m fs with
    | (Return a, fs') => k a fs'
    | (Raise e, fs') => (Raise e, fs')
    | (Unmodelled, fs') => (Unmodelled, fs')
    end.

Notation "'do*' p ':=' m 'in' k" := (and_then m (fun p => k))
  (at level 10, p pattern, m at level 100, k at level 200).

Definition snapshot_of_dict (d : dict) : snapshot := list_to_map d.

Definition dict_of_snapshot (snap : snapshot) : dict := map_to_list snap.

Definition load_snapshot (path : string) : action snapshot :=
  fun fs =>
    match fs !! path with
    | None => (Return ∅, fs)
    | Some stored =>
        (let* content := json_loads stored in
         match content with
         | PDict d => Return (snapshot_of_dict d)
         | _ => Raise (RuntimeError ("Snapshot file is invalid JSON object: " +:+ path))
         end, fs)
    end.

Definition save_snapshot (path : string) (snap : snapshot) : action unit :=
  fun fs =>
    (Return tt, <[path := json_dumps (Some 2%nat) (PDict (dict_of_snapshot snap))]> fs).

(* ================================================================== *)
(** ** The pipeline *)

Definition track_shortages (snapshot_path : string) (net : reply) (save : bool)
    : action (nat * SnapshotDiff) :=
  do* records := lift (fetch_shortage_records net) in
  let new_snapshot := build_snapshot records in
  do* old_snapshot := load_snapshot snapshot_path in
  let diff := diff_snapshots old_snapshot new_snapshot in
  do* _ := (if save then save_snapshot snapshot_path new_snapshot else pure tt) in
  pure (length records, diff).

(* ================================================================== *)
(** ** Query URL ([urlencode] and [build_query_url]) *)

(** [_ALWAYS_SAFE] of [urllib.parse]: letters, digits and [_.-~]. *)
Definition always_safe (c : ascii) : bool :=
  let n := N_of_ascii c in
  ((65 <=? n) && (n <=? 90) || (97 <=? n) && (n <=? 122) ||
   (48 <=? n) && (n <=? 57) ||
   (n =? 95) || (n =? 46) || (n =? 45) || (n =? 126))%N.

Definition hex_digit_upper (n : N) : ascii :=
  match n with
  | 0 => "0" | 1 => "1" | 2 => "2" | 3 => "3" | 4 => "4" | 5 => "5"
  | 6 => "6" | 7 => "7" | 8 => "8" | 9 => "9" | 10 => "A" | 11 => "B"
  | 12 => "C" | 13 => "D" | 14 => "E" | _ => "F"
  end%N%char.

(** The UTF-8 bytes of a code point below 256. *)
Definition utf8 (c : ascii) : list ascii :=
  let n := N_of_ascii c in
  if (n <? 128)%N then [c]
  else [ascii_of_N (N.lor 192 (N.shiftr n 6)); ascii_of_N (N.lor 128 (N.land n 63))].

(** [quote(s, safe)]: every byte that is neither always safe nor in
    [safe] becomes a percent sign and two upper-case hexadecimal digits. *)
Definition quote_byte (safe : text) (b : ascii) : text :=
  if always_safe b || existsb (Ascii.eqb b) safe then [b]
  else ["%"%char; hex_digit_upper (N_of_ascii b / 16);
        hex_digit_upper (N_of_ascii b mod 16)].

Definition quote (safe : text) (s : string) : text :=
  flat_map (quote_byte safe) (flat_map utf8 (chars s)).

(** [quote_plus(s, safe=empty)]: with a space in [s], the spaces are kept
    by [quote] and then replaced by plus signs. *)
Definition quote_plus (s : string) : text :=
  if existsb (Ascii.eqb " ") (chars s)
  then map (fun c => if Ascii.eqb c " " then "+"%char else c) (quote [" "%char] s)
  else quote [] s.

(** [urlencode(params)] for parameters whose values are already strings. *)
Definition urlencode (params : list (string * string)) : text :=
  join ["&"%char]
    (map (fun p => quote_plus (fst p) ++ "="%char :: quote_plus (snd p)) params).

Definition build_query_url (base_url : string) (search : option string)
    (limit skip : Z) : string :=
  let params :=
    [("limit", string_of_list_ascii (int_repr limit));
     ("skip", string_of_list_ascii (int_repr skip))]
    ++ match search with
       | Some (String c q) => [("search", String c q)]
       | _ => []
       end in
  base_url +:+ "?" +:+ string_of_list_ascii (urlencode params).

(** [fetch_shortage_records] with its arguments: the network answers
    the URL built from them. *)
Definition fetch_url (urlopen : string -> reply) (base_url : string)
    (search : option string) (limit skip : Z) : outcome (list dict) :=
  fetch_shortage_records (urlopen (build_query_url base_url search limit skip)).

(* ================================================================== *)
(** ** Report formatter *)

(** Truth value of a Python value, as [or] tests it. *)
Definition truthy (v : pyval) : bool :=
  match v with
  | PNone => false
  | PBool b => b
  | PInt n => negb (n =? 0)
  | PStr s => negb (String.eqb s EmptyString)
  | PList l => match l with [] => false | _ :: _ => true end
  | PDict d => match d with [] => false | _ :: _ => true end
  end.

(** [v or dflt] *)
Definition py_or (v dflt : pyval) : pyval := if truthy v then v else dflt.

(** The exceptions of the reporting layer: those of the tracker, the
    failed subscripts of [_format_changed] and [SystemExit] with its
    [code], a message in [main] and an exit status in [argparse]. *)
Inductive cli_exn : Type :=
| Tracker (e : exn)
| KeyError (key : string)
| TypeError
| SystemExit (code : pyval).

(** [for x in xs: lines.append(f(x))], stopping at the first exception. *)
Fixpoint each_line {A} (f : A -> cli_exn + string) (xs : list A)
    : cli_exn + list string :=
  match xs with
  | [] => inr []
  | x :: xs' =>
      match f x with
      | inl e => inl e
      | inr line =>
          match each_line f xs' with
          | inl e => inl e
          | inr lines => inr (line :: lines)
          end
      end
  end.

(** [items[:max_items]]; a negative bound counts from the end. *)
Definition slice_to {A} (max_items : Z) (items : list A) : list A :=
  if max_items <? 0
  then take (Z.to_nat (Z.of_nat (length items) + max_items)) items
  else take (Z.to_nat max_items) items.

Definition decimal (n : Z) : string := string_of_list_ascii (int_repr n).

(** [f"  ... and {len(items) - max_items} more"], when there are more
    items than [max_items]. *)
Definition elision {A} (max_items : Z) (items : list A) : list string :=
  if max_items <? Z.of_nat (length items)
  then ["  ... and " +:+ decimal (Z.of_nat (length items) - max_items) +:+ " more"]
  else [].

(** One line of [_format_preview]; [item.get] exists on a [dict] only. *)
Definition preview_line (item : pyval) : cli_exn + string :=
  match item with
  | PDict d =>
      let name := py_or (dict_get_default "drug_name" PNone d) (PStr "unknown") in
      let key := py_or (dict_get_default "key" PNone d) (PStr "unknown") in
      let status := py_or (dict_get_default "status" PNone d) (PStr "n/a") in
      inr ("  - " +:+ py_str name +:+ " [" +:+ py_str key +:+ "] status="
           +:+ py_str status)
  | _ => inl (Tracker AttributeError)
  end.

Definition _format_preview (items : list pyval) (label : string) (max_items : Z)
    : cli_exn + list string :=
  match each_line preview_line (slice_to max_items items) with
  | inl e => inl e
  | inr lines =>
      inr ((label +:+ ": " +:+ decimal (Z.of_nat (length items))) :: lines
           ++ elision max_items items)
  end.

(** [item[key]] for a string [key]: a [dict] without the key raises
    [KeyError], any other value [TypeError]. *)
Definition subscript (item : pyval) (key : string) : cli_exn + pyval :=
  match item with
  | PDict d =>
      match dict_get key d with
      | Some v => inr v
      | None => inl (KeyError key)
      end
  | _ => inl TypeError
  end.

(** One line of [_format_changed]. *)
Definition changed_line (item : pyval) : cli_exn + string :=
  match subscript item "before" with
  | inl e => inl e
  | inr before =>
      match subscript item "after" with
      | inl e => inl e
      | inr after =>
          match after, item, before with
          | PDict a, PDict i, PDict b =>
              inr ("  - "
                   +:+ py_str (py_or (dict_get_default "drug_name" PNone a)
                                 (PStr "unknown"))
                   +:+ " [" +:+ py_str (dict_get_default "key" PNone i) +:+ "] "
                   +:+ "status " +:+ py_str (dict_get_default "status" PNone b)
                   +:+ " -> " +:+ py_str (dict_get_default "status" PNone a))
          | _, _, _ => inl (Tracker AttributeError)
          end
      end
  end.

Definition _format_changed (changed_items : list pyval) (max_items : Z)
    : cli_exn + list string :=
  match each_line changed_line (slice_to max_items changed_items) with
  | inl e => inl e
  | inr lines =>
      inr (("Changed: " +:+ decimal (Z.of_nat (length changed_items))) :: lines
           ++ elision max_items changed_items)
  end.

(* ================================================================== *)
(** ** Command line *)

(** The [Namespace] that [parse_args] returns. *)
Record Namespace : Type := {
  arg_base_url : string;
  arg_search : option string;
  arg_limit : Z;
  arg_skip : Z;
  arg_snapshot : string;
  arg_no_save : bool
}.

(** What [parse_args()] comes to: [argparse] returns the [Namespace], with
    [--limit] and [--skip] converted by [int], or it prints its help or
    its usage message and raises [SystemExit] with its exit status (0
    after [--help], 2 for a command line it cannot parse). *)
Inductive parse_result : Type :=
| Parsed (args : Namespace)
| Exits (status : Z).

(** How [main] ends: it prints the lines, joined by newlines, and
    returns 0; or an exception leaves it; or the run left the universe
    of the embedding.  The files that come with [Beyond] are those of the
    point where the embedding stops: the run itself goes on, and nothing
    is stated about its files. *)
Inductive ending : Type :=
| Printed (output_lines : list string)
| Failed (e : cli_exn)
| Beyond.

(** [main], given what [parse_args()] comes to, the network and the ISO
    text of the clock at the time of the report.  The snapshot file is
    named by the text of [--snapshot]: what [Path] does to it (it drops a
    trailing or doubled slash) is left out, so one file has one name
    here. *)
Definition main (parse_args : parse_result) (urlopen : string -> reply)
    (now : string) (fs : files) : ending * files :=
  match parse_args with
  | Exits status => (Failed (SystemExit (PInt status)), fs)
  | Parsed args =>
      if arg_limit args <=? 0
      then (Failed (SystemExit (PStr "--limit must be > 0")), fs)
      else if arg_skip args <? 0
      then (Failed (SystemExit (PStr "--skip must be >= 0")), fs)
      else
        match track_shortages (arg_snapshot args)
                (urlopen (build_query_url (arg_base_url args) (arg_search args)
                            (arg_limit args) (arg_skip args)))
                (negb (arg_no_save args)) fs with
        | (Return (total, diff), fs') =>
            (match _format_preview (added diff) "Added" 5 with
             | inl e => Failed e
             | inr added_lines =>
                 match _format_preview (removed diff) "Removed" 5 with
                 | inl e => Failed e
                 | inr removed_lines =>
                     match _format_changed (changed diff) 5 with
                     | inl e => Failed e
                     | inr changed_lines =>
                         Printed
                           (["Timestamp (UTC): " +:+ now;
                             "Fetched records: " +:+ decimal (Z.of_nat total)]
                            ++ added_lines ++ removed_lines ++ changed_lines)
                     end
                 end
             end, fs')
        | (Raise e, fs') => (Failed (Tracker e), fs')
        | (Unmodelled, fs') => (Beyond, fs')
        end
  end.

(* ================================================================== *)
(** ** Vocabulary of the statements *)

(** The keys whose records make up [added] and [removed], in the order
    of the records. *)
Definition added_keys (old_snapshot new_snapshot : snapshot) : list string :=
  sorted (dom new_snapshot ∖ dom old_snapshot).

Definition removed_keys (old_snapshot new_snapshot : snapshot) : list string :=
  sorted (dom old_snapshot ∖ dom new_snapshot).

(** The keys the entries of [changed] carry, in the order of the entries. *)
Definition changed_keys (d : SnapshotDiff) : list string :=
  normalized_key <$> changed d.

(** Strictly ascending in the order of [sorted]. *)
Definition ascending (ks : list string) : Prop :=
  StronglySorted (strict String.le) ks.

(** Every value of the snapshot satisfies the representation invariant. *)
Definition snapshot_wf (snap : snapshot) : Prop :=
  map_Forall (fun _ v => wf v = true) snap.

#[global] Instance snapshot_wf_dec snap : Decision (snapshot_wf snap).
Proof. unfold snapshot_wf. apply _. Defined.

(** Every record of the snapshot is filed under its own [key] field, as
    [build_snapshot] files it. *)
Definition keyed (snap : snapshot) : Prop :=
  map_Forall (fun k v => normalized_key v = k) snap.

#[global] Instance keyed_dec snap : Decision (keyed snap).
Proof. unfold keyed. apply _. Defined.

(** The four classes of a key under [diff_snapshots old new].  The first
    three are read off the result: a key is added when the result lists
    the new record of the key in [added], at the place of the key among
    the added keys; it is removed when the result lists its old record in
    [removed], at the place of the key among the removed keys; it is
    changed when an entry of [changed] carries it.  The fourth class
    holds the common keys whose two records compare equal. *)
Definition is_added (old new : snapshot) (k : string) : Prop :=
  exists i r,
    added_keys old new !! i = Some k /\
    added (diff_snapshots old new) !! i = Some r /\
    new !! k = Some r.

Definition is_removed (old new : snapshot) (k : string) : Prop :=
  exists i r,
    removed_keys old new !! i = Some k /\
    removed (diff_snapshots old new) !! i = Some r /\
    old !! k = Some r.

Definition is_changed (old new : snapshot) (k : string) : Prop :=
  k ∈ changed_keys (diff_snapshots old new).

Definition is_unchanged (old new : snapshot) (k : string) : Prop :=
  exists a b, old !! k = Some a /\ new !! k = Some b /\ py_eq a b = true.

(** A candidate value counts when it is neither [None] nor the empty
    string; [0], [False], [[]] and [{}] all count. *)
Definition usable (v : pyval) : bool :=
  match v with
  | PNone => false
  | PStr EmptyString => false
  | _ => true
  end.

(** The first value that counts among the fields of [fields] present in
    the record, in the order of [fields]. *)
Definition first_usable (record : dict) (fields : list string) : option pyval :=
  head (List.filter usable (omap (fun f => dict_get f record) fields)).

(** The value with the keys of every dict inside it in ascending order:
    two values are the same JSON document exactly when their canonical
    forms are equal. *)
Fixpoint canon (v : pyval) : pyval :=
  match v with
  | PList l => PList (map canon l)
  | PDict d => PDict (sort_items (map (fun p => (fst p, canon (snd p))) d))
  | _ => v
  end.

(** Fuel that suffices to scan the encoding of a value. *)
Fixpoint weight (v : pyval) : nat :=
  match v with
  | PList l => S (sum_list_with (fun x => S (weight x)) l)
  | PDict d => S (sum_list_with (fun p => S (weight (snd p))) d)
  | _ => 1%nat
  end.

(** What may follow an encoded value: the end of the text, white space,
    a comma or a closing bracket. *)
Definition closes (rest : text) : bool :=
  match rest with
  | [] => true
  | c :: _ =>
      is_ws c || Ascii.eqb c "," || Ascii.eqb c "]" || Ascii.eqb c "}"
  end.

(** The characters an encoded value can start with. *)
Definition starts_value (c : ascii) : bool :=
  Ascii.eqb c quote_char || Ascii.eqb c "{" || Ascii.eqb c "[" ||
  Ascii.eqb c "n" || Ascii.eqb c "t" || Ascii.eqb c "f" ||
  Ascii.eqb c "-" || is_digit c.

(** Scanning the encoding of [v], whatever the layout and whatever
    follows, gives back the canonical form of [v] and what follows. *)
Definition reads_back (v : pyval) : Prop :=
  forall indent level rest fuel,
    closes rest = true -> (weight v <= fuel)%nat ->
    scan_once fuel (json_encode indent level v ++ rest) = Return (canon v, rest).

(** Python's [==] between two snapshots. *)
Definition snapshot_eq (s1 s2 : snapshot) : Prop :=
  dom s1 = dom s2 /\
  forall k a b, s1 !! k = Some a -> s2 !! k = Some b -> py_eq a b = true.

Definition results_not_a_list : exn :=
  RuntimeError "Unexpected API response: 'results' is not a list".

Definition invalid_snapshot (path : string) : exn :=
  RuntimeError ("Snapshot file is invalid JSON object: " +:+ path).

(** The diff that reports nothing. *)
Definition empty_diff : SnapshotDiff := {| added := []; removed := []; changed := [] |}.

(** A [changed] entry with [before] and [after] exchanged. *)
Definition turn_around (entry : pyval) : pyval :=
  match entry with
  | PDict [(k, key); (b, before); (a, after)] =>
      PDict [(k, key); (b, after); (a, before)]
  | _ => entry
  end.

(** Every value of the snapshot is a [dict]. *)
Definition all_objects (snap : snapshot) : Prop :=
  map_Forall (fun _ v => is_dict v = true) snap.

(** The text [save_snapshot] writes for a snapshot. *)
Definition saved_text (snap : snapshot) : string :=
  json_dumps (Some 2%nat) (PDict (dict_of_snapshot snap)).

(** What a line of the report shows for a display field: [str] of the
    value when there is one and it is true in Python's sense, and the
    placeholder otherwise. *)
Definition shown (placeholder : string) (value : option pyval) : string :=
  match value with
  | Some v => if truthy v then py_str v else placeholder
  | None => placeholder
  end.

(** The line of the report for a fetched record. *)
Definition record_line (record : dict) : string :=
  "  - "
  +:+ shown "unknown"
        (first_usable record
           ["drug_name"; "proprietary_name"; "generic_name"; "product_description"])
  +:+ " [" +:+ _record_key record +:+ "] status="
  +:+ shown "n/a"
        (first_usable record
           ["status"; "shortage_status"; "current_status"; "availability_status"]).

(** [quote_plus] writes a space as a plus sign. *)
Definition plus_for_space (c : ascii) : ascii :=
  if Ascii.eqb c " " then "+"%char else c.

(** One character as [quote_plus] writes it. *)
Definition quote_plus_char (c : ascii) : text :=
  map plus_for_space (flat_map (quote_byte [" "%char]) (utf8 c)).

(** The characters of an encoded component. *)
Definition component_char (c : ascii) : bool :=
  always_safe c || Ascii.eqb c "+" || Ascii.eqb c "%".

(** The characters of a whole query. *)
Definition query_char (c : ascii) : bool :=
  component_char c || Ascii.eqb c "=" || Ascii.eqb c "&".

(** The value of an upper-case hexadecimal digit. *)
Definition hex_value_upper (c : ascii) : N :=
  let n := N_of_ascii c in if (n <? 58)%N then (n - 48)%N else (n - 55)%N.

(** Reads back one character written by [quote_plus_char]. *)
Definition unquote_plus_char (t : text) : option (ascii * text) :=
  match t with
  | [] => None
  | c :: t1 =>
      if Ascii.eqb c "+" then Some (" "%char, t1)
      else if Ascii.eqb c "%" then
        match t1 with
        | h1 :: h2 :: t2 =>
            let b := (hex_value_upper h1 * 16 + hex_value_upper h2)%N in
            if (b <? 128)%N then Some (ascii_of_N b, t2)
            else
              match t2 with
              | _ :: h3 :: h4 :: t3 =>
                  let b' := (hex_value_upper h3 * 16 + hex_value_upper h4)%N in
                  Some (ascii_of_N ((b - 192) * 64 + (b' - 128)), t3)
              | _ => None
              end
        | _ => None
        end
      else Some (c, t1)
  end.

(** The search as the URL carries it: none for [None] and for the empty
    string. *)
Definition effective_search (search : option string) : option string :=
  match search with
  | Some (String c q) => Some (String c q)
  | _ => None
  end.

(** The query of [build_query_url], written out. *)
Definition query_text (search : option string) (limit skip : Z) : text :=
  chars "limit=" ++ int_repr limit ++ chars "&skip=" ++ int_repr skip
  ++ match effective_search search with
     | Some q => chars "&search=" ++ flat_map quote_plus_char (chars q)
     | None => []
     end.

(** The characters of a written integer. *)
Definition number_char (c : ascii) : bool := is_digit c || Ascii.eqb c "-".

(** The arguments [parse_args] returns for an empty command line. *)
Definition default_args : Namespace :=
  {| arg_base_url := "https://api.fda.gov/drug/shortages.json";
     arg_search := None;
     arg_limit := 100;
     arg_skip := 0;
     arg_snapshot := "data/shortage_snapshot.json";
     arg_no_save := false |}.

(** A server that answers every request with one record. *)
Definition one_record_server (url : string) : reply :=
  Body (json_dumps None
          (PDict [("meta", PDict [("results", PDict [("total", PInt 1)])]);
                  ("results",
                   PList [PDict [("generic_name", PStr "Amoxicillin");
                                 ("package_ndc", PStr "0093-4155-73");
                                 ("status", PStr "Current")]])])).

(* ================================================================== *)
(** * Properties *)

(** ** Sorting keys *)

Lemma elem_of_sorted (X : gset string) k : k ∈ sorted X <-> k ∈ X.
Proof.
  unfold sorted. rewrite merge_sort_Permutation. apply elem_of_elements.
Qed.

Lemma NoDup_sorted (X : gset string) : NoDup (sorted X).
Proof.
  unfold sorted. rewrite merge_sort_Permutation. apply NoDup_elements.
Qed.

Lemma StronglySorted_strict {A} (R : relation A) `{!AntiSymm (=) R} (l : list A) :
  StronglySorted R l -> NoDup l -> StronglySorted (strict R) l.
Proof.
  induction 1 as [|x l Hl IH Hx]; intros Hnd; constructor.
  - apply IH. by apply NoDup_cons in Hnd as [_ ?].
  - apply NoDup_cons in Hnd as [Hnotin _].
    rewrite Forall_forall in Hx |- *. intros y Hy. split; [by apply Hx|].
    intros Hyx. apply Hnotin.
    assert (x = y) as -> by (apply (anti_symm R); auto). done.
Qed.

Lemma ascending_sorted (X : gset string) : ascending (sorted X).
Proof.
  apply StronglySorted_strict; [apply _| |apply NoDup_sorted].
  unfold sorted. apply StronglySorted_merge_sort; apply _.
Qed.

Lemma ascending_filter (P : string -> Prop) `{forall x, Decision (P x)} ks :
  ascending ks -> ascending (filter P ks).
Proof.
  unfold ascending. induction 1 as [|x l Hl IH Hx]; [constructor|].
  rewrite filter_cons. destruct (decide (P x)); [|done].
  constructor; [done|].
  rewrite Forall_forall in Hx |- *. intros y [_ Hy]%list_elem_of_filter. auto.
Qed.

(** ** Differ *)

Lemma lookup_total_dom (m : snapshot) k : k ∈ dom m -> m !! k = Some (m !!! k).
Proof.
  intros [v Hv]%elem_of_dom. by rewrite (lookup_total_correct _ _ _ Hv).
Qed.

Lemma changed_keys_filter old new :
  changed_keys (diff_snapshots old new)
  = filter (fun k => py_eq (old !!! k) (new !!! k) = false)
      (sorted (dom old ∩ dom new)).
Proof.
  unfold changed_keys, diff_snapshots; simpl.
  induction (sorted (dom old ∩ dom new)) as [|k ks IH]; [done|].
  rewrite filter_cons. simpl. rewrite fmap_app, IH.
  by destruct (py_eq (old !!! k) (new !!! k)).
Qed.

Lemma elem_of_changed_keys old new k :
  k ∈ changed_keys (diff_snapshots old new) <->
  exists a b, old !! k = Some a /\ new !! k = Some b /\ py_eq a b = false.
Proof.
  rewrite changed_keys_filter, list_elem_of_filter, elem_of_sorted,
    elem_of_intersection.
  split.
  - intros (Hne & Ho & Hn). exists (old !!! k), (new !!! k).
    auto using lookup_total_dom.
  - intros (a & b & Ho & Hn & Hne).
    rewrite (lookup_total_correct _ _ _ Ho), (lookup_total_correct _ _ _ Hn).
    split; [done|]. split; apply elem_of_dom; eauto.
Qed.

(** ** Induction on values and the representation invariant *)

Section pyval_induction.
Variable P : pyval -> Prop.
Hypothesis HNone : P PNone.
Hypothesis HBool : forall b, P (PBool b).
Hypothesis HInt : forall n, P (PInt n).
Hypothesis HStr : forall s, P (PStr s).
Hypothesis HList : forall l, Forall P l -> P (PList l).
Hypothesis HDict : forall d : dict, Forall (fun p => P (snd p)) d -> P (PDict d).

Lemma pyval_nested_ind (v : pyval) : P v.
Proof.
  revert v. fix IH 1. intros [| b | n | s | l | d].
  - exact HNone.
  - apply HBool.
  - apply HInt.
  - apply HStr.
  - apply HList. induction l as [|x l IHl]; constructor; [apply IH|exact IHl].
  - apply HDict. induction d as [|[k x] d IHd]; constructor; [apply IH|exact IHd].
Qed.
End pyval_induction.

Lemma existsb_eqb_elem (k : string) ks : existsb (String.eqb k) ks = true <-> k ∈ ks.
Proof.
  rewrite existsb_exists. split.
  - intros (x & Hx & ->%String.eqb_eq). by apply list_elem_of_In.
  - intros Hk. exists k. split; [by apply list_elem_of_In|apply String.eqb_refl].
Qed.

Lemma distinct_NoDup ks : distinct ks = true <-> NoDup ks.
Proof.
  induction ks as [|k ks IH]; simpl.
  - split; [constructor|done].
  - rewrite andb_true_iff, negb_true_iff, NoDup_cons, IH.
    rewrite <- not_true_iff_false, existsb_eqb_elem. done.
Qed.

Lemma dict_get_elem k v (d : dict) :
  NoDup (map fst d) -> (k, v) ∈ d -> dict_get k d = Some v.
Proof.
  induction d as [|[k' v'] d IH]; simpl; intros Hnd Hin.
  - by apply elem_of_nil in Hin.
  - apply NoDup_cons in Hnd as [Hnotin Hnd].
    apply elem_of_cons in Hin as [[= <- <-]|Hin].
    + by rewrite String.eqb_refl.
    + destruct (String.eqb_spec k' k) as [->|Hne]; [|by apply IH].
      destruct Hnotin. change k with (fst (k, v)).
      by apply (list_elem_of_fmap_2 fst).
Qed.

(** ** Python's [==] *)

Lemma py_eq_refl v : wf v = true -> py_eq v v = true.
Proof.
  induction v as [| b | n | s | l IH | d IH] using pyval_nested_ind;
    simpl; intros Hwf; auto using Bool.eqb_reflx, Z.eqb_refl, String.eqb_refl.
  - induction IH as [|x l Hx _ IHl]; simpl in *; [done|].
    apply andb_true_iff in Hwf as [??]. rewrite Hx, IHl; auto.
  - apply andb_true_iff in Hwf as [Hd Hwf]. apply distinct_NoDup in Hd.
    rewrite Nat.eqb_refl; simpl. apply forallb_forall. intros [k v] Hin.
    apply list_elem_of_In in Hin. simpl.
    rewrite (dict_get_elem k v d Hd Hin).
    rewrite Forall_forall in IH. apply (IH (k, v) Hin).
    rewrite forallb_forall in Hwf. apply (Hwf (k, v)). by apply list_elem_of_In.
Qed.

(** ** Differ: the three sequences *)

Lemma elem_of_added_keys old new k :
  k ∈ added_keys old new <-> k ∈ dom new /\ k ∉ dom old.
Proof. unfold added_keys. by rewrite elem_of_sorted, elem_of_difference. Qed.

Lemma elem_of_removed_keys old new k :
  k ∈ removed_keys old new <-> k ∈ dom old /\ k ∉ dom new.
Proof. unfold removed_keys. by rewrite elem_of_sorted, elem_of_difference. Qed.

Lemma records_at_keys (m : snapshot) (X : gset string) :
  X ⊆ dom m ->
  Forall2 (fun k r => m !! k = Some r) (sorted X) ((fun k => m !!! k) <$> sorted X).
Proof.
  intros HX. apply Forall2_fmap_r, Forall_Forall2_diag, Forall_forall.
  intros k Hk%elem_of_sorted. apply lookup_total_dom. auto.
Qed.

Lemma changed_entries old new e :
  e ∈ changed (diff_snapshots old new) ->
  exists k a b,
    old !! k = Some a /\ new !! k = Some b /\ e = changed_entry k a b.
Proof.
  unfold diff_snapshots; simpl. rewrite list_elem_of_In, in_flat_map.
  intros (k & Hk & He). apply list_elem_of_In, elem_of_sorted in Hk.
  apply elem_of_intersection in Hk as [Ho Hn].
  destruct (py_eq (old !!! k) (new !!! k)); simpl in He; [done|].
  destruct He as [<-|[]].
  exists k, (old !!! k), (new !!! k). auto using lookup_total_dom.
Qed.

(** C1 (as amended).  [added] holds the records of the new snapshot at
    the keys of [new] that [old] lacks, [removed] the records of the old
    snapshot at the keys of [old] that [new] lacks, both in strictly
    ascending key order; [changed] holds one [{key, before, after}] entry,
    in strictly ascending key order, for exactly the common keys whose
    old and new records are unequal under Python's [==], the deep
    comparison of the whole record, raw payload included, that reads
    [True] as [1] and [False] as [0]. *)
Theorem diff_snapshots_sequences old new :
  let d := diff_snapshots old new in
  (ascending (added_keys old new) /\
   (forall k, k ∈ added_keys old new <-> k ∈ dom new /\ k ∉ dom old) /\
   Forall2 (fun k r => new !! k = Some r) (added_keys old new) (added d)) /\
  (ascending (removed_keys old new) /\
   (forall k, k ∈ removed_keys old new <-> k ∈ dom old /\ k ∉ dom new) /\
   Forall2 (fun k r => old !! k = Some r) (removed_keys old new) (removed d)) /\
  (ascending (changed_keys d) /\
   (forall k, k ∈ changed_keys d <->
      exists a b, old !! k = Some a /\ new !! k = Some b /\ py_eq a b = false) /\
   Forall2
     (fun k e => exists a b,
        old !! k = Some a /\ new !! k = Some b /\ e = changed_entry k a b)
     (changed_keys d) (changed d)).
Proof.
  intros d. split_and!.
  - apply ascending_sorted.
  - apply elem_of_added_keys.
  - apply records_at_keys. by intros k [? _]%elem_of_difference.
  - apply ascending_sorted.
  - apply elem_of_removed_keys.
  - apply records_at_keys. by intros k [? _]%elem_of_difference.
  - unfold d. rewrite changed_keys_filter.
    apply ascending_filter, ascending_sorted.
  - apply elem_of_changed_keys.
  - unfold changed_keys. apply Forall2_fmap_l, Forall_Forall2_diag, Forall_forall.
    intros e (k & a & b & Ho & Hn & ->)%changed_entries. simpl. eauto.
Qed.

(** C1, as stated, fails: a record whose raw payload goes from the JSON
    number [1] to the JSON literal [true] is a different record, yet the
    two compare equal under [==] and no [changed] entry is emitted. *)
Lemma diff_snapshots_number_vs_literal :
  let before := normalize_record [("id", PStr "1"); ("discontinued", PInt 1)] in
  let after := normalize_record [("id", PStr "1"); ("discontinued", PBool true)] in
  let old := build_snapshot [[("id", PStr "1"); ("discontinued", PInt 1)]] in
  let new := build_snapshot [[("id", PStr "1"); ("discontinued", PBool true)]] in
  old !! "1" = Some before /\ new !! "1" = Some after /\
  before <> after /\
  changed (diff_snapshots old new) = [].
Proof.
  split_and!; try (vm_compute; reflexivity). discriminate.
Qed.

Lemma is_added_iff old new k :
  is_added old new k <-> k ∈ dom new /\ k ∉ dom old.
Proof.
  rewrite <- elem_of_added_keys. unfold is_added. split.
  - intros (i & r & Hi & _ & _). by apply list_elem_of_lookup_2 in Hi.
  - intros Hk. pose proof Hk as [Hn _]%elem_of_added_keys.
    apply list_elem_of_lookup_1 in Hk as [i Hi].
    exists i, (new !!! k). split_and!; [done| |by apply lookup_total_dom].
    unfold diff_snapshots; cbn [added]. fold (added_keys old new).
    by rewrite list_lookup_fmap, Hi.
Qed.

Lemma is_removed_iff old new k :
  is_removed old new k <-> k ∈ dom old /\ k ∉ dom new.
Proof.
  rewrite <- elem_of_removed_keys. unfold is_removed. split.
  - intros (i & r & Hi & _ & _). by apply list_elem_of_lookup_2 in Hi.
  - intros Hk. pose proof Hk as [Ho _]%elem_of_removed_keys.
    apply list_elem_of_lookup_1 in Hk as [i Hi].
    exists i, (old !!! k). split_and!; [done| |by apply lookup_total_dom].
    unfold diff_snapshots; cbn [removed]. fold (removed_keys old new).
    by rewrite list_lookup_fmap, Hi.
Qed.

Lemma keys_of_records (m : snapshot) (ks : list string) :
  keyed m -> Forall (fun k => k ∈ dom m) ks ->
  normalized_key <$> ((fun k => m !!! k) <$> ks) = ks.
Proof.
  intros Hm. induction 1 as [|k ks Hk _ IH]; [done|].
  rewrite !fmap_cons, IH. f_equal.
  apply (Hm k), lookup_total_dom, Hk.
Qed.

(** C5.  Under [diff_snapshots old new] every key of either snapshot is
    in exactly one of the four classes added, removed, changed and
    unchanged, the classes hold no other key, and no key shows up twice
    in a sequence.  The classes are those of the result: [added] holds,
    key by key and in this order, the new records of the added keys and
    nothing else, [removed] the old records of the removed keys, and
    each entry of [changed] carries its key; when the records of a
    snapshot are filed under their own [key] field, as [build_snapshot]
    files them, the added and the removed keys are the [key] fields of
    the records of [added] and [removed]. *)
Theorem diff_snapshots_partition old new :
  let d := diff_snapshots old new in
  (forall k,
     k ∈ dom old ∪ dom new <->
     is_added old new k \/ is_removed old new k \/
     is_changed old new k \/ is_unchanged old new k) /\
  (forall k,
     ~ (is_added old new k /\ is_removed old new k) /\
     ~ (is_added old new k /\ is_changed old new k) /\
     ~ (is_added old new k /\ is_unchanged old new k) /\
     ~ (is_removed old new k /\ is_changed old new k) /\
     ~ (is_removed old new k /\ is_unchanged old new k) /\
     ~ (is_changed old new k /\ is_unchanged old new k)) /\
  NoDup (added_keys old new) /\ NoDup (removed_keys old new) /\
  NoDup (changed_keys d) /\
  length (added d) = length (added_keys old new) /\
  length (removed d) = length (removed_keys old new) /\
  Forall2 (fun k r => new !! k = Some r) (added_keys old new) (added d) /\
  Forall2 (fun k r => old !! k = Some r) (removed_keys old new) (removed d) /\
  Forall2
    (fun k e => exists a b,
       old !! k = Some a /\ new !! k = Some b /\ e = changed_entry k a b)
    (changed_keys d) (changed d) /\
  (keyed new -> normalized_key <$> added d = added_keys old new) /\
  (keyed old -> normalized_key <$> removed d = removed_keys old new).
Proof.
  intros d.
  assert (Hcls : forall k,
    (is_added old new k <-> k ∈ dom new /\ k ∉ dom old) /\
    (is_removed old new k <-> k ∈ dom old /\ k ∉ dom new) /\
    (is_changed old new k <->
       exists a b, old !! k = Some a /\ new !! k = Some b /\ py_eq a b = false)).
  { intros k. unfold is_changed.
    rewrite is_added_iff, is_removed_iff, elem_of_changed_keys. done. }
  split; [|split].
  - intros k. destruct (Hcls k) as (-> & -> & ->). unfold is_unchanged.
    rewrite elem_of_union, !elem_of_dom. split.
    + destruct (old !! k) as [a|] eqn:Ho, (new !! k) as [b|] eqn:Hn.
      * intros _. destruct (py_eq a b) eqn:E; eauto 10.
      * intros _. right; left. split; [eauto|]. by intros [? ?].
      * intros _. left. split; [eauto|]. by intros [? ?].
      * intros [[? ?]|[? ?]]; done.
    + intros [[? _]|[[? _]|[(a & b & ? & ? & _)|(a & b & ? & ? & _)]]]; eauto.
  - intros k. destruct (Hcls k) as (-> & -> & ->). unfold is_unchanged.
    rewrite !elem_of_dom. split_and!.
    + intros [[_ ?] [? _]]; done.
    + intros [[_ Hno] (a & b & Ho & _)]. apply Hno. eauto.
    + intros [[_ Hno] (a & b & Ho & _)]. apply Hno. eauto.
    + intros [[_ Hno] (a & b & _ & Hn & _)]. apply Hno. eauto.
    + intros [[_ Hno] (a & b & _ & Hn & _)]. apply Hno. eauto.
    + intros [(a & b & Ho & Hn & E) (a' & b' & Ho' & Hn' & E')]. congruence.
  - split_and!.
    + apply NoDup_sorted.
    + apply NoDup_sorted.
    + unfold d. rewrite changed_keys_filter. apply NoDup_filter, NoDup_sorted.
    + unfold d, diff_snapshots, added_keys; simpl. by rewrite length_fmap.
    + unfold d, diff_snapshots, removed_keys; simpl. by rewrite length_fmap.
    + apply records_at_keys. by intros k [? _]%elem_of_difference.
    + apply records_at_keys. by intros k [? _]%elem_of_difference.
    + unfold changed_keys. apply Forall2_fmap_l, Forall_Forall2_diag, Forall_forall.
      intros e (k & a & b & Ho & Hn & ->)%changed_entries. simpl. eauto.
    + intros Hkeyed. unfold d, diff_snapshots, added_keys; cbn [added].
      apply keys_of_records; [done|]. apply Forall_forall.
      by intros k [? _]%elem_of_sorted%elem_of_difference.
    + intros Hkeyed. unfold d, diff_snapshots, removed_keys; cbn [removed].
      apply keys_of_records; [done|]. apply Forall_forall.
      by intros k [? _]%elem_of_sorted%elem_of_difference.
Qed.

Lemma diff_snapshots_partition_witness :
  let old := build_snapshot [[("id", PStr "1"); ("status", PStr "Current")];
                             [("id", PStr "2"); ("status", PStr "Current")]] in
  let new := build_snapshot [[("id", PStr "1"); ("status", PStr "Resolved")];
                             [("id", PStr "3"); ("status", PStr "Current")]] in
  let d := diff_snapshots old new in
  keyed old /\ keyed new /\
  normalized_key <$> added d = added_keys old new /\
  normalized_key <$> removed d = removed_keys old new /\
  normalized_key <$> added d = ["3"] /\
  normalized_key <$> removed d = ["2"] /\
  changed_keys d = ["1"].
Proof.
  intros old new d.
  assert (Ho : keyed old) by (apply (bool_decide_unpack _); vm_compute; exact I).
  assert (Hn : keyed new) by (apply (bool_decide_unpack _); vm_compute; exact I).
  destruct (diff_snapshots_partition old new)
    as (_ & _ & _ & _ & _ & _ & _ & _ & _ & _ & Ha & Hr).
  split_and!; [exact Ho|exact Hn|exact (Ha Hn)|exact (Hr Ho)| | |];
    vm_compute; reflexivity.
Defined.

Lemma flat_map_nil {A B} (f : A -> list B) l :
  (forall x, x ∈ l -> f x = []) -> flat_map f l = [].
Proof.
  induction l as [|x l IH]; simpl; [done|]. intros H.
  rewrite (H x) by left. apply IH. intros y Hy. apply H. by right.
Qed.

(** C6.  A snapshot compared to itself has nothing added, nothing
    removed and nothing changed. *)
Theorem diff_snapshots_same (S : snapshot) :
  snapshot_wf S ->
  diff_snapshots S S = {| added := []; removed := []; changed := [] |}.
Proof.
  intros Hwf. unfold diff_snapshots.
  rewrite difference_diag_L. unfold sorted at 1 2. rewrite elements_empty. simpl.
  f_equal. apply flat_map_nil. intros k Hk%elem_of_sorted.
  apply elem_of_intersection in Hk as [Hk _]. apply lookup_total_dom in Hk.
  rewrite py_eq_refl; [done|]. by apply (Hwf k).
Qed.

Lemma diff_snapshots_same_witness :
  let S := build_snapshot
             [[("id", PStr "1"); ("status", PStr "Current")];
              [("set_id", PInt 7); ("raw", PList [PDict [("a", PNone)]])]] in
  snapshot_wf S /\
  diff_snapshots S S = {| added := []; removed := []; changed := [] |}.
Proof.
  assert (Hwf : snapshot_wf
    (build_snapshot
       [[("id", PStr "1"); ("status", PStr "Current")];
        [("set_id", PInt 7); ("raw", PList [PDict [("a", PNone)]])]])).
  { apply (bool_decide_unpack _). vm_compute. exact I. }
  split; [exact Hwf|]. apply (diff_snapshots_same _ Hwf).
Defined.

(** ** Snapshot builder *)

Lemma build_snapshot_fold records (acc : snapshot) k :
  fold_left
    (fun (snap : snapshot) record =>
       let normalized := normalize_record record in
       <[normalized_key normalized := normalized]> snap)
    records acc !! k
  = match last (filter (fun r => _record_key r = k) records) with
    | Some r => Some (normalize_record r)
    | None => acc !! k
    end.
Proof.
  revert acc. induction records as [|r rs IH]; intros acc; simpl; [done|].
  rewrite IH, filter_cons.
  destruct (decide (_record_key r = k)) as [<-|Hne].
  - rewrite lookup_insert_eq.
    destruct (filter _ rs) as [|r' rs'] eqn:E; simpl; [done|].
    destruct (last (r' :: rs')) eqn:EL; [done|]. by apply last_None in EL.
  - by rewrite lookup_insert_ne.
Qed.

(** C4.  The snapshot maps a key to the normalized form of the last
    input record that normalizes to that key, and to nothing when no
    input record does; the builder is total. *)
Theorem build_snapshot_last_wins records k :
  build_snapshot records !! k
  = normalize_record <$> last (filter (fun r => _record_key r = k) records).
Proof.
  unfold build_snapshot. rewrite build_snapshot_fold, lookup_empty.
  by destruct (last _).
Qed.

(** The two tests of [test/test_openfda_shortage_tracker.py]. *)

Example test_normalize_record_uses_fallback_keys :
  let record :=
    [("shortage_id", PStr "S-100"); ("generic_name", PStr "Example Drug");
     ("shortage_status", PStr "Current");
     ("reason_for_shortage", PStr "Manufacturing delay")] in
  normalize_record record
  = PDict [("key", PStr "S-100"); ("drug_name", PStr "Example Drug");
           ("status", PStr "Current"); ("reason", PStr "Manufacturing delay");
           ("last_updated", PNone); ("raw", PDict record)].
Proof. reflexivity. Qed.

Example test_diff_snapshots_detects_added_removed_changed :
  let old1 := [("id", PStr "1"); ("drug_name", PStr "Drug A"); ("status", PStr "Current")] in
  let old2 := [("id", PStr "2"); ("drug_name", PStr "Drug B"); ("status", PStr "Current")] in
  let new1 := [("id", PStr "1"); ("drug_name", PStr "Drug A"); ("status", PStr "Resolved")] in
  let new3 := [("id", PStr "3"); ("drug_name", PStr "Drug C"); ("status", PStr "Current")] in
  diff_snapshots (build_snapshot [old1; old2]) (build_snapshot [new1; new3])
  = {| added := [normalize_record new3];
       removed := [normalize_record old2];
       changed :=
         [changed_entry "1" (normalize_record old1) (normalize_record new1)] |}.
Proof. vm_compute. reflexivity. Qed.

(** ** Record normalizer *)

Lemma not_in_none_empty v :
  negb (py_eq v PNone || py_eq v (PStr EmptyString)) = usable v.
Proof. destruct v as [| | |[|]| |]; reflexivity. Qed.

Lemma pick_first_first_usable record fields :
  _pick_first record fields = default PNone (first_usable record fields).
Proof.
  unfold first_usable, dict_get_default.
  induction fields as [|f fields IH]; simpl; [done|].
  unfold dict_get_default. rewrite not_in_none_empty.
  destruct (dict_get f record) as [v|]; simpl; [|done].
  by destruct (usable v).
Qed.

Lemma first_usable_usable record fields v :
  first_usable record fields = Some v -> usable v = true.
Proof.
  unfold first_usable. intros Hv.
  assert (Hin : In v (List.filter usable (omap (fun f => dict_get f record) fields))).
  { destruct (List.filter _ _) as [|x l]; simplify_eq/=. by left. }
  by apply filter_In in Hin as [_ ?].
Qed.

Lemma record_key_first_usable record :
  _record_key record
  = match first_usable record key_fields with
    | Some v => py_str v
    | None => json_dumps None (PDict record)
    end.
Proof.
  unfold _record_key. rewrite pick_first_first_usable.
  destruct (first_usable record key_fields) as [v|] eqn:E; simpl; [|done].
  apply first_usable_usable in E. by destruct v.
Qed.

Lemma uint_chars_nil d : uint_chars d = [] -> d = Nil.
Proof. by destruct d. Qed.

Lemma int_repr_nonempty n : int_repr n <> [].
Proof.
  destruct n as [|p|p]; simpl; [done| |done].
  intros H%uint_chars_nil. by apply (Unsigned.to_uint_nonnil p).
Qed.

Lemma string_of_list_ascii_nonempty (t : text) :
  t <> [] -> string_of_list_ascii t <> EmptyString.
Proof. by destruct t. Qed.

Lemma py_str_nonempty v : usable v = true -> py_str v <> EmptyString.
Proof.
  destruct v as [| | |[|]| |]; simpl; try done; intros _;
    apply string_of_list_ascii_nonempty;
    first [apply int_repr_nonempty | by destruct b | done].
Qed.

Lemma json_dumps_dict_nonempty indent d : json_dumps indent (PDict d) <> EmptyString.
Proof.
  unfold json_dumps. apply string_of_list_ascii_nonempty. simpl. unfold enclose.
  destruct (map encode_member _); [done|]. by destruct indent.
Qed.

Lemma record_key_nonempty record : _record_key record <> EmptyString.
Proof.
  rewrite record_key_first_usable.
  destruct (first_usable record key_fields) as [v|] eqn:E.
  - by apply py_str_nonempty, (first_usable_usable record key_fields).
  - apply json_dumps_dict_nonempty.
Qed.

(** C10.  The key is [str] of the first candidate value that is neither
    [None] nor the empty string; [0] and [False] are such values; the
    number [1] and the string ["1"] give the same key ["1"], and two
    records with one key build a snapshot of one entry, the later
    record's. *)
Theorem record_key_coerces_first_usable :
  (forall record v,
     first_usable record key_fields = Some v -> _record_key record = py_str v) /\
  (forall v, usable v = true <-> v <> PNone /\ v <> PStr EmptyString) /\
  _record_key [("id", PInt 0)] = "0" /\
  _record_key [("id", PBool false)] = "False" /\
  _record_key [("id", PInt 1)] = "1" /\
  _record_key [("id", PStr "1")] = "1" /\
  (forall r1 r2,
     _record_key r1 = _record_key r2 ->
     build_snapshot [r1; r2] = {[ _record_key r2 := normalize_record r2 ]}).
Proof.
  split_and!; try reflexivity.
  - intros record v Hv. by rewrite record_key_first_usable, Hv.
  - intros v. split.
    + intros Hu. split; intros ->; done.
    + intros [H1 H2]. by destruct v as [| | |[|]| |].
  - intros r1 r2 Hk. unfold build_snapshot; simpl.
    rewrite Hk. apply insert_insert_eq.
Qed.

Lemma record_key_coerces_first_usable_witness :
  first_usable [("id", PStr EmptyString); ("set_id", PInt 0)] key_fields = Some (PInt 0) /\
  _record_key [("id", PStr EmptyString); ("set_id", PInt 0)] = py_str (PInt 0) /\
  _record_key [("id", PInt 1)] = _record_key [("id", PStr "1")] /\
  build_snapshot [[("id", PInt 1)]; [("id", PStr "1")]]
  = {[ _record_key [("id", PStr "1")] := normalize_record [("id", PStr "1")] ]}.
Proof.
  split; [reflexivity|]. split; [|split; [reflexivity|]].
  - apply (proj1 record_key_coerces_first_usable
             [("id", PStr EmptyString); ("set_id", PInt 0)] (PInt 0)).
    reflexivity.
  - apply (proj2 (proj2 (proj2 (proj2 (proj2 (proj2
             record_key_coerces_first_usable)))))
             [("id", PInt 1)] [("id", PStr "1")]).
    reflexivity.
Defined.

(** ** Sorting items by key *)

#[global] Instance key_le_trans {A} : Transitive (@key_le A).
Proof. intros a b c. unfold key_le. apply transitivity. Qed.

#[global] Instance key_le_total {A} : Total (@key_le A).
Proof. intros a b. unfold key_le. apply String.le_total. Qed.

Lemma sort_items_Permutation {A} (l : list (string * A)) : sort_items l ≡ₚ l.
Proof. apply merge_sort_Permutation. Qed.

Lemma sort_items_sorted {A} (l : list (string * A)) :
  StronglySorted key_le (sort_items l).
Proof. apply StronglySorted_merge_sort; apply _. Qed.

Lemma NoDup_fst_agree {A} (l : list (string * A)) x y :
  NoDup (map fst l) -> x ∈ l -> y ∈ l -> fst x = fst y -> x = y.
Proof.
  induction l as [|z l IH]; simpl; intros Hnd Hx Hy Hxy.
  - by apply elem_of_nil in Hx.
  - apply NoDup_cons in Hnd as [Hz Hnd].
    apply elem_of_cons in Hx as [->|Hx]; apply elem_of_cons in Hy as [->|Hy];
      [done| | |by apply IH].
    + destruct Hz. rewrite Hxy. by apply (list_elem_of_fmap_2 fst).
    + destruct Hz. rewrite <- Hxy. by apply (list_elem_of_fmap_2 fst).
Qed.

(** Items with pairwise distinct keys have one sorted arrangement. *)
Lemma sorted_items_unique {A} (l1 l2 : list (string * A)) :
  NoDup (map fst l1) -> l1 ≡ₚ l2 ->
  StronglySorted key_le l1 -> StronglySorted key_le l2 -> l1 = l2.
Proof.
  intros Hnd Hp H1 H2.
  apply (StronglySorted_unique_strong key_le); [|done..].
  intros x1 x2 Hx1 Hx2 H12 H21.
  apply (NoDup_fst_agree l1); [done|done|by rewrite Hp|].
  apply (anti_symm String.le); done.
Qed.

Lemma sort_items_perm {A} (l1 l2 : list (string * A)) :
  NoDup (map fst l1) -> l1 ≡ₚ l2 -> sort_items l1 = sort_items l2.
Proof.
  intros Hnd Hp. apply sorted_items_unique; auto using sort_items_sorted.
  - by rewrite (Permutation_map fst (sort_items_Permutation l1)).
  - by rewrite !sort_items_Permutation.
Qed.

Lemma map_fst_relabel {A B} (f : A -> B) (l : list (string * A)) :
  map fst (map (fun p => (fst p, f (snd p))) l) = map fst l.
Proof. rewrite map_map. by apply map_ext. Qed.

Lemma wf_dict d :
  wf (PDict d) = true <->
  NoDup (map fst d) /\ Forall (fun p => wf (snd p) = true) d.
Proof.
  simpl. rewrite andb_true_iff, distinct_NoDup, forallb_forall, Forall_forall.
  split; intros [? H]; split; auto; intros x Hx; apply H;
    by apply list_elem_of_In.
Qed.

Lemma wf_list l : wf (PList l) = true <-> Forall (fun x => wf x = true) l.
Proof.
  simpl. rewrite forallb_forall, Forall_forall.
  split; intros H x Hx; apply H; by apply list_elem_of_In.
Qed.

(** ** Canonical form and the encoder *)

Lemma json_encode_canon indent v :
  wf v = true ->
  forall level, json_encode indent level (canon v) = json_encode indent level v.
Proof.
  induction v as [| b | n | s | l IH | d IH] using pyval_nested_ind;
    intros Hwf level; try reflexivity.
  - apply wf_list in Hwf. simpl. f_equal. rewrite map_map.
    apply map_ext_Forall. rewrite Forall_forall in IH, Hwf |- *.
    intros x Hx. apply IH; auto.
  - apply wf_dict in Hwf as [Hnd Hwf]. simpl. do 2 f_equal.
    apply sort_items_perm.
    + rewrite map_fst_relabel.
      rewrite (Permutation_map fst (sort_items_Permutation _)).
      by rewrite map_fst_relabel.
    + rewrite (Permutation_map _ (sort_items_Permutation _)), map_map. simpl.
      erewrite map_ext_Forall; [reflexivity|].
      rewrite Forall_forall in IH, Hwf |- *.
      intros x Hx. simpl. f_equal. apply IH; auto.
Qed.

Lemma same_document_same_text indent (d1 d2 : dict) :
  wf (PDict d1) = true -> wf (PDict d2) = true ->
  canon (PDict d1) = canon (PDict d2) ->
  json_dumps indent (PDict d1) = json_dumps indent (PDict d2).
Proof.
  intros H1 H2 Hc. unfold json_dumps.
  rewrite <- (json_encode_canon indent (PDict d1) H1 0%nat).
  rewrite <- (json_encode_canon indent (PDict d2) H2 0%nat).
  by rewrite Hc.
Qed.



(** ** Fetch client *)

Lemma fetch_failure_leaves_files path net save fs e :
  fetch_shortage_records net = Raise e ->
  track_shortages path net save fs = (Raise e, fs).
Proof. intros H. unfold track_shortages, and_then, lift. by rewrite H. Qed.

(** C3 (as amended).  For a body that parses as a JSON object, the fetch
    fails with the "results is not a list" error whenever the object has
    a [results] field that is not a list, and the run then ends with
    that error and the files as they were; an object without a
    [results] field is read as having no records and the fetch
    succeeds. *)
Theorem fetch_checks_results body d :
  json_loads body = Return (PDict d) ->
  (forall v,
     dict_get "results" d = Some v -> is_list v = false ->
     fetch_shortage_records (Body body) = Raise results_not_a_list /\
     forall path save fs,
       track_shortages path (Body body) save fs = (Raise results_not_a_list, fs)) /\
  (dict_get "results" d = None -> fetch_shortage_records (Body body) = Return []).
Proof.
  intros Hbody. split.
  - intros v Hv Hlist.
    assert (Hf : fetch_shortage_records (Body body) = Raise results_not_a_list).
    { unfold fetch_shortage_records. rewrite Hbody. simpl.
      unfold dict_get_default. rewrite Hv. by destruct v. }
    split; [done|]. intros path save fs. by apply fetch_failure_leaves_files.
  - intros Hnone. unfold fetch_shortage_records. rewrite Hbody. simpl.
    unfold dict_get_default. by rewrite Hnone.
Qed.

Lemma fetch_checks_results_witness :
  let bad := json_dumps None (PDict [("results", PStr "not a list")]) in
  let bare := json_dumps None (PDict [("meta", PNone)]) in
  fetch_shortage_records (Body bad) = Raise results_not_a_list /\
  track_shortages "data/shortage_snapshot.json" (Body bad) true ∅
  = (Raise results_not_a_list, ∅) /\
  fetch_shortage_records (Body bare) = Return [].
Proof.
  assert (H1 : json_loads (json_dumps None (PDict [("results", PStr "not a list")]))
               = Return (PDict [("results", PStr "not a list")]))
    by reflexivity.
  assert (H2 : json_loads (json_dumps None (PDict [("meta", PNone)]))
               = Return (PDict [("meta", PNone)]))
    by reflexivity.
  split; [|split].
  - apply (proj1 (fetch_checks_results _ _ H1) (PStr "not a list")); reflexivity.
  - apply (proj1 (fetch_checks_results _ _ H1) (PStr "not a list")); reflexivity.
  - apply (proj2 (fetch_checks_results _ _ H2)). reflexivity.
Defined.

(** C3, as stated, fails: a body that parses as JSON and has no
    [results] field makes the fetch succeed with no records. *)
Lemma fetch_missing_results_succeeds :
  json_loads "{}" = Return (PDict []) /\
  dict_get "results" [] = None /\
  fetch_shortage_records (Body "{}") = Return [].
Proof. split_and!; reflexivity. Qed.

(** ** Snapshot store *)

(** C8.  Without a file at the path, loading gives the empty snapshot
    and no error; with a file whose content is not JSON, or is JSON but
    not an object, loading fails, with the decoder's error in the first
    case and the "invalid JSON object" error in the second.  The files
    are left as they were. *)
Theorem load_snapshot_first_run_or_corrupt path fs :
  (fs !! path = None -> load_snapshot path fs = (Return ∅, fs)) /\
  (forall content e,
     fs !! path = Some content -> json_loads content = Raise e ->
     load_snapshot path fs = (Raise e, fs)) /\
  (forall content v,
     fs !! path = Some content -> json_loads content = Return v ->
     is_dict v = false ->
     load_snapshot path fs = (Raise (invalid_snapshot path), fs)).
Proof.
  unfold load_snapshot. split_and!.
  - by intros ->.
  - intros content e -> Hc. by rewrite Hc.
  - intros content v -> Hc Hv. rewrite Hc. by destruct v.
Qed.

Lemma load_snapshot_first_run_or_corrupt_witness :
  load_snapshot "data/shortage_snapshot.json" ∅ = (Return ∅, ∅) /\
  load_snapshot "s.json" {[ "s.json" := "{ not json" ]}
  = (Raise JSONDecodeError, {[ "s.json" := "{ not json" ]}) /\
  load_snapshot "s.json" {[ "s.json" := "[1, 2]" ]}
  = (Raise (invalid_snapshot "s.json"), {[ "s.json" := "[1, 2]" ]}).
Proof.
  split; [|split].
  - apply (proj1 (load_snapshot_first_run_or_corrupt _ _)). reflexivity.
  - apply (proj1 (proj2 (load_snapshot_first_run_or_corrupt _ _)) "{ not json");
      reflexivity.
  - apply (proj2 (proj2 (load_snapshot_first_run_or_corrupt _ _))
             "[1, 2]" (PList [PInt 1; PInt 2])); reflexivity.
Defined.

(** ** The pipeline *)

Lemma load_snapshot_reads_only path fs : snd (load_snapshot path fs) = fs.
Proof. unfold load_snapshot. by destruct (fs !! path). Qed.

(** C9.  A run that fails leaves the files as they were, and so does a
    run with saving off.  A run changes nothing but the snapshot file,
    and when it writes it, saving was on, the fetch and the load had
    succeeded, the diff had been computed, and what is written is the
    new snapshot. *)
Theorem track_shortages_atomic path net save fs :
  (forall e, fst (track_shortages path net save fs) = Raise e ->
   snd (track_shortages path net save fs) = fs) /\
  (save = false -> snd (track_shortages path net save fs) = fs) /\
  (forall other, other <> path ->
     snd (track_shortages path net save fs) !! other = fs !! other) /\
  (snd (track_shortages path net save fs) <> fs ->
   save = true /\
   exists records old_snapshot,
     fetch_shortage_records net = Return records /\
     load_snapshot path fs = (Return old_snapshot, fs) /\
     track_shortages path net save fs
     = (Return (length records,
                diff_snapshots old_snapshot (build_snapshot records)),
        <[path := json_dumps (Some 2%nat)
                    (PDict (dict_of_snapshot (build_snapshot records)))]> fs)).
Proof.
  unfold track_shortages, and_then, lift.
  destruct (fetch_shortage_records net) as [records| |] eqn:Hf;
    [|by split_and!..].
  pose proof (load_snapshot_reads_only path fs) as Hl.
  destruct (load_snapshot path fs) as [[old| |] fs1] eqn:Hload;
    simpl in Hl; subst fs1; [|by split_and!..].
  destruct save; simpl; split_and!; try done.
  - intros other Hne. by apply lookup_insert_ne.
  - intros _. split; [done|]. by exists records, old.
Qed.

Lemma track_shortages_atomic_witness :
  snd (track_shortages "s.json" (URLError "timed out") true {[ "s.json" := "{}" ]})
  = {[ "s.json" := "{}" ]} /\
  snd (track_shortages "s.json" (Body "{}") true {[ "s.json" := "[]" ]})
  = {[ "s.json" := "[]" ]} /\
  snd (track_shortages "s.json" (Body "{}") false ∅) = ∅ /\
  exists records,
    fetch_shortage_records (Body "{}") = Return records /\
    snd (track_shortages "s.json" (Body "{}") true ∅)
    = {[ "s.json" := json_dumps (Some 2%nat)
                       (PDict (dict_of_snapshot (build_snapshot records))) ]}.
Proof.
  split; [|split; [|split]].
  - apply (proj1 (track_shortages_atomic _ _ _ _)
             (RuntimeError "openFDA network error: timed out")).
    reflexivity.
  - apply (proj1 (track_shortages_atomic _ _ _ _) (invalid_snapshot "s.json")).
    reflexivity.
  - apply (proj1 (proj2 (track_shortages_atomic _ _ _ _))). reflexivity.
  - assert (Hne : snd (track_shortages "s.json" (Body "{}") true ∅) <> ∅)
      by (vm_compute; discriminate).
    destruct (proj2 (proj2 (proj2
      (track_shortages_atomic "s.json" (Body "{}") true ∅))) Hne)
      as [_ (records & old & Hf & _ & Ht)].
    exists records. split; [exact Hf|]. rewrite Ht. reflexivity.
Defined.

(** ** The decoder reads back what the encoder writes *)

Ltac by_cases_on_char c :=
  destruct c as [[] [] [] [] [] [] [] []]; try reflexivity; try discriminate.

Lemma scanstring_escape c tail :
  scanstring (escape_char c ++ tail) = push c (scanstring tail).
Proof. by_cases_on_char c. Qed.

Lemma scanstring_encoded s rest :
  scanstring (flat_map escape_char (chars s) ++ quote_char :: rest)
  = Return (s, rest).
Proof.
  unfold chars. induction s as [|c s IH].
  - reflexivity.
  - cbn [list_ascii_of_string flat_map].
    by rewrite <- app_assoc, scanstring_escape, IH.
Qed.

Lemma starts_value_not_ws c : starts_value c = true -> is_ws c = false.
Proof. by_cases_on_char c. Qed.

Lemma starts_value_not_closing c :
  starts_value c = true ->
  Ascii.eqb c "]" = false /\ Ascii.eqb c "}" = false /\ Ascii.eqb c "," = false.
Proof. by_cases_on_char c; intros _; done. Qed.

Lemma uint_chars_digits d : Forall (fun c => is_digit c = true) (uint_chars d).
Proof. induction d; simpl; constructor; done. Qed.

Lemma digits_of_uint_chars d : foldr digit_cons Nil (uint_chars d) = d.
Proof. induction d; simpl; [done|by rewrite IHd..]. Qed.

Lemma closes_not_number rest :
  closes rest = true ->
  float_tail rest = false /\
  match rest with c :: _ => is_digit c = false | [] => True end.
Proof.
  destruct rest as [|c rest]; [done|]. simpl.
  destruct rest as [|c' rest]; intros H; split; revert H; by_cases_on_char c.
Qed.

Lemma take_digits_all ds rest :
  Forall (fun c => is_digit c = true) ds ->
  match rest with c :: _ => is_digit c = false | [] => True end ->
  take_digits (ds ++ rest) = (ds, rest).
Proof.
  intros Hds Hrest. induction Hds as [|c ds Hc _ IH]; simpl.
  - destruct rest as [|c rest]; [done|]. simpl. by rewrite Hrest.
  - by rewrite Hc, IH.
Qed.

Lemma digit_not_minus c : is_digit c = true -> Ascii.eqb c "-" = false.
Proof. by_cases_on_char c. Qed.

Lemma scan_number_digits (neg : bool) c ds rest :
  Forall (fun c => is_digit c = true) (c :: ds) ->
  (Ascii.eqb c "0" = false \/ ds = []) ->
  closes rest = true ->
  scan_number ((if neg then ["-"%char] else []) ++ (c :: ds) ++ rest)
  = Return (PInt (if neg then - digits_value (c :: ds) else digits_value (c :: ds)),
            rest).
Proof.
  intros Hds Hzero [Hfloat Hrest]%closes_not_number.
  apply Forall_cons in Hds as [Hc Hds].
  assert (Hgo :
    (let finish (ds0 rest0 : text) : outcome (pyval * text) :=
       if float_tail rest0 then Unmodelled
       else Return (PInt (if neg then - digits_value ds0 else digits_value ds0),
                    rest0) in
     if Ascii.eqb c "0" then finish [c] (ds ++ rest)
     else if is_digit c then
       let '(ds', r') := take_digits (ds ++ rest) in finish (c :: ds') r'
     else Raise JSONDecodeError)
    = Return (PInt (if neg then - digits_value (c :: ds) else digits_value (c :: ds)),
              rest)).
  { simpl. destruct (Ascii.eqb c "0") eqn:E0.
    - destruct Hzero as [?| ->]; [done|]. simpl. by rewrite Hfloat.
    - rewrite Hc, (take_digits_all ds rest Hds Hrest). by rewrite Hfloat. }
  unfold scan_number. destruct neg; simpl.
  - simpl in Hgo. destruct (Ascii.eqb c "0"); [exact Hgo|].
    rewrite Hc in Hgo |- *. exact Hgo.
  - rewrite (digit_not_minus c Hc). simpl in Hgo.
    destruct (Ascii.eqb c "0"); [exact Hgo|].
    rewrite Hc in Hgo |- *. exact Hgo.
Qed.

Lemma pos_to_uint_normal p : unorm (Pos.to_uint p) = Pos.to_uint p.
Proof.
  rewrite <- (DecimalPos.Unsigned.to_of (Pos.to_uint p)).
  by rewrite DecimalPos.Unsigned.of_to.
Qed.

Lemma pos_to_uint_head p :
  exists c t, uint_chars (Pos.to_uint p) = c :: t /\ Ascii.eqb c "0" = false.
Proof.
  pose proof (pos_to_uint_normal p) as Hn.
  pose proof (DecimalPos.Unsigned.to_uint_nonzero p) as Hz.
  pose proof (DecimalPos.Unsigned.to_uint_nonnil p) as Hnil.
  destruct (Pos.to_uint p) as [|u|u|u|u|u|u|u|u|u|u] eqn:E; simpl; eauto; [done|].
  exfalso. unfold unorm in Hn. rewrite nzhead_D0 in Hn.
  destruct (nzhead u) eqn:Eu; try discriminate Hn.
  - injection Hn as <-. by apply Hz.
  - by apply (nzhead_nonzero _ _ Eu).
Qed.

Lemma digits_value_pos p : digits_value (uint_chars (Pos.to_uint p)) = Zpos p.
Proof.
  unfold digits_value. rewrite digits_of_uint_chars.
  change (N.of_uint (Pos.to_uint p)) with (Pos.of_uint (Pos.to_uint p)).
  by rewrite DecimalPos.Unsigned.of_to.
Qed.

Lemma scan_number_int n rest :
  closes rest = true -> scan_number (int_repr n ++ rest) = Return (PInt n, rest).
Proof.
  intros Hrest. destruct n as [|p|p]; simpl.
  - apply (scan_number_digits false "0" [] rest); auto.
  - destruct (pos_to_uint_head p) as (c & t & E & Hc).
    pose proof (uint_chars_digits (Pos.to_uint p)) as Hd.
    pose proof (digits_value_pos p) as Hv. rewrite E in Hd, Hv |- *.
    rewrite <- Hv. apply (scan_number_digits false c t rest); auto.
  - destruct (pos_to_uint_head p) as (c & t & E & Hc).
    pose proof (uint_chars_digits (Pos.to_uint p)) as Hd.
    pose proof (digits_value_pos p) as Hv. rewrite E in Hd, Hv |- *.
    change (Z.neg p) with (- Z.pos p). rewrite <- Hv.
    apply (scan_number_digits true c t rest); auto.
Qed.

Lemma scan_once_number fuel c t :
  is_digit c || Ascii.eqb c "-" = true ->
  scan_once (S fuel) (c :: t) = scan_number (c :: t).
Proof. by_cases_on_char c. Qed.

Lemma int_repr_head n :
  exists c t, int_repr n = c :: t /\ is_digit c || Ascii.eqb c "-" = true.
Proof.
  destruct n as [|p|p]; simpl; eauto.
  pose proof (uint_chars_digits (Pos.to_uint p)) as Hd.
  destruct (pos_to_uint_head p) as (c & t & E & _). rewrite E in Hd |- *.
  apply Forall_cons in Hd as [Hc _]. exists c, t. by rewrite Hc.
Qed.

Lemma scan_once_int fuel n rest :
  closes rest = true ->
  scan_once (S fuel) (int_repr n ++ rest) = Return (PInt n, rest).
Proof.
  intros Hrest. rewrite <- (scan_number_int n rest Hrest).
  destruct (int_repr_head n) as (c & t & -> & Hc).
  by apply scan_once_number.
Qed.

(** *** White space and the layout of brackets *)

Lemma skip_ws_app ws s : forallb is_ws ws = true -> skip_ws (ws ++ s) = skip_ws s.
Proof.
  induction ws as [|c ws IH]; simpl; [done|].
  intros [-> ?]%andb_true_iff. auto.
Qed.

Lemma skip_ws_start c s : is_ws c = false -> skip_ws (c :: s) = c :: s.
Proof. simpl. by intros ->. Qed.

Lemma skip_ws_value c t : starts_value c = true -> skip_ws (c :: t) = c :: t.
Proof. intros H. by apply skip_ws_start, starts_value_not_ws. Qed.

Lemma newline_indent_ws n level : forallb is_ws (newline_indent n level) = true.
Proof.
  unfold newline_indent. simpl. induction (n * level)%nat; simpl; auto.
Qed.

Lemma enclose_layout indent level opening closing p ps :
  exists pre sep fin,
    forallb is_ws pre = true /\ forallb is_ws sep = true /\
    forallb is_ws fin = true /\
    forall rest,
      enclose indent level opening closing (p :: ps) ++ rest
      = opening :: pre ++ join (","%char :: sep) (p :: ps) ++ fin ++ closing :: rest.
Proof.
  destruct indent as [n|].
  - exists (newline_indent n (S level)), (newline_indent n (S level)),
      (newline_indent n level).
    split_and!; try apply newline_indent_ws.
    intros rest. unfold enclose. cbn [app]. f_equal.
    by rewrite <- !app_assoc.
  - exists [], [" "%char], []. split_and!; try done.
    intros rest. unfold enclose. cbn [app]. f_equal.
    by rewrite <- !app_assoc.
Qed.

Lemma closes_after_items fin closing rest :
  forallb is_ws fin = true ->
  Ascii.eqb closing "]" || Ascii.eqb closing "}" = true ->
  closes (fin ++ closing :: rest) = true.
Proof.
  destruct fin as [|c fin]; simpl.
  - intros _ H. by rewrite <- orb_assoc, H, orb_true_r.
  - by intros [-> _]%andb_true_iff.
Qed.

Lemma join_cons sep p q ps : join sep (p :: q :: ps) = p ++ sep ++ join sep (q :: ps).
Proof. reflexivity. Qed.

Lemma join_one sep p : join sep [p] = p.
Proof. reflexivity. Qed.

(** *** How an encoded value starts *)

Lemma number_starts_value c :
  is_digit c || Ascii.eqb c "-" = true -> starts_value c = true.
Proof. by_cases_on_char c. Qed.

Lemma json_encode_head indent level v :
  exists c t, json_encode indent level v = c :: t /\ starts_value c = true.
Proof.
  destruct v as [|[|]|n|s|l|d]; simpl; eauto.
  - destruct (int_repr_head n) as (c & t & -> & Hc).
    eauto using number_starts_value.
  - unfold enclose. destruct (map _ l); [eauto|]. destruct indent; eauto.
  - unfold enclose. destruct (map encode_member _); [eauto|].
    destruct indent; eauto.
Qed.

Lemma skip_ws_encoded indent level v ws rest :
  forallb is_ws ws = true ->
  skip_ws (ws ++ json_encode indent level v ++ rest)
  = json_encode indent level v ++ rest.
Proof.
  intros Hws. rewrite (skip_ws_app _ _ Hws).
  destruct (json_encode_head indent level v) as (c & t & -> & Hc).
  by apply skip_ws_value.
Qed.

(** *** One step of the scanner *)

Lemma scan_once_string fuel r :
  scan_once (S fuel) (quote_char :: r)
  = let* (str, r') := scanstring r in Return (PStr str, r').
Proof. reflexivity. Qed.

Lemma scan_once_array fuel r :
  scan_once (S fuel) ("["%char :: r)
  = match skip_ws r with
    | c' :: r' =>
        if Ascii.eqb c' "]" then Return (PList [], r')
        else
          let* (values, r'') := parse_elements fuel (c' :: r') in
          Return (PList values, r'')
    | [] => Raise JSONDecodeError
    end.
Proof. reflexivity. Qed.

Lemma scan_once_object fuel r :
  scan_once (S fuel) ("{"%char :: r)
  = match skip_ws r with
    | c' :: r' =>
        if Ascii.eqb c' "}" then Return (PDict [], r')
        else if Ascii.eqb c' quote_char then
          let* (pairs, r'') := parse_members fuel r' in
          Return (PDict (dict_of_pairs pairs), r'')
        else Raise JSONDecodeError
    | [] => Raise JSONDecodeError
    end.
Proof. reflexivity. Qed.

Lemma parse_elements_step fuel s :
  parse_elements (S fuel) s
  = let* (value, r) := scan_once fuel s in
    match skip_ws r with
    | c :: r' =>
        if Ascii.eqb c "]" then Return ([value], r')
        else if Ascii.eqb c "," then
          let* (values, r'') := parse_elements fuel (skip_ws r') in
          Return (value :: values, r'')
        else Raise JSONDecodeError
    | [] => Raise JSONDecodeError
    end.
Proof. reflexivity. Qed.

Lemma parse_members_step fuel s :
  parse_members (S fuel) s
  = let* (key, r) := scanstring s in
    match skip_ws r with
    | c :: r1 =>
        if Ascii.eqb c ":" then
          let* (value, r2) := scan_once fuel (skip_ws r1) in
          match skip_ws r2 with
          | c' :: r3 =>
              if Ascii.eqb c' "}" then Return ([(key, value)], r3)
              else if Ascii.eqb c' "," then
                match skip_ws r3 with
                | c'' :: r4 =>
                    if Ascii.eqb c'' quote_char then
                      let* (pairs, r5) := parse_members fuel r4 in
                      Return ((key, value) :: pairs, r5)
                    else Raise JSONDecodeError
                | [] => Raise JSONDecodeError
                end
              else Raise JSONDecodeError
          | [] => Raise JSONDecodeError
          end
        else Raise JSONDecodeError
    | [] => Raise JSONDecodeError
    end.
Proof. reflexivity. Qed.

(** *** Elements and members

    The proofs below rewrite with the step lemmas; the texts stay folded. *)

#[local] Arguments join : simpl never.
#[local] Arguments json_encode : simpl never.
#[local] Arguments skip_ws : simpl never.
#[local] Arguments scan_once : simpl never.
#[local] Arguments parse_elements : simpl never.
#[local] Arguments parse_members : simpl never.
#[local] Arguments scanstring : simpl never.
#[local] Arguments canon : simpl never.

Lemma join_app_head sep p ps (Z : text) :
  exists Z', join sep (p :: ps) ++ Z = p ++ Z'.
Proof.
  destruct ps as [|q ps]; [by exists Z|].
  rewrite join_cons, <- !app_assoc. eauto.
Qed.

Lemma skip_ws_joined indent level sep' ws v ps Z :
  forallb is_ws ws = true ->
  skip_ws (ws ++ join sep' (json_encode indent level v :: ps) ++ Z)
  = join sep' (json_encode indent level v :: ps) ++ Z.
Proof.
  intros Hws. destruct (join_app_head sep' (json_encode indent level v) ps Z)
    as [Z' ->].
  by apply skip_ws_encoded.
Qed.

Lemma parse_elements_encoded indent level sep fin l rest fuel :
  l <> [] -> Forall reads_back l ->
  forallb is_ws sep = true -> forallb is_ws fin = true ->
  (sum_list_with (fun x => S (weight x)) l <= fuel)%nat ->
  parse_elements fuel
    (join (","%char :: sep) (map (json_encode indent level) l)
     ++ fin ++ "]"%char :: rest)
  = Return (map canon l, rest).
Proof.
  intros Hne Hall Hsep Hfin. revert fuel.
  induction Hall as [|x l Hx Hl IH]; [done|]. clear Hne.
  intros fuel Hfuel. simpl in Hfuel.
  destruct fuel as [|fuel]; [lia|]. rewrite parse_elements_step.
  destruct l as [|y l].
  - simpl map. rewrite join_one.
    rewrite (Hx indent level (fin ++ "]"%char :: rest) fuel);
      [|by apply closes_after_items|simpl in Hfuel; lia].
    simpl bind. rewrite (skip_ws_app _ _ Hfin). reflexivity.
  - rewrite !map_cons, join_cons, <- !app_assoc.
    rewrite (Hx indent level _ fuel); [|reflexivity|lia].
    simpl bind.
    rewrite (skip_ws_joined _ _ _ _ _ _ _ Hsep).
    rewrite <- map_cons, IH; [done|done|lia].
Qed.

Lemma encode_member_eq k txt (Z : text) :
  encode_member (k, txt) ++ Z
  = quote_char :: flat_map escape_char (chars k)
    ++ quote_char :: ":"%char :: " "%char :: txt ++ Z.
Proof.
  unfold encode_member, encode_basestring_ascii. simpl.
  by rewrite <- !app_assoc.
Qed.

Lemma members_head sep' p ps (Z : text) :
  exists t, join sep' (encode_member p :: ps) ++ Z = quote_char :: t.
Proof.
  destruct (join_app_head sep' (encode_member p) ps Z) as [Z' ->].
  destruct p as [k txt]. rewrite encode_member_eq. eauto.
Qed.

Lemma parse_members_key fuel k txt Z :
  parse_members (S fuel)
    (flat_map escape_char (chars k)
     ++ quote_char :: ":"%char :: " "%char :: txt ++ Z)
  = let* (value, r2) := scan_once fuel (skip_ws (txt ++ Z)) in
    match skip_ws r2 with
    | c' :: r3 =>
        if Ascii.eqb c' "}" then Return ([(k, value)], r3)
        else if Ascii.eqb c' "," then
          match skip_ws r3 with
          | c'' :: r4 =>
              if Ascii.eqb c'' quote_char then
                let* (pairs, r5) := parse_members fuel r4 in
                Return ((k, value) :: pairs, r5)
              else Raise JSONDecodeError
          | [] => Raise JSONDecodeError
          end
        else Raise JSONDecodeError
    | [] => Raise JSONDecodeError
    end.
Proof. rewrite parse_members_step, scanstring_encoded. reflexivity. Qed.

Lemma parse_members_encoded indent level sep fin (sd : dict) rest fuel t :
  sd <> [] -> Forall (fun p => reads_back (snd p)) sd ->
  forallb is_ws sep = true -> forallb is_ws fin = true ->
  (sum_list_with (fun p => S (weight (snd p))) sd <= fuel)%nat ->
  join (","%char :: sep)
    (map (fun p => encode_member (fst p, json_encode indent level (snd p))) sd)
  ++ fin ++ "}"%char :: rest = quote_char :: t ->
  parse_members fuel t = Return (map (fun p => (fst p, canon (snd p))) sd, rest).
Proof.
  intros Hne Hall Hsep Hfin. revert fuel t.
  induction Hall as [|[k v] sd Hx Hl IH]; [done|]. clear Hne.
  intros fuel t Hfuel Ht. simpl in Hfuel, Hx.
  destruct fuel as [|fuel]; [lia|].
  destruct sd as [|q sd].
  - simpl map in Ht. rewrite join_one, encode_member_eq in Ht.
    injection Ht as <-. rewrite parse_members_key.
    destruct (json_encode_head indent level v) as (c & t' & Hc & Hv).
    rewrite Hc at 1. rewrite <- app_comm_cons, (skip_ws_value _ _ Hv).
    rewrite app_comm_cons, <- Hc.
    rewrite (Hx indent level (fin ++ "}"%char :: rest) fuel);
      [|by apply closes_after_items|simpl in Hfuel; lia].
    simpl bind. rewrite (skip_ws_app _ _ Hfin). reflexivity.
  - rewrite !map_cons, join_cons, <- !app_assoc, encode_member_eq in Ht.
    injection Ht as <-. rewrite parse_members_key.
    destruct (json_encode_head indent level v) as (c & t' & Hc & Hv).
    rewrite Hc at 1. rewrite <- app_comm_cons, (skip_ws_value _ _ Hv).
    rewrite app_comm_cons, <- Hc.
    rewrite (Hx indent level _ fuel); [|reflexivity|lia].
    simpl bind.
    destruct (members_head (","%char :: sep)
                (fst q, json_encode indent level (snd q))
                (map (fun p => encode_member (fst p, json_encode indent level (snd p))) sd)
                (fin ++ "}"%char :: rest)) as [t'' Ht''].
    rewrite Ht'', (skip_ws_app _ _ Hsep).
    change (skip_ws (quote_char :: t'')) with (quote_char :: t'').
    cbv beta iota. change (Ascii.eqb quote_char quote_char) with true.
    cbv beta iota. rewrite (IH ltac:(done) fuel t''); [done|lia|].
    by rewrite <- Ht''.
Qed.

Lemma dict_set_fresh k v (d : dict) :
  k ∉ map fst d -> dict_set k v d = d ++ [(k, v)].
Proof.
  induction d as [|[k' v'] d IH]; simpl; [done|].
  rewrite not_elem_of_cons. intros [Hne Hk].
  destruct (String.eqb_spec k' k) as [->|_]; [done|]. by rewrite IH.
Qed.

Lemma dict_of_pairs_distinct (l : dict) :
  NoDup (map fst l) -> dict_of_pairs l = l.
Proof.
  unfold dict_of_pairs.
  assert (H : forall acc : dict,
    NoDup (map fst (acc ++ l)) ->
    fold_left (fun d p => dict_set (fst p) (snd p) d) l acc = acc ++ l).
  { induction l as [|[k v] l IH]; intros acc Hnd; simpl.
    - by rewrite app_nil_r.
    - rewrite dict_set_fresh.
      + rewrite IH; rewrite <- app_assoc; done.
      + rewrite map_app in Hnd. apply NoDup_app in Hnd as (_ & Hdis & _).
        intros Hk. apply (Hdis k Hk). simpl. left. }
  intros Hnd. by apply (H []).
Qed.

Lemma StronglySorted_relabel {A B} (f : A -> B) (l : list (string * A)) :
  StronglySorted key_le l ->
  StronglySorted key_le (map (fun p => (fst p, f (snd p))) l).
Proof.
  induction 1 as [|x l Hl IH Hx]; simpl; constructor; [done|].
  apply Forall_forall. intros y Hy.
  apply list_elem_of_In, in_map_iff in Hy as (z & <- & Hz).
  apply list_elem_of_In in Hz. exact (proj1 (Forall_forall _ _) Hx z Hz).
Qed.

Lemma sort_items_relabel {A B} (f : A -> B) (l : list (string * A)) :
  NoDup (map fst l) ->
  sort_items (map (fun p => (fst p, f (snd p))) l)
  = map (fun p => (fst p, f (snd p))) (sort_items l).
Proof.
  intros Hnd. apply sorted_items_unique.
  - rewrite (Permutation_map fst (sort_items_Permutation _)).
    by rewrite map_fst_relabel.
  - rewrite sort_items_Permutation.
    by rewrite (Permutation_map _ (sort_items_Permutation l)).
  - apply sort_items_sorted.
  - apply StronglySorted_relabel, sort_items_sorted.
Qed.

Lemma array_dispatch fuel (J : text) c r :
  J = c :: r -> Ascii.eqb c "]" = false ->
  match J with
  | c' :: r' =>
      if Ascii.eqb c' "]" then Return (PList [], r')
      else
        let* (values, r'') := parse_elements fuel (c' :: r') in
        Return (PList values, r'')
  | [] => Raise JSONDecodeError
  end
  = let* (values, r'') := parse_elements fuel J in Return (PList values, r'').
Proof. intros -> ->. reflexivity. Qed.

Lemma json_encode_list indent level l :
  json_encode indent level (PList l)
  = enclose indent level "[" "]" (map (json_encode indent (S level)) l).
Proof. reflexivity. Qed.

Lemma json_encode_dict indent level (d : dict) :
  json_encode indent level (PDict d)
  = enclose indent level "{" "}"
      (map encode_member
         (sort_items
            (map (fun p => (fst p, json_encode indent (S level) (snd p))) d))).
Proof. reflexivity. Qed.

Lemma canon_dict (d : dict) :
  canon (PDict d) = PDict (sort_items (map (fun p => (fst p, canon (snd p))) d)).
Proof. reflexivity. Qed.

Lemma json_encode_reads_back v : wf v = true -> reads_back v.
Proof.
  induction v as [| b | n | s | l IH | d IH] using pyval_nested_ind;
    intros Hwf indent level rest fuel Hrest Hfuel;
    (destruct fuel as [|fuel]; [simpl in Hfuel; lia|]).
  - reflexivity.
  - by destruct b.
  - by apply scan_once_int.
  - change (json_encode indent level (PStr s) ++ rest)
      with (quote_char :: (flat_map escape_char (chars s) ++ [quote_char]) ++ rest).
    rewrite scan_once_string, <- app_assoc. simpl app.
    by rewrite scanstring_encoded.
  - apply wf_list in Hwf.
    assert (Hall : Forall reads_back l).
    { rewrite Forall_forall in IH, Hwf |- *. auto. }
    rewrite json_encode_list. destruct l as [|x l]; [reflexivity|].
    rewrite map_cons.
    destruct (enclose_layout indent level "[" "]"
                (json_encode indent (S level) x)
                (map (json_encode indent (S level)) l))
      as (pre & sep & fin & Hpre & Hsep & Hfin & ->).
    rewrite scan_once_array, (skip_ws_joined _ _ _ _ _ _ _ Hpre).
    destruct (join_app_head (","%char :: sep) (json_encode indent (S level) x)
                (map (json_encode indent (S level)) l)
                (fin ++ "]"%char :: rest)) as [Z' HZ'].
    destruct (json_encode_head indent (S level) x) as (c & t & Hc & Hv).
    rewrite Hc in HZ' at 2. rewrite <- app_comm_cons in HZ'.
    rewrite (array_dispatch fuel _ c (t ++ Z') HZ');
      [|by apply starts_value_not_closing].
    rewrite <- map_cons, parse_elements_encoded; try done.
    simpl in Hfuel. simpl. lia.
  - apply wf_dict in Hwf as [Hnd Hwf].
    assert (Hall : Forall (fun p => reads_back (snd p)) d).
    { rewrite Forall_forall in IH, Hwf |- *. auto. }
    rewrite json_encode_dict, canon_dict, !sort_items_relabel by done.
    rewrite map_map. cbn [fst snd].
    assert (Hsd : sort_items d ≡ₚ d) by apply sort_items_Permutation.
    assert (Hw : (sum_list_with (fun p => S (weight (snd p))) (sort_items d)
                  <= fuel)%nat).
    { rewrite Hsd. simpl in Hfuel. lia. }
    rewrite <- Hsd in Hall. rewrite <- Hsd in Hnd. clear Hsd Hfuel IH Hwf.
    destruct (sort_items d) as [|p sd]; [reflexivity|].
    rewrite map_cons.
    destruct (enclose_layout indent level "{" "}"
                (encode_member (fst p, json_encode indent (S level) (snd p)))
                (map (fun p => encode_member
                                 (fst p, json_encode indent (S level) (snd p))) sd))
      as (pre & sep & fin & Hpre & Hsep & Hfin & ->).
    rewrite scan_once_object.
    destruct (members_head (","%char :: sep)
                (fst p, json_encode indent (S level) (snd p))
                (map (fun p => encode_member
                                 (fst p, json_encode indent (S level) (snd p))) sd)
                (fin ++ "}"%char :: rest)) as [t Ht].
    rewrite Ht, (skip_ws_app _ _ Hpre).
    change (skip_ws (quote_char :: t)) with (quote_char :: t).
    cbv beta iota. change (Ascii.eqb quote_char "}") with false.
    change (Ascii.eqb quote_char quote_char) with true. cbv beta iota.
    rewrite (parse_members_encoded indent (S level) sep fin (p :: sd) rest fuel t);
      try done.
    assert (Hk : NoDup (map fst (map (fun p => (fst p, canon (snd p))) (p :: sd))))
      by (by rewrite map_fst_relabel).
    unfold bind. by rewrite (dict_of_pairs_distinct _ Hk).
Qed.

(** *** The scanner consumes its input, and fuel beyond need is idle *)

Lemma scan_once_step fuel s :
  scan_once (S fuel) s
  = match s with
    | [] => Raise JSONDecodeError
    | c :: r =>
        if Ascii.eqb c quote_char then
          let* (str, r') := scanstring r in Return (PStr str, r')
        else if Ascii.eqb c "{" then
          match skip_ws r with
          | c' :: r' =>
              if Ascii.eqb c' "}" then Return (PDict [], r')
              else if Ascii.eqb c' quote_char then
                let* (pairs, r'') := parse_members fuel r' in
                Return (PDict (dict_of_pairs pairs), r'')
              else Raise JSONDecodeError
          | [] => Raise JSONDecodeError
          end
        else if Ascii.eqb c "[" then
          match skip_ws r with
          | c' :: r' =>
              if Ascii.eqb c' "]" then Return (PList [], r')
              else
                let* (values, r'') := parse_elements fuel (c' :: r') in
                Return (PList values, r'')
          | [] => Raise JSONDecodeError
          end
        else if starts_with (chars "null") s then Return (PNone, drop 4 s)
        else if starts_with (chars "true") s then Return (PBool true, drop 4 s)
        else if starts_with (chars "false") s then Return (PBool false, drop 5 s)
        else scan_number s
    end.
Proof. reflexivity. Qed.

Lemma length_skip_ws s : (length (skip_ws s) <= length s)%nat.
Proof.
  induction s as [|c s IH]; [done|].
  change (skip_ws (c :: s)) with (if is_ws c then skip_ws s else c :: s).
  destruct (is_ws c); simpl; lia.
Qed.

Ltac bind_inv H :=
  match type of H with
  | bind ?m _ = Return _ =>
      let E := fresh "E" in
      destruct m as [[? ?]| |] eqn:E; simpl in H; [|discriminate H..]
  end.

Lemma scanstring_step c r :
  scanstring (c :: r)
  = if Ascii.eqb c quote_char then Return (EmptyString, r)
    else if Ascii.eqb c backslash then
      match r with
      | [] => Raise JSONDecodeError
      | e :: r1 =>
          if Ascii.eqb e "u" then
            match r1 with
            | h1 :: h2 :: h3 :: h4 :: r2 =>
                match hex4 h1 h2 h3 h4 with
                | Some n =>
                    if (n <? 256)%N then push (ascii_of_N n) (scanstring r2)
                    else Unmodelled
                | None => Raise JSONDecodeError
                end
            | _ => Raise JSONDecodeError
            end
          else
            match unescape e with
            | Some ch => push ch (scanstring r1)
            | None => Raise JSONDecodeError
            end
      end
    else if (N_of_ascii c <? 32)%N then Raise JSONDecodeError
    else push c (scanstring r).
Proof. reflexivity. Qed.

Lemma push_Return c m str r :
  push c m = Return (str, r) ->
  exists str', m = Return (str', r) /\ str = String c str'.
Proof.
  unfold push. destruct m as [[str' r']| |]; simpl; [|done..].
  intros [= <- <-]. eauto.
Qed.

Lemma length_scanstring s str r :
  scanstring s = Return (str, r) -> (length r < length s)%nat.
Proof.
  remember (length s) as n eqn:Hn. revert s str r Hn.
  induction n as [n IH] using lt_wf_ind. intros [|c s] str r -> H; [done|].
  rewrite scanstring_step in H.
  repeat case_match; simplify_eq; simpl;
    try lia;
    apply push_Return in H as (str' & H & ->);
    match type of H with
    | scanstring ?t = _ =>
        pose proof (IH (length t) ltac:(simpl; lia) t _ _ eq_refl H)
    end; lia.
Qed.

Lemma length_take_digits s ds r :
  take_digits s = (ds, r) -> (length r <= length s)%nat.
Proof.
  revert ds r. induction s as [|c s IH]; intros ds r; simpl.
  - intros [= <- <-]. done.
  - destruct (is_digit c).
    + destruct (take_digits s) as [ds' r'] eqn:E. intros [= <- <-].
      specialize (IH _ _ eq_refl). lia.
    + intros [= <- <-]. simpl. lia.
Qed.

Lemma length_scan_number s v r :
  scan_number s = Return (v, r) -> (length r < length s)%nat.
Proof.
  unfold scan_number. intros H.
  repeat case_match; simplify_eq; simpl;
    try match goal with
        | E : take_digits _ = _ |- _ => apply length_take_digits in E
        end; simpl in *; lia.
Qed.

Lemma length_skip_ws_cons s c r :
  skip_ws s = c :: r -> (length r < length s)%nat.
Proof. intros H. pose proof (length_skip_ws s). rewrite H in *. simpl in *. lia. Qed.

Lemma length_scanned fuel :
  forall s,
    (forall v r, scan_once fuel s = Return (v, r) -> (length r < length s)%nat) /\
    (forall vs r, parse_elements fuel s = Return (vs, r) -> (length r < length s)%nat) /\
    (forall ps r, parse_members fuel s = Return (ps, r) -> (length r < length s)%nat).
Proof.
  induction fuel as [|fuel IH]; intros s; [by split_and!|].
  split_and!.
  - intros v r H. rewrite scan_once_step in H.
    destruct s as [|c s]; [done|].
    repeat case_match; simplify_eq; simpl;
      try (bind_inv H; simplify_eq);
      repeat match goal with
        | E : skip_ws _ = _ :: _ |- _ => apply length_skip_ws_cons in E
        | E : scanstring _ = Return _ |- _ => apply length_scanstring in E
        | E : scan_number _ = Return _ |- _ => apply length_scan_number in E
        | E : parse_members fuel _ = Return _ |- _ => apply IH in E
        | E : parse_elements fuel _ = Return _ |- _ => apply IH in E
        end; simpl in *; try lia.
    all: rewrite length_drop; lia.
  - intros vs r H. rewrite parse_elements_step in H.
    bind_inv H. repeat case_match; simplify_eq;
      try (bind_inv H; simplify_eq);
      repeat match goal with
        | E : skip_ws _ = _ :: _ |- _ => apply length_skip_ws_cons in E
        | E : scan_once fuel _ = Return _ |- _ => apply IH in E
        | E : parse_elements fuel _ = Return _ |- _ => apply IH in E
        end;
      try match goal with
        | E : (length ?r < length (skip_ws ?s))%nat |- _ =>
            pose proof (length_skip_ws s)
        end; simpl in *; lia.
  - intros ps r H. rewrite parse_members_step in H.
    bind_inv H. repeat case_match; simplify_eq;
      try (bind_inv H; repeat case_match; simplify_eq);
      try (bind_inv H; simplify_eq);
      repeat match goal with
        | E : skip_ws _ = _ :: _ |- _ => apply length_skip_ws_cons in E
        | E : scanstring _ = Return _ |- _ => apply length_scanstring in E
        | E : scan_once fuel _ = Return _ |- _ => apply IH in E
        | E : parse_members fuel _ = Return _ |- _ => apply IH in E
        end;
      repeat match goal with
        | E : (length ?r < length (skip_ws ?s))%nat |- _ =>
            pose proof (length_skip_ws s); revert E
        end; intros; simpl in *; lia.
Qed.

Lemma fuel_irrelevant f1 :
  forall f2 s,
    ((2 * length s + 1 <= f1)%nat -> (2 * length s + 1 <= f2)%nat ->
     scan_once f1 s = scan_once f2 s) /\
    ((2 * length s + 2 <= f1)%nat -> (2 * length s + 2 <= f2)%nat ->
     parse_elements f1 s = parse_elements f2 s) /\
    ((2 * length s + 2 <= f1)%nat -> (2 * length s + 2 <= f2)%nat ->
     parse_members f1 s = parse_members f2 s).
Proof.
  induction f1 as [|f1 IH]; intros f2 s; [split_and!; lia|].
  destruct f2 as [|f2]; [split_and!; lia|].
  split_and!; intros H1 H2.
  - rewrite !scan_once_step. destruct s as [|c s]; [done|]. simpl in H1, H2.
    repeat case_match; try reflexivity;
      match goal with
      | E : skip_ws _ = _ :: _ |- _ => apply length_skip_ws_cons in E
      end.
    + rewrite (proj2 (proj2 (IH f2 l))); [done|lia..].
    + rewrite (proj1 (proj2 (IH f2 (a :: l)))); [done|simpl; lia..].
  - rewrite !parse_elements_step.
    rewrite (proj1 (IH f2 s)); [|lia..].
    destruct (scan_once f2 s) as [[v r]| |] eqn:E; simpl; try reflexivity.
    apply length_scanned in E.
    repeat case_match; try reflexivity.
    match goal with
    | E' : skip_ws _ = _ :: _ |- _ => apply length_skip_ws_cons in E'
    end.
    pose proof (length_skip_ws l).
    rewrite (proj1 (proj2 (IH f2 (skip_ws l)))); [done|lia..].
  - rewrite !parse_members_step.
    destruct (scanstring s) as [[key r]| |] eqn:E; simpl; try reflexivity.
    apply length_scanstring in E.
    repeat case_match; try reflexivity.
    match goal with
    | E' : skip_ws _ = _ :: _ |- _ => apply length_skip_ws_cons in E'
    end.
    pose proof (length_skip_ws l).
    rewrite (proj1 (IH f2 (skip_ws l))); [|lia..].
    destruct (scan_once f2 (skip_ws l)) as [[v r2]| |] eqn:E2; simpl;
      try reflexivity.
    apply length_scanned in E2.
    repeat case_match; try reflexivity.
    repeat match goal with
    | E' : skip_ws _ = _ :: _ |- _ => apply length_skip_ws_cons in E'
    end.
    rewrite (proj2 (proj2 (IH f2 _))); [done|lia..].
Qed.

(** The fuel [json_loads] gives is enough: more of it changes nothing. *)
Lemma json_loads_fuel (s : string) (extra : nat) :
  scan_once (2 * length (chars s) + 2 + extra) (skip_ws (chars s))
  = scan_once (2 * length (chars s) + 2) (skip_ws (chars s)).
Proof.
  pose proof (length_skip_ws (chars s)).
  apply fuel_irrelevant; lia.
Qed.

(** *** Enough fuel *)

Lemma sum_list_with_le {A} (f g : A -> nat) (l : list A) :
  Forall (fun x => (f x <= g x)%nat) l ->
  (sum_list_with f l <= sum_list_with g l)%nat.
Proof. induction 1; simpl in *; lia. Qed.

Lemma sum_list_with_map {A B} (f : B -> nat) (g : A -> B) (l : list A) :
  sum_list_with f (map g l) = sum_list_with (fun x => f (g x)) l.
Proof. induction l; simpl; auto. Qed.

Lemma sum_list_with_double {A} (f : A -> nat) (l : list A) :
  sum_list_with (fun x => (2 * f x)%nat) l = (2 * sum_list_with f l)%nat.
Proof.
  induction l as [|a l IH]; [done|].
  change (2 * f a + sum_list_with (fun x => 2 * f x) l
          = 2 * (f a + sum_list_with f l))%nat.
  lia.
Qed.

Lemma length_join sep (parts : list text) :
  (sum_list_with length parts <= length (join sep parts))%nat.
Proof.
  induction parts as [|p ps IH]; [simpl; lia|].
  destruct ps as [|q ps]; [rewrite join_one; simpl; lia|].
  rewrite join_cons, !length_app.
  change (sum_list_with length (p :: q :: ps))
    with (length p + sum_list_with length (q :: ps))%nat.
  lia.
Qed.

Lemma length_enclose indent level opening closing parts :
  (2 + sum_list_with length parts
   <= length (enclose indent level opening closing parts))%nat.
Proof.
  unfold enclose. destruct parts as [|p ps]; [simpl; lia|].
  pose proof (length_join (chars ", ") (p :: ps)).
  destruct indent as [n|]; simpl length; rewrite ?length_app; simpl length.
  - pose proof (length_join (","%char :: newline_indent n (S level)) (p :: ps)).
    rewrite !length_app. simpl length. lia.
  - change (chars ", ") with [","%char; " "%char] in H. lia.
Qed.

Lemma length_encode_member k txt :
  (length txt <= length (encode_member (k, txt)))%nat.
Proof. unfold encode_member. cbn [fst snd]. rewrite !length_app. lia. Qed.

Lemma weight_le_length indent v :
  forall level, (S (weight v) <= 2 * length (json_encode indent level v))%nat.
Proof.
  induction v as [| b | n | s | l IH | d IH] using pyval_nested_ind;
    intros level.
  - simpl. lia.
  - destruct b; simpl; lia.
  - change (json_encode indent level (PInt n)) with (int_repr n).
    pose proof (int_repr_nonempty n). destruct (int_repr n); [done|]. simpl. lia.
  - simpl. rewrite length_app. simpl. lia.
  - rewrite json_encode_list.
    pose proof (length_enclose indent level "[" "]"
                  (map (json_encode indent (S level)) l)) as H.
    rewrite sum_list_with_map in H.
    assert (sum_list_with (fun x => S (weight x)) l
            <= sum_list_with
                 (fun x => 2 * length (json_encode indent (S level) x)) l)%nat.
    { apply sum_list_with_le. rewrite Forall_forall in IH |- *.
      intros x Hx. apply (IH x Hx). }
    rewrite sum_list_with_double in *. simpl weight. lia.
  - rewrite json_encode_dict.
    pose proof (length_enclose indent level "{" "}"
      (map encode_member
         (sort_items
            (map (fun p => (fst p, json_encode indent (S level) (snd p))) d))))
      as H.
    assert (E : forall L : list (string * text),
              sum_list_with (fun x => length (encode_member x)) (sort_items L)
              = sum_list_with (fun x => length (encode_member x)) L)
      by (intros L; by rewrite sort_items_Permutation).
    rewrite sum_list_with_map, E, sum_list_with_map in H. clear E.
    assert (sum_list_with (fun p => S (weight (snd p))) d
            <= sum_list_with
                 (fun x => 2 * length (encode_member
                    (fst x, json_encode indent (S level) (snd x)))) d)%nat.
    { apply sum_list_with_le. rewrite Forall_forall in IH |- *.
      intros x Hx. specialize (IH x Hx (S level)).
      pose proof (length_encode_member (fst x)
                    (json_encode indent (S level) (snd x))). lia. }
    rewrite sum_list_with_double in *. simpl weight. lia.
Qed.

(** *** [json.loads(json.dumps(v))] *)

Lemma json_loads_dumps indent v :
  wf v = true -> json_loads (json_dumps indent v) = Return (canon v).
Proof.
  intros Hwf. unfold json_loads, json_dumps, chars.
  rewrite list_ascii_of_string_of_list_ascii.
  destruct (json_encode_head indent 0 v) as (c & t & Hc & Hv).
  rewrite Hc at 2. rewrite (skip_ws_value _ _ Hv), <- Hc.
  rewrite <- (app_nil_r (json_encode indent 0 v)) at 2.
  rewrite (json_encode_reads_back v Hwf indent 0%nat []); [done|done|].
  pose proof (weight_le_length indent v 0). lia.
Qed.

(** *** The canonical form is equal to the value *)

Lemma py_eq_canon v : wf v = true -> py_eq (canon v) v = true.
Proof.
  induction v as [| b | n | s | l IH | d IH] using pyval_nested_ind;
    intros Hwf; try (by apply py_eq_refl).
  - apply wf_list in Hwf. change (all2 py_eq (map canon l) l = true).
    induction IH as [|x l Hx _ IHl]; [done|].
    apply Forall_cons in Hwf as [??]. simpl. rewrite Hx, IHl; auto.
  - pose proof Hwf as [Hnd Hwf']%wf_dict. rewrite canon_dict.
    cbn [py_eq]. apply andb_true_iff. split.
    + rewrite (Permutation_length (sort_items_Permutation _)), length_map.
      apply Nat.eqb_refl.
    + apply forallb_forall. intros p Hp.
      apply list_elem_of_In in Hp. rewrite sort_items_Permutation in Hp.
      apply list_elem_of_In, in_map_iff in Hp as ([k v] & <- & Hq).
      apply list_elem_of_In in Hq. simpl.
      rewrite (dict_get_elem k v d Hnd Hq).
      rewrite Forall_forall in IH, Hwf'. apply (IH _ Hq), (Hwf' _ Hq).
Qed.

Lemma wf_dict_of_snapshot (S : snapshot) :
  snapshot_wf S -> wf (PDict (dict_of_snapshot S)) = true.
Proof.
  intros Hwf. apply wf_dict. unfold dict_of_snapshot. split.
  - apply (NoDup_fst_map_to_list S).
  - apply Forall_forall. intros [k v] Hkv%elem_of_map_to_list.
    apply (Hwf k v Hkv).
Qed.

Lemma snapshot_of_canon (S : snapshot) :
  snapshot_of_dict
    (sort_items (map (fun p => (fst p, canon (snd p))) (dict_of_snapshot S)))
  = canon <$> S.
Proof.
  unfold snapshot_of_dict, dict_of_snapshot.
  rewrite (list_to_map_proper _
             (map (fun p => (fst p, canon (snd p))) (map_to_list S))).
  - change (map (fun p => (fst p, canon (snd p))) (map_to_list S))
      with (prod_map id canon <$> map_to_list S).
    by rewrite list_to_map_fmap, list_to_map_to_list.
  - change (NoDup (map fst (sort_items
             (map (fun p => (fst p, canon (snd p))) (map_to_list S))))).
    rewrite (Permutation_map fst (sort_items_Permutation _)), map_fst_relabel.
    apply (NoDup_fst_map_to_list S).
  - apply sort_items_Permutation.
Qed.

(** C7.  Saving a snapshot and loading it from the same place gives the
    snapshot back: the loaded snapshot is the saved one with the keys of
    every object in ascending order, which is equal to the saved one
    under Python's [==]. *)
Theorem save_then_load path (S : snapshot) fs :
  snapshot_wf S ->
  let fs' := snd (save_snapshot path S fs) in
  load_snapshot path fs' = (Return (canon <$> S), fs') /\
  snapshot_eq (canon <$> S) S.
Proof.
  intros Hwf fs'. split.
  - unfold fs', save_snapshot, load_snapshot. simpl.
    rewrite lookup_insert_eq.
    rewrite (json_loads_dumps _ _ (wf_dict_of_snapshot S Hwf)).
    rewrite canon_dict. simpl. by rewrite snapshot_of_canon.
  - split; [apply dom_fmap_L|].
    intros k a b Ha Hb. rewrite lookup_fmap, Hb in Ha. injection Ha as <-.
    apply py_eq_canon, (Hwf k b Hb).
Qed.

Lemma save_then_load_witness :
  let S := build_snapshot
             [[("id", PStr "2"); ("status", PStr "Current")];
              [("status", PStr "Resolved"); ("id", PInt 1);
               ("notes", PList [PNone; PBool true; PInt (-40)])]] in
  let fs' := snd (save_snapshot "data/shortage_snapshot.json" S ∅) in
  snapshot_wf S /\
  load_snapshot "data/shortage_snapshot.json" fs' = (Return (canon <$> S), fs') /\
  snapshot_eq (canon <$> S) S.
Proof.
  assert (Hwf : snapshot_wf
    (build_snapshot
       [[("id", PStr "2"); ("status", PStr "Current")];
        [("status", PStr "Resolved"); ("id", PInt 1);
         ("notes", PList [PNone; PBool true; PInt (-40)])]])).
  { apply (bool_decide_unpack _). vm_compute. exact I. }
  split; [exact Hwf|].
  apply (save_then_load "data/shortage_snapshot.json" _ ∅ Hwf).
Defined.

(** ** Decoded values keep the representation invariant *)

Lemma dict_set_keys k v (d : dict) :
  forall k', k' ∈ map fst (dict_set k v d) <-> k' = k \/ k' ∈ map fst d.
Proof.
  induction d as [|[k0 v0] d IH]; intros k'; simpl.
  - rewrite elem_of_cons. split; [intros [?|?%elem_of_nil]; auto|intros [?|?%elem_of_nil]; auto]; done.
  - destruct (String.eqb_spec k0 k) as [->|Hne]; simpl.
    + rewrite !elem_of_cons. intuition (subst; auto).
    + rewrite !elem_of_cons, IH. intuition (subst; auto).
Qed.

Lemma dict_set_NoDup k v (d : dict) :
  NoDup (map fst d) -> NoDup (map fst (dict_set k v d)).
Proof.
  induction d as [|[k0 v0] d IH]; simpl; intros Hnd.
  - apply NoDup_singleton.
  - apply NoDup_cons in Hnd as [Hk0 Hnd].
    destruct (String.eqb_spec k0 k) as [->|Hne]; simpl.
    + by apply NoDup_cons.
    + apply NoDup_cons. split; [|by apply IH].
      rewrite dict_set_keys. intuition (subst; auto).
Qed.

Lemma dict_set_values (P : pyval -> Prop) k v (d : dict) :
  P v -> Forall (fun p => P (snd p)) d ->
  Forall (fun p => P (snd p)) (dict_set k v d).
Proof.
  intros Hv. induction 1 as [|[k0 v0] d Hx Hd IH]; simpl.
  - by repeat constructor.
  - destruct (String.eqb k0 k); constructor; auto.
Qed.

Lemma dict_of_pairs_wf (pairs : dict) :
  Forall (fun p => wf (snd p) = true) pairs ->
  wf (PDict (dict_of_pairs pairs)) = true.
Proof.
  unfold dict_of_pairs. intros Hp.
  assert (H : forall acc : dict,
    wf (PDict acc) = true ->
    wf (PDict (fold_left (fun d p => dict_set (fst p) (snd p) d) pairs acc)) = true).
  { induction Hp as [|[k v] pairs Hv _ IH]; intros acc Hacc; simpl; [done|].
    apply IH. apply wf_dict in Hacc as [Hnd Hvals]. apply wf_dict. split.
    - by apply dict_set_NoDup.
    - by apply (dict_set_values (fun v => wf v = true)). }
  by apply H.
Qed.

Lemma scan_number_wf s v r : scan_number s = Return (v, r) -> wf v = true.
Proof.
  unfold scan_number. intros H. repeat case_match; simplify_eq; done.
Qed.

Lemma scanned_wf fuel :
  forall s,
    (forall v r, scan_once fuel s = Return (v, r) -> wf v = true) /\
    (forall vs r, parse_elements fuel s = Return (vs, r) ->
       Forall (fun v => wf v = true) vs) /\
    (forall ps r, parse_members fuel s = Return (ps, r) ->
       Forall (fun p => wf (snd p) = true) ps).
Proof.
  induction fuel as [|fuel IH]; intros s; [by split_and!|].
  split_and!.
  - intros v r H. rewrite scan_once_step in H.
    destruct s as [|c s]; [done|].
    repeat case_match; simplify_eq; try done;
      try (bind_inv H; simplify_eq); try done.
    + apply IH in E. by apply dict_of_pairs_wf.
    + apply IH in E. by apply wf_list.
    + by apply scan_number_wf in H.
  - intros vs r H. rewrite parse_elements_step in H.
    bind_inv H. apply IH in E.
    repeat case_match; simplify_eq; try (bind_inv H; simplify_eq).
    + by repeat constructor.
    + constructor; [done|]. by apply IH in E0.
  - intros ps r H. rewrite parse_members_step in H.
    bind_inv H. repeat case_match; simplify_eq;
      try (bind_inv H; repeat case_match; simplify_eq);
      try (bind_inv H; simplify_eq).
    + apply IH in E0. by repeat constructor.
    + apply IH in E0. apply IH in E1. by constructor.
Qed.

Lemma json_loads_wf s v : json_loads s = Return v -> wf v = true.
Proof.
  unfold json_loads. intros H. bind_inv H.
  apply scanned_wf in E. by repeat case_match; simplify_eq.
Qed.

(** ** Fetch client: the records kept *)

Lemma keep_dicts_filter items : map PDict (keep_dicts items) = List.filter is_dict items.
Proof.
  induction items as [|[| | | | |d] items IH]; simpl; auto. by rewrite IH.
Qed.

Lemma keep_dicts_wf items :
  Forall (fun v => wf v = true) items ->
  Forall (fun r => wf (PDict r) = true) (keep_dicts items).
Proof.
  induction 1 as [|[| | | | |d] items Hx _ IH]; simpl; auto.
Qed.

Lemma dict_get_elem_of k v (d : dict) : dict_get k d = Some v -> (k, v) ∈ d.
Proof.
  induction d as [|[k' v'] d IH]; simpl; [done|].
  destruct (String.eqb_spec k' k) as [->|Hne].
  - intros [= ->]. left.
  - intros ?. right. by apply IH.
Qed.

Lemma fetch_records_wf net records :
  fetch_shortage_records net = Return records ->
  Forall (fun r => wf (PDict r) = true) records.
Proof.
  destruct net as [code reason|reason|body]; simpl; [done..|].
  intros H. destruct (json_loads body) as [p| |] eqn:E; [|done..].
  apply json_loads_wf in E. simpl in H.
  unfold results_of_payload in H. destruct p as [| | | | |d]; try done.
  unfold dict_get_default in H.
  destruct (dict_get "results" d) as [v|] eqn:Hr.
  - destruct v as [| | | |items|]; simplify_eq.
    apply keep_dicts_wf, wf_list.
    apply wf_dict in E as [Hnd Hv].
    apply dict_get_elem_of in Hr.
    rewrite Forall_forall in Hv. apply (Hv _ Hr).
  - simplify_eq. constructor.
Qed.

(** X3.  When the body is a JSON object whose [results] is a list, the
    fetch succeeds and returns the items of that list that are objects,
    in the order of the list; every other item is dropped without an
    error. *)
Theorem fetch_keeps_object_items body d items :
  json_loads body = Return (PDict d) ->
  dict_get "results" d = Some (PList items) ->
  exists records,
    fetch_shortage_records (Body body) = Return records /\
    PDict <$> records = List.filter is_dict items /\
    (length records <= length items)%nat.
Proof.
  intros Hbody Hres. exists (keep_dicts items).
  assert (Hf : fetch_shortage_records (Body body) = Return (keep_dicts items)).
  { unfold fetch_shortage_records. rewrite Hbody. simpl.
    unfold dict_get_default. by rewrite Hres. }
  split_and!; [done|apply keep_dicts_filter|].
  rewrite <- (length_fmap PDict).
  change (PDict <$> keep_dicts items) with (map PDict (keep_dicts items)).
  rewrite keep_dicts_filter. apply List.filter_length_le.
Qed.

Lemma fetch_keeps_object_items_witness :
  let d := [("results", PList [PDict [("id", PStr "1")]; PInt 3; PStr "x"; PDict []])] in
  exists records,
    fetch_shortage_records (Body (json_dumps None (PDict d))) = Return records /\
    PDict <$> records
    = List.filter is_dict [PDict [("id", PStr "1")]; PInt 3; PStr "x"; PDict []] /\
    (length records <= 4)%nat.
Proof.
  intros d.
  apply (fetch_keeps_object_items (json_dumps None (PDict d)) d
           [PDict [("id", PStr "1")]; PInt 3; PStr "x"; PDict []]);
    reflexivity.
Defined.

(** ** Record normalizer: the other fields, and the fallback key *)

Lemma pick_first_cases record fields :
  _pick_first record fields = PNone \/
  exists f, f ∈ fields /\
    dict_get f record = Some (_pick_first record fields) /\
    usable (_pick_first record fields) = true.
Proof.
  induction fields as [|f fields IH]; simpl; [by left|].
  rewrite not_in_none_empty. unfold dict_get_default.
  destruct (dict_get f record) as [v|] eqn:E; simpl.
  - destruct (usable v) eqn:Hu.
    + right. exists f. split; [left|done].
    + destruct IH as [?|(g & ? & ? & ?)]; [by left|].
      right. exists g. split; [by right|done].
  - destruct IH as [?|(g & ? & ? & ?)]; [by left|].
    right. exists g. split; [by right|done].
Qed.

Lemma pick_first_wf record fields :
  wf (PDict record) = true -> wf (_pick_first record fields) = true.
Proof.
  intros [_ Hv]%wf_dict.
  destruct (pick_first_cases record fields) as [->|(f & _ & Hf & _)]; [done|].
  apply dict_get_elem_of in Hf. rewrite Forall_forall in Hv. apply (Hv _ Hf).
Qed.

Lemma normalize_record_wf record :
  wf (PDict record) = true -> wf (normalize_record record) = true.
Proof.
  intros Hwf. unfold normalize_record.
  change (wf (PDict ?d)) with
    (distinct (map fst d) && forallb (fun p => wf (snd p)) d).
  cbn [map fst snd forallb]. rewrite !pick_first_wf, Hwf by done. reflexivity.
Qed.

(** X4.  The normalized record has the six fields [key], [drug_name],
    [status], [reason], [last_updated] and [raw], in this order: [raw] is
    the record as fetched, and each of the four display fields is the
    first value that counts among its alternative field names, or [None]
    when none counts; a value that counts is neither [None] nor the empty
    string and is the value of one of those fields in the record. *)
Theorem normalize_record_fields record :
  normalize_record record
  = PDict
      [("key", PStr (_record_key record));
       ("drug_name",
        default PNone
          (first_usable record
             ["drug_name"; "proprietary_name"; "generic_name";
              "product_description"]));
       ("status",
        default PNone
          (first_usable record
             ["status"; "shortage_status"; "current_status";
              "availability_status"]));
       ("reason",
        default PNone
          (first_usable record
             ["reason"; "reason_for_shortage"; "shortage_reason"]));
       ("last_updated",
        default PNone
          (first_usable record
             ["last_updated"; "revision_date"; "updated_at"; "created"]));
       ("raw", PDict record)] /\
  (forall fields v,
     first_usable record fields = Some v ->
     v <> PNone /\ v <> PStr EmptyString /\
     exists f, f ∈ fields /\ dict_get f record = Some v).
Proof.
  split.
  - unfold normalize_record. by rewrite !pick_first_first_usable.
  - intros fields v Hv. pose proof (first_usable_usable _ _ _ Hv) as Hu.
    split_and!; try (intros ->; done).
    destruct (pick_first_cases record fields) as [Hn|(f & Hf & Hg & _)];
      rewrite pick_first_first_usable, Hv in *; simpl in *.
    + by rewrite Hn in Hu.
    + eauto.
Qed.

Lemma json_dumps_same_text indent v1 v2 :
  wf v1 = true -> wf v2 = true ->
  json_dumps indent v1 = json_dumps indent v2 -> canon v1 = canon v2.
Proof.
  intros H1 H2 Heq.
  pose proof (json_loads_dumps indent v1 H1) as L1.
  pose proof (json_loads_dumps indent v2 H2) as L2.
  rewrite Heq in L1. congruence.
Qed.

(** X5.  Two records without a usable key field get the same key exactly
    when they are the same JSON document, that is equal up to the order
    of the fields inside every object. *)
Theorem fallback_key_collision r1 r2 :
  wf (PDict r1) = true -> wf (PDict r2) = true ->
  first_usable r1 key_fields = None -> first_usable r2 key_fields = None ->
  (_record_key r1 = _record_key r2 <-> canon (PDict r1) = canon (PDict r2)).
Proof.
  intros W1 W2 N1 N2. rewrite !record_key_first_usable, N1, N2. split.
  - by apply json_dumps_same_text.
  - by apply same_document_same_text.
Qed.

Lemma fallback_key_collision_witness :
  let r1 := [("a", PInt 1); ("b", PList [PNone])] in
  let r2 := [("b", PList [PNone]); ("a", PInt 1)] in
  _record_key r1 = _record_key r2 <-> canon (PDict r1) = canon (PDict r2).
Proof.
  intros r1 r2. apply (fallback_key_collision r1 r2); reflexivity.
Defined.

(** ** Snapshot builder: entries and input order *)

Lemma lookup_build_snapshot records k :
  build_snapshot records !! k
  = match last (filter (fun r => _record_key r = k) records) with
    | Some r => Some (normalize_record r)
    | None => None
    end.
Proof. unfold build_snapshot. by rewrite build_snapshot_fold, lookup_empty. Qed.

Lemma build_snapshot_wf records :
  Forall (fun r => wf (PDict r) = true) records ->
  snapshot_wf (build_snapshot records).
Proof.
  intros Hr k v. rewrite lookup_build_snapshot.
  destruct (last _) as [r|] eqn:E; [|done]. intros [= <-].
  apply normalize_record_wf. apply last_Some_elem_of in E.
  apply list_elem_of_filter in E as [_ E].
  rewrite Forall_forall in Hr. by apply Hr.
Qed.

Lemma build_snapshot_objects records : all_objects (build_snapshot records).
Proof.
  intros k v. rewrite lookup_build_snapshot.
  destruct (last _); [|done]. by intros [= <-].
Qed.

Lemma size_list_to_set_le (l : list string) :
  (size (list_to_set l : gset string) <= length l)%nat.
Proof.
  induction l as [|x l IH]; [done|]. cbn [list_to_set foldr length].
  change (list_to_set (x :: l) : gset string) with ({[x]} ∪ list_to_set l : gset string).
  rewrite size_union_alt, size_singleton.
  assert (size (list_to_set l ∖ {[x]} : gset string)
          <= size (list_to_set l : gset string))%nat.
  { apply subseteq_size. intros k [? _]%elem_of_difference. done. }
  lia.
Qed.

Lemma lookup_build_snapshot_record records k v :
  build_snapshot records !! k = Some v ->
  exists r, r ∈ records /\ _record_key r = k /\ v = normalize_record r.
Proof.
  rewrite lookup_build_snapshot.
  destruct (last _) as [r|] eqn:E; [|done]. intros [= <-].
  apply last_Some_elem_of, list_elem_of_filter in E as [? ?]. eauto.
Qed.

Lemma build_snapshot_keyed records : keyed (build_snapshot records).
Proof.
  intros k v (r & _ & <- & ->)%lookup_build_snapshot_record. reflexivity.
Qed.

(** X6.  Every entry of the snapshot is filed under its own [key] field
    and is the normalized form of an input record with that key; the keys
    of the snapshot are exactly the keys of the input records; the
    snapshot has at most as many entries as there are input records. *)
Theorem build_snapshot_entries records :
  (forall k v,
     build_snapshot records !! k = Some v ->
     normalized_key v = k /\
     exists r, r ∈ records /\ _record_key r = k /\ v = normalize_record r) /\
  (forall k, k ∈ dom (build_snapshot records) <->
             exists r, r ∈ records /\ _record_key r = k) /\
  (size (build_snapshot records) <= length records)%nat.
Proof.
  assert (Hlook : forall k v,
    build_snapshot records !! k = Some v ->
    exists r, r ∈ records /\ _record_key r = k /\ v = normalize_record r).
  { intros k v. rewrite lookup_build_snapshot.
    destruct (last _) as [r|] eqn:E; [|done]. intros [= <-].
    apply last_Some_elem_of, list_elem_of_filter in E as [? ?]. eauto. }
  assert (Hdom : forall k, k ∈ dom (build_snapshot records) <->
                           exists r, r ∈ records /\ _record_key r = k).
  { intros k. rewrite elem_of_dom. split.
    - intros [v (r & ? & ? & _)%Hlook]. eauto.
    - intros (r & Hr & Hk). rewrite lookup_build_snapshot.
      destruct (last _) as [r'|] eqn:E; [by eexists|].
      apply last_None in E.
      assert (r ∈ filter (fun r => _record_key r = k) records) as Hin
        by (by apply list_elem_of_filter).
      rewrite E in Hin. by apply elem_of_nil in Hin. }
  split_and!; [|done|].
  - intros k v Hv. destruct (Hlook k v Hv) as (r & ? & <- & ->). eauto.
  - rewrite <- size_dom.
    transitivity (size (list_to_set (_record_key <$> records) : gset string)).
    + apply subseteq_size. intros k (r & Hr & <-)%Hdom.
      apply elem_of_list_to_set, list_elem_of_fmap. eauto.
    + etransitivity; [apply size_list_to_set_le|]. by rewrite length_fmap.
Qed.

Lemma filter_none {A} (P : A -> Prop) `{forall x, Decision (P x)} (l : list A) :
  (forall x, x ∈ l -> ~ P x) -> filter P l = [].
Proof.
  induction l as [|x l IH]; intros Hl; [done|].
  rewrite filter_cons, decide_False by (apply Hl; left).
  apply IH. intros y Hy. apply Hl. by right.
Qed.

Lemma filter_key_short (records : list dict) k :
  NoDup (_record_key <$> records) ->
  (length (filter (fun r => _record_key r = k) records) <= 1)%nat.
Proof.
  induction records as [|r rs IH]; [simpl; lia|].
  rewrite fmap_cons, NoDup_cons, filter_cons. intros [Hr Hnd].
  destruct (decide (_record_key r = k)) as [<-|]; [|auto].
  rewrite filter_none; [simpl; lia|].
  intros r' Hr' Heq. apply Hr. rewrite <- Heq. by apply list_elem_of_fmap_2.
Qed.

(** X7.  When the input records have pairwise distinct keys, the
    snapshot does not depend on the order of the records. *)
Theorem build_snapshot_order records records' :
  records ≡ₚ records' ->
  NoDup (_record_key <$> records) ->
  build_snapshot records = build_snapshot records'.
Proof.
  intros Hp Hnd. apply map_eq. intros k.
  rewrite !lookup_build_snapshot. do 2 f_equal.
  pose proof (filter_key_short records k Hnd) as Hlen.
  assert (Hf : filter (fun r => _record_key r = k) records
               ≡ₚ filter (fun r => _record_key r = k) records')
    by (by rewrite Hp).
  destruct (filter _ records) as [|x [|y l]]; simpl in Hlen.
  - by apply Permutation_nil_l in Hf as <-.
  - by apply Permutation_singleton_l in Hf as <-.
  - lia.
Qed.

Lemma build_snapshot_order_witness :
  let r1 := [("id", PStr "1"); ("status", PStr "Current")] in
  let r2 := [("id", PStr "2"); ("status", PStr "Resolved")] in
  [r1; r2] ≡ₚ [r2; r1] /\
  build_snapshot [r1; r2] = build_snapshot [r2; r1].
Proof.
  intros r1 r2.
  assert (Hp : [r1; r2] ≡ₚ [r2; r1]) by apply perm_swap.
  split; [exact Hp|]. apply (build_snapshot_order [r1; r2] [r2; r1] Hp).
  apply (bool_decide_unpack _). vm_compute. exact I.
Defined.

(** ** Differ: the empty diff and the counts *)

Lemma sorted_nil (X : gset string) : sorted X = [] <-> X = ∅.
Proof.
  split.
  - intros H. apply set_eq. intros k. rewrite <- elem_of_sorted, H.
    split; [intros ?%elem_of_nil; done|intros ?%elem_of_empty; done].
  - intros ->. unfold sorted. by rewrite elements_empty.
Qed.

Lemma length_sorted (X : gset string) : length (sorted X) = size X.
Proof. unfold sorted. by rewrite merge_sort_Permutation. Qed.

Lemma diff_of_equal old new :
  snapshot_eq old new -> diff_snapshots old new = empty_diff.
Proof.
  intros [Hdom Heq]. unfold diff_snapshots, empty_diff.
  rewrite Hdom, difference_diag_L. unfold sorted at 1 2.
  rewrite elements_empty. simpl. f_equal.
  apply flat_map_nil. intros k Hk%elem_of_sorted.
  apply elem_of_intersection in Hk as [Hk _].
  pose proof Hk as Hk'. rewrite <- Hdom in Hk'.
  apply lookup_total_dom in Hk, Hk'.
  by rewrite (Heq k _ _ Hk' Hk).
Qed.

(** X8.  The diff of two snapshots has nothing added, nothing removed
    and nothing changed exactly when the two snapshots are equal under
    Python's [==]. *)
Theorem diff_empty_iff_equal old new :
  diff_snapshots old new = empty_diff <-> snapshot_eq old new.
Proof.
  split; [|apply diff_of_equal].
  intros H.
  assert (Ha : added_keys old new = []).
  { apply (f_equal added) in H. simpl in H. by apply fmap_nil_inv in H. }
  assert (Hr : removed_keys old new = []).
  { apply (f_equal removed) in H. simpl in H. by apply fmap_nil_inv in H. }
  assert (Hc : changed_keys (diff_snapshots old new) = []) by (by rewrite H).
  apply sorted_nil in Ha, Hr. split.
  - apply set_eq. intros k. split; intros Hk.
    + destruct (decide (k ∈ dom new)) as [|Hn]; [done|].
      assert (k ∈ dom old ∖ dom new) as Hin by (by apply elem_of_difference).
      rewrite Hr in Hin. by apply elem_of_empty in Hin.
    + destruct (decide (k ∈ dom old)) as [|Hn]; [done|].
      assert (k ∈ dom new ∖ dom old) as Hin by (by apply elem_of_difference).
      rewrite Ha in Hin. by apply elem_of_empty in Hin.
  - intros k a b Hka Hkb. destruct (py_eq a b) eqn:E; [done|].
    assert (k ∈ changed_keys (diff_snapshots old new)) as Hin
      by (apply elem_of_changed_keys; eauto).
    rewrite Hc in Hin. by apply elem_of_nil in Hin.
Qed.

Lemma diff_from_nothing (snap : snapshot) :
  diff_snapshots ∅ snap
  = {| added := (fun k => snap !!! k) <$> sorted (dom snap);
       removed := []; changed := [] |}.
Proof.
  unfold diff_snapshots. rewrite dom_empty_L.
  rewrite difference_empty_L, empty_difference_L, (left_absorb_L ∅ (∩)).
  unfold sorted at 2 3. by rewrite elements_empty.
Qed.

(** X9.  The diff has one added record per key of the new snapshot
    missing in the old one, one removed record per key of the old
    snapshot missing in the new one, and at most one changed entry per
    common key; the sizes balance:
    [len(new) + len(removed) = len(old) + len(added)]. *)
Theorem diff_counts old new :
  length (added (diff_snapshots old new)) = size (dom new ∖ dom old) /\
  length (removed (diff_snapshots old new)) = size (dom old ∖ dom new) /\
  (length (changed (diff_snapshots old new)) <= size (dom old ∩ dom new))%nat /\
  (size new + length (removed (diff_snapshots old new))
   = size old + length (added (diff_snapshots old new)))%nat.
Proof.
  assert (Ha : length (added (diff_snapshots old new)) = size (dom new ∖ dom old)).
  { unfold diff_snapshots; simpl. by rewrite length_fmap, length_sorted. }
  assert (Hr : length (removed (diff_snapshots old new)) = size (dom old ∖ dom new)).
  { unfold diff_snapshots; simpl. by rewrite length_fmap, length_sorted. }
  split_and!; [done|done| |].
  - rewrite <- (length_fmap normalized_key).
    change (normalized_key <$> changed (diff_snapshots old new))
      with (changed_keys (diff_snapshots old new)).
    rewrite changed_keys_filter, <- length_sorted. apply length_filter.
  - rewrite Ha, Hr, <- !size_dom.
    assert (S1 : size (dom new)
                 = (size (dom new ∖ dom old) + size (dom old ∩ dom new))%nat).
    { rewrite <- size_union.
      - f_equal. apply set_eq. intros k.
        rewrite elem_of_union, elem_of_difference, elem_of_intersection.
        destruct (decide (k ∈ dom old)); tauto.
      - apply elem_of_disjoint.
        intros k [_ Hk]%elem_of_difference [Hk' _]%elem_of_intersection. done. }
    assert (S2 : size (dom old)
                 = (size (dom old ∖ dom new) + size (dom old ∩ dom new))%nat).
    { rewrite <- size_union.
      - f_equal. apply set_eq. intros k.
        rewrite elem_of_union, elem_of_difference, elem_of_intersection.
        destruct (decide (k ∈ dom new)); tauto.
      - apply elem_of_disjoint.
        intros k [_ Hk]%elem_of_difference [_ Hk']%elem_of_intersection. done. }
    lia.
Qed.

Lemma added_objects old new :
  all_objects new ->
  Forall (fun item => is_dict item = true) (added (diff_snapshots old new)).
Proof.
  intros Hn. unfold diff_snapshots; simpl. apply Forall_fmap, Forall_forall.
  intros k [Hk _]%elem_of_sorted%elem_of_difference.
  apply (Hn k), lookup_total_dom, Hk.
Qed.

Lemma removed_objects old new :
  all_objects old ->
  Forall (fun item => is_dict item = true) (removed (diff_snapshots old new)).
Proof.
  intros Ho. unfold diff_snapshots; simpl. apply Forall_fmap, Forall_forall.
  intros k [Hk _]%elem_of_sorted%elem_of_difference.
  apply (Ho k), lookup_total_dom, Hk.
Qed.

(** ** Differ: the comparison the other way round *)

Lemma dict_sub_swap (f g : pyval -> pyval -> bool) (d d' : dict) :
  NoDup (map fst d) -> NoDup (map fst d') -> length d = length d' ->
  (forall k v v', (k, v) ∈ d -> (k, v') ∈ d' -> f v v' = true -> g v' v = true) ->
  forallb (fun p => match dict_get (fst p) d' with
                    | Some v' => f (snd p) v'
                    | None => false
                    end) d = true ->
  forallb (fun p => match dict_get (fst p) d with
                    | Some v => g (snd p) v
                    | None => false
                    end) d' = true.
Proof.
  intros Hnd Hnd' Hlen Hfg Hsub. rewrite forallb_forall in Hsub.
  assert (Hkeys : map fst d ⊆ map fst d').
  { intros k ((k0 & v) & -> & Hin)%list_elem_of_fmap. simpl.
    specialize (Hsub _ (proj1 (list_elem_of_In _ _) Hin)). simpl in Hsub.
    destruct (dict_get k0 d') as [v'|] eqn:E; [|done].
    apply dict_get_elem_of in E. apply list_elem_of_fmap. by exists (k0, v'). }
  assert (Hperm : map fst d ≡ₚ map fst d').
  { apply submseteq_length_Permutation.
    - by apply NoDup_submseteq.
    - by rewrite !length_map, Hlen. }
  apply forallb_forall. intros [k' v'] Hin'%list_elem_of_In. simpl.
  assert (k' ∈ map fst d) as ((k0 & v) & Hk & Hin)%list_elem_of_fmap.
  { rewrite Hperm. apply list_elem_of_fmap. by exists (k', v'). }
  simpl in Hk. subst k0. rewrite (dict_get_elem k' v d Hnd Hin).
  apply (Hfg k' v v' Hin Hin').
  specialize (Hsub _ (proj1 (list_elem_of_In _ _) Hin)). simpl in Hsub.
  by rewrite (dict_get_elem k' v' d' Hnd' Hin') in Hsub.
Qed.

Lemma py_eq_sym a : forall b, wf a = true -> wf b = true -> py_eq a b = py_eq b a.
Proof.
  induction a as [| x | n | s | l IH | d IH] using pyval_nested_ind;
    intros b Ha Hb; destruct b as [| y | m | t | l' | d']; try reflexivity.
  - by destruct x, y.
  - apply Z.eqb_sym.
  - apply Z.eqb_sym.
  - apply Z.eqb_sym.
  - apply String.eqb_sym.
  - apply wf_list in Ha, Hb. change (all2 py_eq l l' = all2 py_eq l' l).
    revert l' Hb. induction IH as [|x l Hx _ IHl]; intros [|y l'] Hb; try done.
    apply Forall_cons in Ha as [Hwx Ha]. apply Forall_cons in Hb as [Hwy Hb].
    simpl. by rewrite (Hx y Hwx Hwy), (IHl Ha l' Hb).
  - apply wf_dict in Ha as [Hnd Hwf]. apply wf_dict in Hb as [Hnd' Hwf'].
    rewrite Forall_forall in IH, Hwf, Hwf'.
    cbn [py_eq]. rewrite (Nat.eqb_sym (length d')).
    destruct (Nat.eqb_spec (length d) (length d')) as [Hlen|]; [|done].
    cbn [andb]. apply eq_true_iff_eq. split.
    + apply dict_sub_swap; try done. intros k v v' Hin Hin' H.
      pose proof (IH _ Hin v' (Hwf _ Hin) (Hwf' _ Hin')) as E. simpl in E.
      by rewrite <- E.
    + apply dict_sub_swap; try done. intros k v' v Hin' Hin H.
      pose proof (IH _ Hin v' (Hwf _ Hin) (Hwf' _ Hin')) as E. simpl in E.
      by rewrite E.
Qed.

(** X20.  Comparing two snapshots the other way round exchanges [added]
    and [removed] and turns every [changed] entry around: the same keys,
    in the same order, with [before] and [after] exchanged. *)
Theorem diff_snapshots_mirror old new :
  snapshot_wf old -> snapshot_wf new ->
  added (diff_snapshots new old) = removed (diff_snapshots old new) /\
  removed (diff_snapshots new old) = added (diff_snapshots old new) /\
  changed (diff_snapshots new old) = turn_around <$> changed (diff_snapshots old new).
Proof.
  intros Ho Hn. split_and!; [done|done|].
  unfold diff_snapshots; cbn [changed].
  rewrite (comm_L (∩) (dom new) (dom old)).
  assert (Hk : Forall (fun k => k ∈ dom old ∩ dom new) (sorted (dom old ∩ dom new)))
    by (apply Forall_forall; intros k; apply elem_of_sorted).
  induction Hk as [|k ks [Hko Hkn]%elem_of_intersection _ IH]; [done|].
  cbn [flat_map]. rewrite fmap_app, IH. f_equal.
  apply lookup_total_dom in Hko, Hkn.
  rewrite (py_eq_sym (new !!! k) (old !!! k) (Hn _ _ Hkn) (Ho _ _ Hko)).
  by destruct (py_eq (old !!! k) (new !!! k)).
Qed.

Lemma diff_snapshots_mirror_witness :
  let old := build_snapshot [[("id", PStr "1"); ("status", PStr "Current")];
                             [("id", PStr "2")]] in
  let new := build_snapshot [[("id", PStr "1"); ("status", PStr "Resolved")];
                             [("id", PStr "3")]] in
  added (diff_snapshots new old) = removed (diff_snapshots old new) /\
  removed (diff_snapshots new old) = added (diff_snapshots old new) /\
  changed (diff_snapshots new old) = turn_around <$> changed (diff_snapshots old new).
Proof.
  intros old new. apply (diff_snapshots_mirror old new).
  - apply (bool_decide_unpack _). vm_compute. exact I.
  - apply (bool_decide_unpack _). vm_compute. exact I.
Defined.

(** ** The pipeline, run after run *)

Lemma track_shortages_unfold path net save fs :
  track_shortages path net save fs
  = match fetch_shortage_records net with
    | Return records =>
        match load_snapshot path fs with
        | (Return old, fs1) =>
            (Return (length records,
                     diff_snapshots old (build_snapshot records)),
             if save
             then <[path := json_dumps (Some 2%nat)
                              (PDict (dict_of_snapshot (build_snapshot records)))]> fs1
             else fs1)
        | (Raise e, fs1) => (Raise e, fs1)
        | (Unmodelled, fs1) => (Unmodelled, fs1)
        end
    | Raise e => (Raise e, fs)
    | Unmodelled => (Unmodelled, fs)
    end.
Proof.
  unfold track_shortages, and_then, lift.
  destruct (fetch_shortage_records net); [|done..].
  destruct (load_snapshot path fs) as [[old| |] fs1]; [|done..].
  by destruct save.
Qed.

Lemma track_shortages_run path net save fs records old :
  fetch_shortage_records net = Return records ->
  load_snapshot path fs = (Return old, fs) ->
  track_shortages path net save fs
  = (Return (length records, diff_snapshots old (build_snapshot records)),
     if save then <[path := saved_text (build_snapshot records)]> fs else fs).
Proof. intros Hf Hl. by rewrite track_shortages_unfold, Hf, Hl. Qed.

Lemma track_shortages_returns path net save fs total d fs' :
  track_shortages path net save fs = (Return (total, d), fs') ->
  exists records old,
    fetch_shortage_records net = Return records /\
    load_snapshot path fs = (Return old, fs) /\
    total = length records /\
    d = diff_snapshots old (build_snapshot records) /\
    fs' = if save
          then <[path := json_dumps (Some 2%nat)
                           (PDict (dict_of_snapshot (build_snapshot records)))]> fs
          else fs.
Proof.
  rewrite track_shortages_unfold.
  destruct (fetch_shortage_records net) as [records| |]; [|done..].
  pose proof (load_snapshot_reads_only path fs) as Hl.
  destruct (load_snapshot path fs) as [[old| |] fs0]; [|done..].
  simpl in Hl. subst fs0. intros [= <- <- <-]. by exists records, old.
Qed.

Lemma track_shortages_stops path net save fs o fs' :
  track_shortages path net save fs = (o, fs') ->
  (forall r, o <> Return r) -> fs' = fs.
Proof.
  rewrite track_shortages_unfold.
  destruct (fetch_shortage_records net) as [records| |]; [|by intros [= <- <-]..].
  pose proof (load_snapshot_reads_only path fs) as Hl.
  destruct (load_snapshot path fs) as [[old| |] fs0]; simpl in Hl; subst fs0;
    intros [= <- <-] Ho; [|done..].
  by destruct (Ho (length records, diff_snapshots old (build_snapshot records))).
Qed.

Lemma load_saved path (S : snapshot) fs :
  snapshot_wf S ->
  let fs' := <[path := json_dumps (Some 2%nat) (PDict (dict_of_snapshot S))]> fs in
  load_snapshot path fs' = (Return (canon <$> S), fs').
Proof.
  intros Hwf. unfold load_snapshot. cbv zeta. rewrite lookup_insert_eq.
  rewrite (json_loads_dumps _ _ (wf_dict_of_snapshot S Hwf)).
  rewrite canon_dict. simpl. by rewrite snapshot_of_canon.
Qed.

Lemma snapshot_eq_canon (S : snapshot) :
  snapshot_wf S -> snapshot_eq (canon <$> S) S.
Proof.
  intros Hwf. split; [apply dom_fmap_L|].
  intros k a b Ha Hb. rewrite lookup_fmap, Hb in Ha. injection Ha as <-.
  apply py_eq_canon, (Hwf k b Hb).
Qed.

Lemma track_after_save path net save fs records :
  fetch_shortage_records net = Return records ->
  let fs1 := <[path := json_dumps (Some 2%nat)
                         (PDict (dict_of_snapshot (build_snapshot records)))]> fs in
  track_shortages path net save fs1 = (Return (length records, empty_diff), fs1).
Proof.
  intros Hf fs1.
  pose proof (build_snapshot_wf records (fetch_records_wf _ _ Hf)) as Hwf.
  rewrite track_shortages_unfold, Hf. unfold fs1.
  rewrite (load_saved path _ fs Hwf).
  rewrite (diff_of_equal _ _ (snapshot_eq_canon _ Hwf)).
  destruct save; [|done]. by rewrite insert_insert_eq.
Qed.

(** X11.  After a run that saved, a second run that gets the same
    answer from the network returns the same count and the empty diff,
    and leaves the files as the first run left them, with saving on or
    off. *)
Theorem second_run_reports_nothing path net fs total d fs1 :
  track_shortages path net true fs = (Return (total, d), fs1) ->
  forall save,
    track_shortages path net save fs1 = (Return (total, empty_diff), fs1).
Proof.
  rewrite track_shortages_unfold.
  destruct (fetch_shortage_records net) as [records| |] eqn:Hf; [|done..].
  pose proof (load_snapshot_reads_only path fs) as Hl.
  destruct (load_snapshot path fs) as [[old| |] fs0] eqn:Hload; [|done..].
  simpl in Hl. subst fs0. intros [= <- <- <-] save.
  by apply track_after_save.
Qed.

Lemma second_run_reports_nothing_witness :
  exists total d fs1,
    track_shortages "s.json" (one_record_server "u") true ∅
    = (Return (total, d), fs1) /\
    forall save,
      track_shortages "s.json" (one_record_server "u") save fs1
      = (Return (total, empty_diff), fs1).
Proof.
  eassert (E : track_shortages "s.json" (one_record_server "u") true ∅
               = (Return (_, _), _)) by (vm_compute; reflexivity).
  eexists _, _, _. split; [exact E|].
  apply (second_run_reports_nothing "s.json" (one_record_server "u") ∅ _ _ _ E).
Defined.

(** X10.  A run without a snapshot file reports every record of the new
    snapshot as added, in ascending key order, and nothing removed or
    changed; it counts the fetched records and writes the snapshot file
    only when saving is on. *)
Theorem first_run_adds_everything path net save fs records :
  fs !! path = None ->
  fetch_shortage_records net = Return records ->
  let new := build_snapshot records in
  track_shortages path net save fs
  = (Return (length records,
             {| added := (fun k => new !!! k) <$> sorted (dom new);
                removed := []; changed := [] |}),
     if save
     then <[path := json_dumps (Some 2%nat) (PDict (dict_of_snapshot new))]> fs
     else fs).
Proof.
  intros Hnone Hf new. rewrite track_shortages_unfold, Hf.
  unfold load_snapshot. rewrite Hnone.
  fold new. by rewrite diff_from_nothing.
Qed.

Lemma first_run_adds_everything_witness :
  let records := [[("id", PStr "2")]; [("id", PStr "1")]] in
  let net := Body (json_dumps None (PDict [("results", PList (PDict <$> records))])) in
  let new := build_snapshot records in
  track_shortages "s.json" net false ∅
  = (Return (2%nat,
             {| added := (fun k => new !!! k) <$> sorted (dom new);
                removed := []; changed := [] |}), ∅).
Proof.
  intros records net new.
  apply (first_run_adds_everything "s.json" net false ∅ records); reflexivity.
Defined.

(** ** Query URL *)

Lemma quote_plus_char_no_space c :
  Ascii.eqb " " c = false ->
  flat_map (quote_byte []) (utf8 c) = quote_plus_char c.
Proof. by_cases_on_char c. Qed.

Lemma quote_plus_char_safe c : forallb component_char (quote_plus_char c) = true.
Proof. by_cases_on_char c. Qed.

Lemma unquote_quote_plus_char c t :
  unquote_plus_char (quote_plus_char c ++ t) = Some (c, t).
Proof. by_cases_on_char c. Qed.

Lemma quote_plus_chars s : quote_plus s = flat_map quote_plus_char (chars s).
Proof.
  unfold quote_plus, quote, chars.
  destruct (existsb (Ascii.eqb " ") (list_ascii_of_string s)) eqn:E.
  - clear E. induction (list_ascii_of_string s) as [|c cs IH]; [done|].
    cbn [flat_map]. rewrite flat_map_app, map_app, IH. done.
  - induction (list_ascii_of_string s) as [|c cs IH]; [done|].
    cbn [existsb] in E. apply orb_false_iff in E as [Hc Hcs].
    cbn [flat_map]. rewrite flat_map_app, (IH Hcs).
    by rewrite quote_plus_char_no_space.
Qed.

Lemma chars_of_text (t : text) : chars (string_of_list_ascii t) = t.
Proof. apply list_ascii_of_string_of_list_ascii. Qed.

Lemma quote_plus_safe_text (t : text) :
  forallb always_safe t = true -> quote_plus (string_of_list_ascii t) = t.
Proof.
  rewrite quote_plus_chars, chars_of_text.
  induction t as [|c t IH]; [done|]. cbn [forallb flat_map].
  intros [Hc Ht]%andb_true_iff. rewrite (IH Ht). clear IH Ht. revert Hc.
  by_cases_on_char c.
Qed.

Lemma uint_chars_safe d : forallb always_safe (uint_chars d) = true.
Proof. induction d; simpl; auto. Qed.

Lemma int_repr_safe n : forallb always_safe (int_repr n) = true.
Proof. destruct n; simpl; auto using uint_chars_safe. Qed.

Lemma encoded_component cs :
  forallb component_char (flat_map quote_plus_char cs) = true.
Proof.
  induction cs as [|c cs IH]; [done|].
  cbn [flat_map]. by rewrite forallb_app, quote_plus_char_safe, IH.
Qed.

Lemma encoded_injective cs1 cs2 :
  flat_map quote_plus_char cs1 = flat_map quote_plus_char cs2 -> cs1 = cs2.
Proof.
  revert cs2. induction cs1 as [|c1 l1 IH]; intros [|c2 l2] H;
    cbn [flat_map] in H; [done| | |];
    apply (f_equal unquote_plus_char) in H;
    rewrite ?unquote_quote_plus_char in H; try done.
  injection H as -> H. f_equal. by apply IH.
Qed.

Lemma urlencode_query search limit skip :
  urlencode
    ([("limit", string_of_list_ascii (int_repr limit));
      ("skip", string_of_list_ascii (int_repr skip))]
     ++ match search with
        | Some (String c q) => [("search", String c q)]
        | _ => []
        end)
  = query_text search limit skip.
Proof.
  unfold query_text, urlencode.
  assert (Hn : forall n, quote_plus (string_of_list_ascii (int_repr n)) = int_repr n)
    by (intros n; apply quote_plus_safe_text, int_repr_safe).
  destruct search as [[|c q]|]; cbn [effective_search app map fst snd join];
    rewrite !Hn;
    change (quote_plus "limit") with (chars "limit");
    change (quote_plus "skip") with (chars "skip");
    try change (quote_plus "search") with (chars "search");
    rewrite ?quote_plus_chars, ?app_nil_r; reflexivity.
Qed.

Lemma query_text_chars search limit skip :
  forallb query_char (query_text search limit skip) = true.
Proof.
  assert (Hsafe : forall t, forallb always_safe t = true -> forallb query_char t = true).
  { intros t H. rewrite forallb_forall in H. apply forallb_forall. intros c Hc.
    unfold query_char, component_char. by rewrite (H c Hc). }
  assert (Hcomp : forall t, forallb component_char t = true -> forallb query_char t = true).
  { intros t H. rewrite forallb_forall in H. apply forallb_forall. intros c Hc.
    unfold query_char. by rewrite (H c Hc). }
  unfold query_text.
  rewrite !forallb_app, !(Hsafe (int_repr _)) by apply int_repr_safe.
  destruct (effective_search search) as [q|]; [|reflexivity].
  rewrite forallb_app, (Hcomp (flat_map _ _)) by apply encoded_component.
  reflexivity.
Qed.

(** X1.  The URL is the base URL, a question mark and the query
    [limit=<limit>&skip=<skip>], the two numbers in decimal, followed for
    a search that is neither absent nor empty by [&search=] and the
    search with every character encoded on its own: letters, digits and
    [_.-~] as they are, a space as a plus sign, any other character as
    the percent escapes of its UTF-8 bytes.  The query holds no character
    outside letters, digits and [_.-~+%=&]. *)
Theorem build_query_url_query base_url search limit skip :
  build_query_url base_url search limit skip
  = base_url +:+ "?" +:+ string_of_list_ascii (query_text search limit skip) /\
  forallb query_char (query_text search limit skip) = true.
Proof.
  split; [|apply query_text_chars].
  unfold build_query_url. cbv zeta. by rewrite urlencode_query.
Qed.

Lemma int_repr_number_chars n : forallb number_char (int_repr n) = true.
Proof.
  assert (H : forall d, forallb number_char (uint_chars d) = true)
    by (induction d; simpl; auto).
  destruct n; simpl; auto.
Qed.

Lemma int_repr_injective n1 n2 : int_repr n1 = int_repr n2 -> n1 = n2.
Proof.
  intros H. apply (f_equal (fun t => scan_number (t ++ []))) in H. cbv beta in H.
  rewrite !scan_number_int in H by reflexivity. by injection H.
Qed.

Lemma span_unique (P : ascii -> bool) (t1 t2 r1 r2 : text) :
  forallb P t1 = true -> forallb P t2 = true ->
  forallb P (take 1 r1) = false \/ r1 = [] ->
  forallb P (take 1 r2) = false \/ r2 = [] ->
  t1 ++ r1 = t2 ++ r2 -> t1 = t2 /\ r1 = r2.
Proof.
  revert t2. induction t1 as [|c1 t1 IH]; intros [|c2 t2] H1 H2 Hr1 Hr2 H;
    cbn [app forallb] in *.
  - done.
  - subst r1. apply andb_true_iff in H2 as [Hc _].
    destruct Hr1 as [Hr1|]; [|done]. cbn in Hr1. by rewrite Hc in Hr1.
  - subst r2. apply andb_true_iff in H1 as [Hc _].
    destruct Hr2 as [Hr2|]; [|done]. cbn in Hr2. by rewrite Hc in Hr2.
  - injection H as -> H. apply andb_true_iff in H1 as [_ H1].
    apply andb_true_iff in H2 as [_ H2].
    destruct (IH t2 H1 H2 Hr1 Hr2 H) as [-> ->]. done.
Qed.

Lemma int_repr_prefix n1 n2 (r1 r2 : text) :
  forallb number_char (take 1 r1) = false \/ r1 = [] ->
  forallb number_char (take 1 r2) = false \/ r2 = [] ->
  int_repr n1 ++ r1 = int_repr n2 ++ r2 -> n1 = n2 /\ r1 = r2.
Proof.
  intros Hr1 Hr2 H.
  destruct (span_unique number_char _ _ _ _ (int_repr_number_chars n1)
              (int_repr_number_chars n2) Hr1 Hr2 H) as [E ->].
  by apply int_repr_injective in E as ->.
Qed.

Lemma chars_injective s1 s2 : chars s1 = chars s2 -> s1 = s2.
Proof.
  intros H. rewrite <- (string_of_list_ascii_of_string s1),
              <- (string_of_list_ascii_of_string s2).
  unfold chars in H. by rewrite H.
Qed.

Lemma query_text_injective search1 limit1 skip1 search2 limit2 skip2 :
  query_text search1 limit1 skip1 = query_text search2 limit2 skip2 ->
  limit1 = limit2 /\ skip1 = skip2 /\ effective_search search1 = effective_search search2.
Proof.
  unfold query_text. intros H. apply app_inv_head in H.
  apply int_repr_prefix in H as [-> H]; [|by left..].
  apply app_inv_head in H.
  destruct (effective_search search1) as [q1|],
           (effective_search search2) as [q2|];
    apply int_repr_prefix in H as [-> H];
    first [by left | by right | idtac]; try done.
  apply app_inv_head, encoded_injective, chars_injective in H. by subst.
Qed.

Lemma append_inv_head (a b c : string) : a +:+ b = a +:+ c -> b = c.
Proof. induction a as [|x a IH]; simpl; [done|]. intros [= H]. auto. Qed.

Lemma query_text_effective search limit skip :
  query_text search limit skip = query_text (effective_search search) limit skip.
Proof. by destruct search as [[|c q]|]. Qed.

(** X2.  For one base URL, two requests have the same URL exactly when
    they have the same limit, the same skip and the same search, an
    absent search and an empty one being the same. *)
Theorem build_query_url_injective base_url search1 limit1 skip1 search2 limit2 skip2 :
  build_query_url base_url search1 limit1 skip1
  = build_query_url base_url search2 limit2 skip2
  <-> limit1 = limit2 /\ skip1 = skip2 /\
      effective_search search1 = effective_search search2.
Proof.
  unfold build_query_url. cbv zeta. rewrite !urlencode_query. split.
  - intros H. do 2 apply append_inv_head in H.
    apply (f_equal chars) in H. rewrite !chars_of_text in H.
    by apply query_text_injective.
  - intros (-> & -> & H).
    by rewrite (query_text_effective search1), H, <- query_text_effective.
Qed.

(** ** Report formatter *)

Lemma each_line_inr {A} (f : A -> cli_exn + string) xs lines :
  each_line f xs = inr lines ->
  length lines = length xs /\ Forall (fun x => exists l, f x = inr l) xs.
Proof.
  revert lines. induction xs as [|x xs IH]; intros lines; cbn [each_line].
  - intros [= <-]. by split.
  - destruct (f x) as [e|l] eqn:Hx; [done|].
    destruct (each_line f xs) as [e|ls]; [done|]. intros [= <-].
    destruct (IH ls eq_refl) as [Hlen Hall]. split; [by rewrite !length_cons, Hlen|].
    constructor; eauto.
Qed.

Lemma each_line_inl {A} (f : A -> cli_exn + string) xs e :
  each_line f xs = inl e -> Exists (fun x => f x = inl e) xs.
Proof.
  induction xs as [|x xs IH]; cbn [each_line]; [done|].
  destruct (f x) as [e'|l] eqn:Hx.
  - intros [= <-]. by left.
  - destruct (each_line f xs) as [e'|ls]; [|done]. intros [= <-]. right. by apply IH.
Qed.

Lemma each_line_ok {A} (f : A -> cli_exn + string) xs :
  Forall (fun x => exists l, f x = inr l) xs ->
  exists lines, each_line f xs = inr lines /\ length lines = length xs.
Proof.
  induction 1 as [|x xs [l Hx] _ (lines & E & Hlen)]; cbn [each_line].
  - by exists [].
  - rewrite Hx, E. exists (l :: lines). by rewrite !length_cons, Hlen.
Qed.

Lemma each_line_preview_fails items :
  Exists (fun item => is_dict item = false) items ->
  each_line preview_line items = inl (Tracker AttributeError).
Proof.
  induction items as [|x xs IH]; intros H; [by apply Exists_nil in H|].
  cbn [each_line]. destruct x; try done.
  cbn [preview_line]. apply Exists_cons in H as [H|H]; [done|].
  by rewrite (IH H).
Qed.

Lemma length_slice_to {A} (m : Z) (items : list A) :
  0 <= m -> Z.of_nat (length (slice_to m items)) = Z.min (Z.of_nat (length items)) m.
Proof.
  intros Hm. unfold slice_to. destruct (Z.ltb_spec m 0); [lia|].
  rewrite length_take. lia.
Qed.

Lemma length_elision {A} (m : Z) (items : list A) :
  length (elision m items) = if m <? Z.of_nat (length items) then 1%nat else 0%nat.
Proof. unfold elision. by destruct (m <? _). Qed.

Lemma slice_to_sublist {A} (m : Z) (items : list A) x :
  x ∈ slice_to m items -> x ∈ items.
Proof.
  unfold slice_to. destruct (m <? 0); apply subseteq_take.
Qed.

Lemma preview_line_cases item :
  match preview_line item with
  | inr _ => is_dict item = true
  | inl e => e = Tracker AttributeError /\ is_dict item = false
  end.
Proof. by destruct item. Qed.

(** X12.  [_format_preview] looks at the items [items[:max_items]]
    only.  When they are all dicts it returns the header
    [<label>: <len(items)>] followed by one line per such item and, when
    there are more items than [max_items], the line that counts the
    rest; for [max_items >= 0] that is [1 + min(len(items), max_items)]
    lines, plus one when items are left out.  Otherwise it raises
    [AttributeError], and one of those items is not a dict. *)
Theorem format_preview_outcome items label max_items :
  match _format_preview items label max_items with
  | inr lines =>
      Forall (fun item => is_dict item = true) (slice_to max_items items) /\
      head lines = Some (label +:+ ": " +:+ decimal (Z.of_nat (length items))) /\
      (0 <= max_items ->
       Z.of_nat (length lines)
       = 1 + Z.min (Z.of_nat (length items)) max_items
         + (if max_items <? Z.of_nat (length items) then 1 else 0))
  | inl e =>
      e = Tracker AttributeError /\
      Exists (fun item => is_dict item = false) (slice_to max_items items)
  end.
Proof.
  unfold _format_preview.
  destruct (each_line preview_line (slice_to max_items items)) as [e|lines] eqn:E.
  - apply each_line_inl in E. split.
    + apply Exists_exists in E as (x & _ & Hx).
      pose proof (preview_line_cases x) as Hc. rewrite Hx in Hc. tauto.
    + eapply Exists_impl; [exact E|]. intros x Hx.
      pose proof (preview_line_cases x) as Hc. rewrite Hx in Hc. tauto.
  - apply each_line_inr in E as [Hlen Hall]. split_and!; [|done|].
    + eapply Forall_impl; [exact Hall|]. intros x [l Hx].
      pose proof (preview_line_cases x) as Hc. by rewrite Hx in Hc.
    + intros Hm. rewrite length_cons, length_app, Hlen, length_elision.
      pose proof (length_slice_to max_items items Hm).
      destruct (max_items <? _); lia.
Qed.

Lemma changed_line_entry key o n :
  match changed_line (changed_entry key o n) with
  | inr _ => is_dict o = true /\ is_dict n = true
  | inl e => e = Tracker AttributeError /\ (is_dict o = false \/ is_dict n = false)
  end.
Proof.
  unfold changed_line, changed_entry, subscript.
  change (dict_get "before" _) with (Some o).
  change (dict_get "after" _) with (Some n).
  destruct n, o; cbn; auto.
Qed.

(** X13.  On the [changed] entries of a diff, [_format_changed] never
    fails on a missing [before] or [after]: it returns the header
    [Changed: <n>] and the lines, with the same line count as
    [_format_preview], or it raises [AttributeError], and then a common
    key has an old or a new record that is not a dict. *)
Theorem format_changed_of_diff old new max_items :
  let d := diff_snapshots old new in
  match _format_changed (changed d) max_items with
  | inr lines =>
      head lines = Some ("Changed: " +:+ decimal (Z.of_nat (length (changed d)))) /\
      (0 <= max_items ->
       Z.of_nat (length lines)
       = 1 + Z.min (Z.of_nat (length (changed d))) max_items
         + (if max_items <? Z.of_nat (length (changed d)) then 1 else 0))
  | inl e =>
      e = Tracker AttributeError /\
      exists k a b, old !! k = Some a /\ new !! k = Some b /\
                    (is_dict a = false \/ is_dict b = false)
  end.
Proof.
  intros d. unfold _format_changed.
  destruct (each_line changed_line (slice_to max_items (changed d)))
    as [e|lines] eqn:E.
  - apply each_line_inl, Exists_exists in E as (x & Hx & Hline).
    apply slice_to_sublist, changed_entries in Hx as (k & a & b & Ha & Hb & ->).
    pose proof (changed_line_entry k a b) as Hc. rewrite Hline in Hc.
    destruct Hc as [-> Hc]. eauto 8.
  - apply each_line_inr in E as [Hlen _]. split; [done|].
    intros Hm. rewrite length_cons, length_app, Hlen, length_elision.
    pose proof (length_slice_to max_items (changed d) Hm).
    destruct (max_items <? _); lia.
Qed.

Lemma preview_failure items label m e :
  _format_preview items label m = inl e -> e = Tracker AttributeError.
Proof.
  unfold _format_preview.
  destruct (each_line preview_line (slice_to m items)) as [e'|] eqn:E; [|done].
  intros [= <-]. apply each_line_inl, Exists_exists in E as (x & _ & Hx).
  pose proof (preview_line_cases x) as Hc. rewrite Hx in Hc. tauto.
Qed.

Lemma changed_failure old new m e :
  _format_changed (changed (diff_snapshots old new)) m = inl e ->
  e = Tracker AttributeError.
Proof.
  unfold _format_changed.
  destruct (each_line changed_line _) as [e'|] eqn:E; [|done].
  intros [= <-]. apply each_line_inl, Exists_exists in E as (x & Hx & Hline).
  apply slice_to_sublist, changed_entries in Hx as (k & a & b & _ & _ & ->).
  pose proof (changed_line_entry k a b) as Hc. rewrite Hline in Hc. tauto.
Qed.

Lemma preview_never_exits items label m msg :
  _format_preview items label m <> inl (SystemExit msg).
Proof.
  unfold _format_preview. intros H.
  destruct (each_line preview_line (slice_to m items)) as [e|] eqn:E; [|done].
  injection H as ->. apply each_line_inl, Exists_exists in E as (x & _ & Hx).
  by destruct x.
Qed.

Lemma changed_never_exits items m msg :
  _format_changed items m <> inl (SystemExit msg).
Proof.
  unfold _format_changed. intros H.
  destruct (each_line changed_line (slice_to m items)) as [e|] eqn:E; [|done].
  injection H as ->. apply each_line_inl, Exists_exists in E as (x & _ & Hx).
  unfold changed_line in Hx.
  destruct (subscript x "before") as [e|before] eqn:Eb.
  { injection Hx as ->. unfold subscript in Eb. destruct x; try done.
    by destruct (dict_get _ _). }
  destruct (subscript x "after") as [e|after] eqn:Ea.
  { injection Hx as ->. unfold subscript in Ea. destruct x; try done.
    by destruct (dict_get _ _). }
  by destruct after, x, before.
Qed.

Lemma preview_objects items label m :
  Forall (fun item => is_dict item = true) items ->
  exists lines,
    _format_preview items label m
    = inr ((label +:+ ": " +:+ decimal (Z.of_nat (length items))) :: lines) /\
    (0 <= m ->
     Z.of_nat (length lines)
     = Z.min (Z.of_nat (length items)) m
       + (if m <? Z.of_nat (length items) then 1 else 0)).
Proof.
  intros Hall.
  destruct (each_line_ok preview_line (slice_to m items)) as (lines & E & Hlen).
  { apply Forall_forall. intros x Hx%slice_to_sublist.
    rewrite Forall_forall in Hall. specialize (Hall x Hx).
    destruct x; try done. eexists. reflexivity. }
  exists (lines ++ elision m items). unfold _format_preview. rewrite E.
  split; [done|]. intros Hm. rewrite length_app, Hlen, length_elision.
  pose proof (length_slice_to m items Hm). destruct (m <? _); lia.
Qed.

Lemma changed_objects old new m :
  all_objects old -> all_objects new ->
  let d := diff_snapshots old new in
  exists lines,
    _format_changed (changed d) m
    = inr (("Changed: " +:+ decimal (Z.of_nat (length (changed d)))) :: lines) /\
    (0 <= m ->
     Z.of_nat (length lines)
     = Z.min (Z.of_nat (length (changed d))) m
       + (if m <? Z.of_nat (length (changed d)) then 1 else 0)).
Proof.
  intros Ho Hn d.
  destruct (each_line_ok changed_line (slice_to m (changed d)))
    as (lines & E & Hlen).
  { apply Forall_forall. intros x Hx%slice_to_sublist.
    apply changed_entries in Hx as (k & a & b & Ha & Hb & ->).
    pose proof (changed_line_entry k a b) as Hc.
    destruct (changed_line _) as [e|l]; [|by eexists].
    destruct Hc as [_ [Hc|Hc]].
    - by rewrite (Ho k a Ha) in Hc.
    - by rewrite (Hn k b Hb) in Hc. }
  exists (lines ++ elision m (changed d)). unfold _format_changed. rewrite E.
  split; [done|]. intros Hm. rewrite length_app, Hlen, length_elision.
  pose proof (length_slice_to m (changed d) Hm). destruct (m <? _); lia.
Qed.

(** X23.  With a negative [max_items] and dicts only, [_format_preview]
    leaves out the last [-max_items] items, as the slice does, and always
    ends with the line that counts the rest, whose number is
    [len(items) - max_items]: more than the number of items there are. *)
Theorem format_preview_negative_bound items label max_items :
  max_items < 0 ->
  Forall (fun item => is_dict item = true) items ->
  exists lines,
    _format_preview items label max_items
    = inr ((label +:+ ": " +:+ decimal (Z.of_nat (length items))) :: lines
           ++ ["  ... and " +:+ decimal (Z.of_nat (length items) - max_items)
               +:+ " more"]) /\
    Z.of_nat (length lines) = Z.max 0 (Z.of_nat (length items) + max_items) /\
    Z.of_nat (length items) < Z.of_nat (length items) - max_items.
Proof.
  intros Hm Hall.
  destruct (each_line_ok preview_line (slice_to max_items items))
    as (lines & E & Hlen).
  { apply Forall_forall. intros x Hx%slice_to_sublist.
    rewrite Forall_forall in Hall. specialize (Hall x Hx).
    destruct x; try done. eexists. reflexivity. }
  exists lines. unfold _format_preview. rewrite E. split_and!; [|  |lia].
  - unfold elision. destruct (Z.ltb_spec max_items (Z.of_nat (length items))); [done|lia].
  - rewrite Hlen. unfold slice_to. destruct (Z.ltb_spec max_items 0); [|lia].
    rewrite length_take. lia.
Qed.

Lemma format_preview_negative_bound_witness :
  exists lines,
    _format_preview [PDict [("key", PStr "a")]; PDict []; PDict []] "Added" (-1)
    = inr (("Added" +:+ ": " +:+ decimal 3) :: lines
           ++ ["  ... and " +:+ decimal (3 - -1) +:+ " more"]) /\
    Z.of_nat (length lines) = Z.max 0 (3 + -1) /\
    3 < 3 - -1.
Proof.
  apply (format_preview_negative_bound
           [PDict [("key", PStr "a")]; PDict []; PDict []] "Added" (-1)).
  - reflexivity.
  - repeat constructor.
Defined.

Lemma changed_line_failure item e :
  changed_line item = inl e ->
  (e = TypeError /\ is_dict item = false) \/
  exists d, item = PDict d /\
    ((e = KeyError "before" /\ dict_get "before" d = None) \/
     (e = KeyError "after" /\ dict_get "before" d <> None /\
      dict_get "after" d = None) \/
     (e = Tracker AttributeError /\
      exists before after,
        dict_get "before" d = Some before /\ dict_get "after" d = Some after /\
        (is_dict after = false \/ is_dict before = false))).
Proof.
  unfold changed_line, subscript. intros H.
  destruct item as [| | | | |d]; try (injection H as <-; by left).
  right. exists d. split; [done|].
  destruct (dict_get "before" d) as [before|]; [|injection H as <-; by left].
  destruct (dict_get "after" d) as [after|];
    [|injection H as <-; right; by left].
  right. right.
  destruct after, before; try done; injection H as <-;
    (split; [done|]); do 2 eexists; (split_and!; [done|done|]); auto.
Qed.

(** X22.  [_format_changed] fails only at one of the items
    [changed[:max_items]]: with [TypeError] when the item is not a dict,
    with [KeyError] for [before] when the item has no [before], with
    [KeyError] for [after] when it has a [before] and no [after], and
    with [AttributeError] when it has both and one of them is not a
    dict. *)
Theorem format_changed_failures changed_items max_items e :
  _format_changed changed_items max_items = inl e ->
  exists item, item ∈ slice_to max_items changed_items /\
    ((e = TypeError /\ is_dict item = false) \/
     exists d, item = PDict d /\
       ((e = KeyError "before" /\ dict_get "before" d = None) \/
        (e = KeyError "after" /\ dict_get "before" d <> None /\
         dict_get "after" d = None) \/
        (e = Tracker AttributeError /\
         exists before after,
           dict_get "before" d = Some before /\ dict_get "after" d = Some after /\
           (is_dict after = false \/ is_dict before = false)))).
Proof.
  unfold _format_changed.
  destruct (each_line changed_line (slice_to max_items changed_items))
    as [e'|] eqn:E; [|done].
  intros [= <-]. apply each_line_inl, Exists_exists in E as (item & Hin & Hline).
  exists item. split; [done|]. by apply changed_line_failure.
Qed.

Lemma format_changed_failures_witness :
  exists item, item ∈ slice_to 5 [PDict [("key", PStr "k"); ("before", PNone)]] /\
    ((KeyError "after" = TypeError /\ is_dict item = false) \/
     exists d, item = PDict d /\
       ((KeyError "after" = KeyError "before" /\ dict_get "before" d = None) \/
        (KeyError "after" = KeyError "after" /\ dict_get "before" d <> None /\
         dict_get "after" d = None) \/
        (KeyError "after" = Tracker AttributeError /\
         exists before after,
           dict_get "before" d = Some before /\ dict_get "after" d = Some after /\
           (is_dict after = false \/ is_dict before = false)))).
Proof.
  apply (format_changed_failures [PDict [("key", PStr "k"); ("before", PNone)]] 5
           (KeyError "after")).
  reflexivity.
Defined.

Lemma each_line_Forall2 {A} (f : A -> cli_exn + string) xs lines :
  each_line f xs = inr lines <-> Forall2 (fun x line => f x = inr line) xs lines.
Proof.
  revert lines. induction xs as [|x xs IH]; intros lines; cbn [each_line].
  - split; [intros [= <-]; constructor|by intros ->%Forall2_nil_inv_l].
  - split.
    + destruct (f x) as [e|l] eqn:Hx; [done|].
      destruct (each_line f xs) as [e|ls]; [done|]. intros [= <-].
      constructor; [done|]. by apply IH.
    + intros (l & ls & Hx & Hall & ->)%Forall2_cons_inv_l.
      rewrite Hx. apply IH in Hall. by rewrite Hall.
Qed.

Lemma py_or_shown record fields placeholder :
  py_str (py_or (_pick_first record fields) (PStr placeholder))
  = shown placeholder (first_usable record fields).
Proof.
  rewrite pick_first_first_usable. unfold py_or, shown.
  destruct (first_usable record fields) as [v|]; simpl; [|done].
  by destruct (truthy v).
Qed.

Lemma preview_line_normalized record :
  preview_line (normalize_record record) = inr (record_line record).
Proof.
  unfold preview_line, normalize_record, record_line, dict_get_default.
  cbn [dict_get String.eqb Ascii.eqb Bool.eqb].
  rewrite !py_or_shown. unfold py_or. cbn [truthy].
  destruct (String.eqb_spec (_record_key record) EmptyString) as [E|_].
  - by apply record_key_nonempty in E.
  - reflexivity.
Qed.

(** X21.  The [Added] section of a report lists the records under the
    first five keys, in ascending order, that the new snapshot has and
    the old one lacks: after the header, line [i] is the line of an input
    record whose key is the [i]-th of those keys, showing its name and
    status, or their placeholders, and, between brackets, that key. *)
Theorem added_section_lines old records label :
  let new := build_snapshot records in
  let items := added (diff_snapshots old new) in
  exists lines,
    _format_preview items label 5
    = inr ((label +:+ ": " +:+ decimal (Z.of_nat (length items)))
           :: lines ++ elision 5 items) /\
    Forall2 (fun k line => exists r, r ∈ records /\ _record_key r = k /\
                                     line = record_line r)
      (take 5 (sorted (dom new ∖ dom old))) lines.
Proof.
  intros new items.
  set (keys := take 5 (sorted (dom new ∖ dom old))).
  assert (Hkeys : Forall (fun k => exists r, r ∈ records /\ _record_key r = k /\
                                   new !!! k = normalize_record r) keys).
  { apply Forall_forall. intros k Hk%subseteq_take%elem_of_sorted.
    apply elem_of_difference in Hk as [Hk%lookup_total_dom _].
    apply lookup_build_snapshot_record in Hk. exact Hk. }
  set (line_of := fun k => match preview_line (new !!! k) with
                           | inr line => line
                           | inl _ => EmptyString
                           end).
  assert (Hline : Forall (fun k => preview_line (new !!! k) = inr (line_of k)) keys).
  { eapply Forall_impl; [exact Hkeys|]. intros k (r & _ & _ & E).
    unfold line_of. by rewrite E, preview_line_normalized. }
  exists (line_of <$> keys). split.
  - unfold _format_preview.
    assert (Hslice : slice_to 5 items = (fun k => new !!! k) <$> keys).
    { unfold slice_to, items, diff_snapshots, keys; cbn. by rewrite fmap_take. }
    assert (E : each_line preview_line (slice_to 5 items) = inr (line_of <$> keys)).
    { rewrite Hslice. apply each_line_Forall2, Forall2_fmap.
      by apply Forall_Forall2_diag. }
    by rewrite E.
  - apply Forall2_fmap_r, Forall_Forall2_diag.
    eapply Forall_impl; [exact Hkeys|]. intros k (r & Hr & Hk & E).
    exists r. unfold line_of. by rewrite E, preview_line_normalized.
Qed.

(** ** Command line *)

Lemma main_checked args urlopen now fs :
  0 < arg_limit args -> 0 <= arg_skip args ->
  main (Parsed args) urlopen now fs
  = match track_shortages (arg_snapshot args)
            (urlopen (build_query_url (arg_base_url args) (arg_search args)
                        (arg_limit args) (arg_skip args)))
            (negb (arg_no_save args)) fs with
    | (Return (total, diff), fs') =>
        (match _format_preview (added diff) "Added" 5 with
         | inl e => Failed e
         | inr added_lines =>
             match _format_preview (removed diff) "Removed" 5 with
             | inl e => Failed e
             | inr removed_lines =>
                 match _format_changed (changed diff) 5 with
                 | inl e => Failed e
                 | inr changed_lines =>
                     Printed
                       (["Timestamp (UTC): " +:+ now;
                         "Fetched records: " +:+ decimal (Z.of_nat total)]
                        ++ added_lines ++ removed_lines ++ changed_lines)
                 end
             end
         end, fs')
    | (Raise e, fs') => (Failed (Tracker e), fs')
    | (Unmodelled, fs') => (Beyond, fs')
    end.
Proof.
  intros Hl Hs. unfold main.
  destruct (Z.leb_spec (arg_limit args) 0); [lia|].
  destruct (Z.ltb_spec (arg_skip args) 0); [lia|]. done.
Qed.

Lemma main_unchecked args fs :
  arg_limit args <= 0 \/ arg_skip args < 0 ->
  exists msg, forall urlopen' now',
    main (Parsed args) urlopen' now' fs = (Failed (SystemExit (PStr msg)), fs).
Proof.
  unfold main. intros [H|H].
  - destruct (Z.leb_spec (arg_limit args) 0); [|lia]. eauto.
  - destruct (arg_limit args <=? 0); [eauto|].
    destruct (Z.ltb_spec (arg_skip args) 0); [|lia]. eauto.
Qed.

Lemma main_checked_never_exits args urlopen now fs code :
  0 < arg_limit args -> 0 <= arg_skip args ->
  fst (main (Parsed args) urlopen now fs) <> Failed (SystemExit code).
Proof.
  intros Hl Hs H. rewrite main_checked in H by lia.
  destruct (track_shortages _ _ _ _) as [[[total d]|e|] fs']; [|done..].
  cbn [fst] in H.
  destruct (_format_preview (added d) _ _) as [e|l1] eqn:E1.
  { injection H as ->. by apply preview_never_exits in E1. }
  destruct (_format_preview (removed d) _ _) as [e|l2] eqn:E2.
  { injection H as ->. by apply preview_never_exits in E2. }
  destruct (_format_changed (changed d) _) as [e|l3] eqn:E3; [|done].
  injection H as ->. by apply changed_never_exits in E3.
Qed.

(** X14.  [main] ends in [SystemExit] exactly when [argparse] exits (for
    [--help], or for a command line it cannot parse) or [--limit] is not
    positive or [--skip] is negative.  It then leaves the files as they
    were, and its outcome depends neither on the network nor on the
    clock: the checks come before any request.  The code of the
    exception is the exit status of [argparse] in the first case, the
    message about [--limit] when the limit is not positive, and the
    message about [--skip] otherwise. *)
Theorem main_rejects_bad_arguments parse_args urlopen now fs :
  let stops :=
    match parse_args with
    | Exits _ => True
    | Parsed args => arg_limit args <= 0 \/ arg_skip args < 0
    end in
  ((exists code, fst (main parse_args urlopen now fs) = Failed (SystemExit code))
   <-> stops) /\
  (stops ->
   snd (main parse_args urlopen now fs) = fs /\
   forall urlopen' now',
     main parse_args urlopen' now' fs = main parse_args urlopen now fs) /\
  (forall status,
     parse_args = Exits status ->
     fst (main parse_args urlopen now fs) = Failed (SystemExit (PInt status))) /\
  (forall args,
     parse_args = Parsed args -> arg_limit args <= 0 ->
     fst (main parse_args urlopen now fs)
     = Failed (SystemExit (PStr "--limit must be > 0"))) /\
  (forall args,
     parse_args = Parsed args -> 0 < arg_limit args -> arg_skip args < 0 ->
     fst (main parse_args urlopen now fs)
     = Failed (SystemExit (PStr "--skip must be >= 0"))).
Proof.
  intros stops. split_and!.
  - destruct parse_args as [args|status]; [|by split; eauto].
    unfold stops. split.
    + intros [code H].
      destruct (Z.leb_spec (arg_limit args) 0) as [|Hl]; [by left|].
      destruct (Z.ltb_spec (arg_skip args) 0) as [|Hs]; [by right|].
      by apply main_checked_never_exits in H.
    + intros [msg H]%(main_unchecked args fs).
      exists (PStr msg). by rewrite H.
  - destruct parse_args as [args|status]; [|done].
    intros [msg H]%(main_unchecked args fs). split.
    + by rewrite H.
    + intros urlopen' now'. by rewrite !H.
  - by intros status ->.
  - intros args -> Hl. unfold main.
    by destruct (Z.leb_spec (arg_limit args) 0); [|lia].
  - intros args -> Hl Hs. unfold main.
    destruct (Z.leb_spec (arg_limit args) 0); [lia|].
    by destruct (Z.ltb_spec (arg_skip args) 0); [|lia].
Qed.

(** X15.  A run of [main] that stays inside the universe of the
    embedding changes no file but the snapshot file, and no file at all
    with [--no-save]; when it fails with anything but [AttributeError],
    the files are as they were. *)
Theorem main_writes_only_snapshot args urlopen now fs :
  let fs' := snd (main (Parsed args) urlopen now fs) in
  fst (main (Parsed args) urlopen now fs) <> Beyond ->
  (forall path, path <> arg_snapshot args -> fs' !! path = fs !! path) /\
  (arg_no_save args = true -> fs' = fs) /\
  (forall e, fst (main (Parsed args) urlopen now fs) = Failed e ->
             e <> Tracker AttributeError -> fs' = fs).
Proof.
  intros fs'. subst fs'.
  destruct (Z.leb_spec (arg_limit args) 0) as [Hl|Hl].
  { destruct (main_unchecked args fs (or_introl Hl)) as [msg ->].
    done. }
  destruct (Z.ltb_spec (arg_skip args) 0) as [Hs|Hs].
  { destruct (main_unchecked args fs (or_intror Hs)) as [msg ->].
    done. }
  rewrite main_checked by lia.
  destruct (track_shortages _ _ _ _) as [[[total d]|e|] fs1] eqn:Ht.
  - apply track_shortages_returns in Ht
      as (records & old & Hf & Hload & -> & -> & ->).
    cbn [fst snd]. intros _. split_and!.
    + intros path Hp. destruct (negb _); [|done]. by rewrite lookup_insert_ne.
    + by intros ->.
    + intros e He Hne. exfalso. apply Hne.
      destruct (_format_preview (added _) _ _) as [e1|l1] eqn:E1.
      { injection He as <-. by apply preview_failure in E1. }
      destruct (_format_preview (removed _) _ _) as [e2|l2] eqn:E2.
      { injection He as <-. by apply preview_failure in E2. }
      destruct (_format_changed (changed _) _) as [e3|l3] eqn:E3; [|done].
      injection He as <-. by apply changed_failure in E3.
  - apply track_shortages_stops in Ht as ->; done.
  - done.
Qed.

Lemma main_writes_only_snapshot_witness :
  let server := fun _ : string =>
    Body (json_dumps None (PDict [("results", PList [PDict [("id", PInt 7)]])])) in
  let fs : files := {[ "notes.txt" := "keep" ]} in
  let fs' := snd (main (Parsed default_args) server "t0" fs) in
  fst (main (Parsed default_args) server "t0" fs) <> Beyond /\
  fs' !! "notes.txt" = Some "keep".
Proof.
  intros server fs fs'.
  assert (Hin : fst (main (Parsed default_args) server "t0" fs) <> Beyond).
  { assert (Hprinted : match fst (main (Parsed default_args) server "t0" fs) with
                       | Printed _ => True
                       | _ => False
                       end) by (vm_compute; exact I).
    intros E. by rewrite E in Hprinted. }
  destruct (main_writes_only_snapshot default_args server "t0" fs Hin)
    as (Hframe & _ & _).
  split; [exact Hin|].
  unfold fs'. by rewrite (Hframe "notes.txt").
Defined.

(** X16.  With valid arguments, a fetch that succeeds and a stored
    snapshot whose values are all objects (or no stored snapshot),
    [main] prints the timestamp, the number of fetched records, and the
    three sections [Added], [Removed], [Changed], each a header with its
    count followed by at most five lines and one more line when items are
    left out; it writes the new snapshot unless [--no-save] is given. *)
Theorem main_prints_report args urlopen now fs records old :
  0 < arg_limit args -> 0 <= arg_skip args ->
  fetch_url urlopen (arg_base_url args) (arg_search args) (arg_limit args)
    (arg_skip args) = Return records ->
  load_snapshot (arg_snapshot args) fs = (Return old, fs) ->
  all_objects old ->
  let new := build_snapshot records in
  let d := diff_snapshots old new in
  let bound n := Z.min (Z.of_nat n) 5 + (if 5 <? Z.of_nat n then 1 else 0) in
  exists added_lines removed_lines changed_lines,
    main (Parsed args) urlopen now fs
    = (Printed
         (["Timestamp (UTC): " +:+ now;
           "Fetched records: " +:+ decimal (Z.of_nat (length records))]
          ++ ("Added: " +:+ decimal (Z.of_nat (length (added d)))) :: added_lines
          ++ ("Removed: " +:+ decimal (Z.of_nat (length (removed d)))) :: removed_lines
          ++ ("Changed: " +:+ decimal (Z.of_nat (length (changed d)))) :: changed_lines),
       if arg_no_save args then fs
       else <[arg_snapshot args := saved_text new]> fs) /\
    Z.of_nat (length added_lines) = bound (length (added d)) /\
    Z.of_nat (length removed_lines) = bound (length (removed d)) /\
    Z.of_nat (length changed_lines) = bound (length (changed d)).
Proof.
  intros Hl Hs Hf Hload Hold new d bound.
  pose proof (build_snapshot_objects records) as Hnew. fold new in Hnew.
  destruct (preview_objects (added d) "Added" 5 (added_objects old new Hnew))
    as (la & Ea & Ha).
  destruct (preview_objects (removed d) "Removed" 5 (removed_objects old new Hold))
    as (lr & Er & Hr).
  destruct (changed_objects old new 5 Hold Hnew) as (lc & Ec & Hc).
  exists la, lr, lc. rewrite main_checked by lia.
  unfold fetch_url in Hf. rewrite (track_shortages_run _ _ _ _ _ _ Hf Hload).
  fold new d. fold d in Ec. rewrite Ea, Er, Ec.
  split_and!; [by destruct (arg_no_save args)|auto with lia..].
Qed.

Lemma main_prints_report_witness :
  exists lines,
    fst (main (Parsed default_args) one_record_server "2026-01-01T00:00:00+00:00" ∅)
    = Printed lines.
Proof.
  destruct (main_prints_report default_args one_record_server
              "2026-01-01T00:00:00+00:00" ∅
              [[("generic_name", PStr "Amoxicillin");
                ("package_ndc", PStr "0093-4155-73"); ("status", PStr "Current")]] ∅)
    as (la & lr & lc & H & Ha & Hr & Hc).
  - reflexivity.
  - discriminate.
  - reflexivity.
  - reflexivity.
  - apply map_Forall_empty.
  - rewrite H. eexists. reflexivity.
Defined.

(** X17.  When the stored snapshot holds a value that is not an object
    under one of the first five keys that the new snapshot lacks, [main]
    fails with [AttributeError] and prints nothing, yet without
    [--no-save] the snapshot file has already been replaced by the new
    snapshot. *)
Theorem main_fails_after_saving args urlopen now fs records old k :
  0 < arg_limit args -> 0 <= arg_skip args ->
  fetch_url urlopen (arg_base_url args) (arg_search args) (arg_limit args)
    (arg_skip args) = Return records ->
  load_snapshot (arg_snapshot args) fs = (Return old, fs) ->
  let new := build_snapshot records in
  k ∈ take 5 (sorted (dom old ∖ dom new)) ->
  is_dict (old !!! k) = false ->
  main (Parsed args) urlopen now fs
  = (Failed (Tracker AttributeError),
     if arg_no_save args then fs
     else <[arg_snapshot args := saved_text new]> fs).
Proof.
  intros Hl Hs Hf Hload new Hk Hbad.
  pose proof (build_snapshot_objects records) as Hnew. fold new in Hnew.
  destruct (preview_objects (added (diff_snapshots old new)) "Added" 5
              (added_objects old new Hnew)) as (la & Ea & _).
  rewrite main_checked by lia.
  unfold fetch_url in Hf. rewrite (track_shortages_run _ _ _ _ _ _ Hf Hload).
  fold new. rewrite Ea. unfold _format_preview at 1.
  rewrite each_line_preview_fails; [by destruct (arg_no_save args)|].
  unfold diff_snapshots; cbn [removed]. unfold slice_to. cbn.
  rewrite <- fmap_take. apply Exists_fmap, Exists_exists. eauto.
Qed.

Lemma main_fails_after_saving_witness :
  let fs : files :=
    {[ arg_snapshot default_args := json_dumps None (PDict [("old", PInt 1)]) ]} in
  let records :=
    [[("generic_name", PStr "Amoxicillin");
      ("package_ndc", PStr "0093-4155-73"); ("status", PStr "Current")]] in
  main (Parsed default_args) one_record_server "2026-01-01T00:00:00+00:00" fs
  = (Failed (Tracker AttributeError),
     <[arg_snapshot default_args := saved_text (build_snapshot records)]> fs).
Proof.
  intros fs records.
  apply (main_fails_after_saving default_args one_record_server
           "2026-01-01T00:00:00+00:00" fs records {[ "old" := PInt 1 ]} "old").
  - reflexivity.
  - discriminate.
  - reflexivity.
  - vm_compute. reflexivity.
  - apply (bool_decide_unpack _). vm_compute. exact I.
  - reflexivity.
Defined.

(** X18.  After a run of [main] that printed its report and saved, a
    second run with the same arguments and the same answer from the
    network prints the same number of fetched records and [Added: 0],
    [Removed: 0], [Changed: 0], and leaves the files as they are. *)
Theorem main_second_run_quiet args urlopen now fs lines fs1 :
  arg_no_save args = false ->
  main (Parsed args) urlopen now fs = (Printed lines, fs1) ->
  exists total rest,
    lines = ("Timestamp (UTC): " +:+ now)
            :: ("Fetched records: " +:+ decimal total) :: rest /\
    forall now',
      main (Parsed args) urlopen now' fs1
      = (Printed ["Timestamp (UTC): " +:+ now';
                  "Fetched records: " +:+ decimal total;
                  "Added: 0"; "Removed: 0"; "Changed: 0"], fs1).
Proof.
  intros Hsave Hmain.
  destruct (Z.leb_spec (arg_limit args) 0) as [Hl|Hl].
  { destruct (main_unchecked args fs (or_introl Hl)) as [msg H].
    by rewrite H in Hmain. }
  destruct (Z.ltb_spec (arg_skip args) 0) as [Hs|Hs].
  { destruct (main_unchecked args fs (or_intror Hs)) as [msg H].
    by rewrite H in Hmain. }
  rewrite main_checked in Hmain by lia. rewrite Hsave in Hmain. cbn [negb] in Hmain.
  destruct (track_shortages _ _ _ _) as [[[total d]|e|] fs'] eqn:Ht; [|done..].
  apply track_shortages_returns in Ht as (records & old & Hf & _ & -> & _ & ->).
  injection Hmain as Hlines <-.
  exists (Z.of_nat (length records)).
  destruct (_format_preview (added d) _ _) as [|l1]; [done|].
  destruct (_format_preview (removed d) _ _) as [|l2]; [done|].
  destruct (_format_changed (changed d) _) as [|l3]; [done|].
  injection Hlines as <-. eexists. split; [reflexivity|].
  intros now'. rewrite main_checked by lia.
  by rewrite (track_after_save _ _ _ fs _ Hf).
Qed.

Lemma main_second_run_quiet_witness :
  let server := fun _ : string => Body (json_dumps None (PDict [("results", PList [PDict [("id", PInt 7)]])])) in
  exists total fs1,
    fs1 = snd (main (Parsed default_args) server "t0" ∅) /\
    forall now',
      main (Parsed default_args) server now' fs1
      = (Printed ["Timestamp (UTC): " +:+ now';
                  "Fetched records: " +:+ decimal total;
                  "Added: 0"; "Removed: 0"; "Changed: 0"], fs1).
Proof.
  intros server.
  assert (Hprinted : match fst (main (Parsed default_args) server "t0" ∅) with
                     | Printed _ => True
                     | _ => False
                     end) by (vm_compute; exact I).
  destruct (main (Parsed default_args) server "t0" ∅) as [[lines|e|] fs1] eqn:E;
    [|destruct Hprinted..].
  destruct (main_second_run_quiet default_args server "t0" ∅ lines fs1 eq_refl E)
    as (total & rest & _ & H).
  by exists total, fs1.
Defined.

(** X19.  When the body is valid JSON but not an object, [main] fails
    with [AttributeError], not with the [RuntimeError] of the other
    fetch failures, and leaves the files as they were. *)
Theorem main_payload_not_object args urlopen now fs body payload :
  0 < arg_limit args -> 0 <= arg_skip args ->
  urlopen (build_query_url (arg_base_url args) (arg_search args)
             (arg_limit args) (arg_skip args)) = Body body ->
  json_loads body = Return payload ->
  is_dict payload = false ->
  main (Parsed args) urlopen now fs = (Failed (Tracker AttributeError), fs).
Proof.
  intros Hl Hs Hu Hbody Hshape. rewrite main_checked by lia.
  rewrite track_shortages_unfold, Hu. unfold fetch_shortage_records.
  rewrite Hbody. by destruct payload.
Qed.

Lemma main_payload_not_object_witness :
  main (Parsed default_args) (fun _ => Body "[1, 2]") "2026-01-01T00:00:00+00:00" ∅
  = (Failed (Tracker AttributeError), ∅).
Proof.
  apply (main_payload_not_object default_args (fun _ => Body "[1, 2]")
           "2026-01-01T00:00:00+00:00" ∅ "[1, 2]" (PList [PInt 1; PInt 2]));
    first [reflexivity | discriminate].
Defined.
